(** * Protocol core of the WoW 3.3.5a client: RC4, packet cursor, entity
      decoder, world session state machine, auth stream framer and SRP6a.

    The C++ sources are embedded shallowly: bytes and fixed-width integers
    are [Z] with the wrap-around written out, [std::vector] is [list],
    [std::map] is [gmap], member functions take the object and return the
    updated object, and the process-wide logger is an explicit list of log
    calls. *)

From Stdlib Require Import ZArith List Lia Bool String Ascii.
From stdpp Require Import base option list gmap strings.

Open Scope Z_scope.

(** ** Fixed-width integers and byte strings *)

Definition u8 (v : Z) : Z := v mod 256.
Definition u16 (v : Z) : Z := v mod 65536.
Definition u32 (v : Z) : Z := v mod 4294967296.
Definition u64 (v : Z) : Z := v mod 18446744073709551616.

Definition is_byte (b : Z) : Prop := 0 <= b < 256.
Definition word32 (v : Z) : Prop := 0 <= v < 2 ^ 32.

(** Little-endian serialisation of [v] on [n] bytes, and its inverse. *)
Definition le_bytes (n : nat) (v : Z) : list Z :=
  map (fun i => Z.land (Z.shiftr v (8 * Z.of_nat i)) 255) (seq 0 n).

Fixpoint le_value (bs : list Z) : Z :=
  match bs with
  | [] => 0
  | b :: r => Z.lor b (Z.shiftl (le_value r) 8)
  end.

Definition bytes_of_string (s : string) : list Z :=
  map (fun a => Z.of_nat (nat_of_ascii a)) (list_ascii_of_string s).

(** ** core/logger.hpp: the calls made on the global logger *)

Inductive LogLevel := DEBUG | INFO | WARNING | ERROR | FATAL.

Abbreviation LogEntry := (LogLevel * string)%type.
Abbreviation Log := (list (LogLevel * string)).

Definition LogLevel_eqb (a b : LogLevel) : bool :=
  match a, b with
  | DEBUG, DEBUG | INFO, INFO | WARNING, WARNING | ERROR, ERROR | FATAL, FATAL => true
  | _, _ => false
  end.

Definition LogEntry_eqb (a b : LogEntry) : bool :=
  LogLevel_eqb (fst a) (fst b) && String.eqb (snd a) (snd b).

(** Number of calls in [l] that log exactly [e]. *)
Definition count_log (e : LogEntry) (l : Log) : nat :=
  length (filter (fun x => LogEntry_eqb e x = true) l).

(** ** auth/rc4.cpp *)

Module RC4.

  (** [uint8_t state[256]; uint8_t x; uint8_t y;] *)
Record t := mk { state : list Z; x : Z; y : Z }.

Definition get (s : list Z) (i : Z) : Z := nth (Z.to_nat i) s 0.
Definition set (s : list Z) (i v : Z) : list Z := <[Z.to_nat i := v]> s.

  (** [for (int i = 0; i < 256; ++i) state[i] = static_cast<uint8_t>(i);] *)
Definition identity : list Z := map Z.of_nat (seq 0 256).

  (** [RC4::RC4() : x(0), y(0)] *)
Definition new : t := mk identity 0 0.

  (** One iteration of the key scheduling loop; [j] is a [uint8_t]. *)
Definition ksa_step (key : list Z) (acc : list Z * Z) (i : Z) : list Z * Z :=
    let '(s, j) := acc in
    let j := u8 (j + get s i + get key (i mod Z.of_nat (length key))) in
    let temp := get s i in
    let s := set s i (get s j) in
    let s := set s j temp in
    (s, j).

Definition init (c : t) (key : list Z) : t * Log :=
    match key with
    | [] => (c, [(ERROR, "RC4: Cannot initialize with empty key")])
    | _ :: _ =>
        let '(s, _) :=
          fold_left (ksa_step key) (map Z.of_nat (seq 0 256)) (identity, 0) in
        (mk s 0 0, [(DEBUG, "RC4: Initialized with ")])
    end.

  (** One iteration of the generation loop on data byte [d]. *)
Definition prga_step (acc : t * list Z) (d : Z) : t * list Z :=
    let '(c, out) := acc in
    let x := u8 (x c + 1) in
    let y := u8 (y c + get (state c) x) in
    let temp := get (state c) x in
    let s := set (state c) x (get (state c) y) in
    let s := set s y temp in
    let keystreamByte := get s (Z.land (get s x + get s y) 255) in
    (mk s x y, out ++ [Z.lxor d keystreamByte]).

  (** [process] works in place on [data]; the model returns the cipher and
      the buffer after the call.  A null pointer is not a value of
      [list Z]; the [length == 0] return is the empty list. *)
Definition process (c : t) (data : list Z) : t * list Z :=
    match data with
    | [] => (c, [])
    | _ :: _ => fold_left prga_step data (c, [])
    end.

Definition drop (c : t) (count : nat) : t * Log :=
    let dummy := repeat 0 count in
    (fst (process c dummy), [(DEBUG, "RC4: Dropped ")]).

End RC4.

(** ** Effects: a state monad with a raised error

    [Done a] is a normal return; [Raised] is an error raised by the packet
    cursor that leaves the current function (no function of the sources
    catches it). *)

Inductive outcome (A : Type) : Type :=
| Done (a : A)
| Raised.
Arguments Done {A} a.
Arguments Raised {A}.

Definition St (S A : Type) : Type := S -> outcome A * S.

Definition ret {S A : Type} (a : A) : St S A := fun s => (Done a, s).

Definition bind {S A B : Type} (m : St S A) (k : A -> St S B) : St S B :=
  fun s =>
    match m s with
    | (Done a, s') => k a s'
    | (Raised, s') => (Raised, s')
    end.

Definition gets {S A : Type} (f : S -> A) : St S A := fun s => (Done (f s), s).
Definition modify {S : Type} (f : S -> S) : St S unit := fun s => (Done tt, f s).

Notation "x <- m ;; k" := (bind m (fun x => k))
  (at level 100, m at next level, right associativity).
Notation "m ;;; k" := (bind m (fun _ => k))
  (at level 100, right associativity).

(** [for] loop over the elements of [l] with a loop-carried value. *)
Fixpoint foldM {S A B : Type} (f : B -> A -> St S B) (l : list A) (b : B) : St S B :=
  match l with
  | [] => ret b
  | a :: l' => b' <- f b a ;; foldM f l' b'
  end.

(** ** game/opcodes.hpp: logical opcodes

    The header is not among the sources; the logical names used by the
    sources are constructors and every other wire value is [OtherOpcode]. *)

Inductive Opcode :=
| SMSG_AUTH_CHALLENGE | SMSG_AUTH_RESPONSE | SMSG_CHAR_ENUM
| SMSG_LOGIN_VERIFY_WORLD | SMSG_ACCOUNT_DATA_TIMES | SMSG_MOTD | SMSG_PONG
| SMSG_UPDATE_OBJECT | SMSG_DESTROY_OBJECT | SMSG_MESSAGECHAT
| CMSG_AUTH_SESSION | CMSG_CHAR_ENUM | CMSG_PLAYER_LOGIN | CMSG_PING
| CMSG_MESSAGECHAT
| CMSG_MOVE_START_FORWARD | CMSG_MOVE_START_BACKWARD | CMSG_MOVE_STOP
| CMSG_MOVE_START_STRAFE_LEFT | CMSG_MOVE_START_STRAFE_RIGHT
| CMSG_MOVE_STOP_STRAFE | CMSG_MOVE_JUMP | CMSG_MOVE_START_TURN_LEFT
| CMSG_MOVE_START_TURN_RIGHT | CMSG_MOVE_STOP_TURN | CMSG_MOVE_FALL_LAND
| CMSG_MOVE_HEARTBEAT
| OtherOpcode (wire : Z).

(** ** network/packet.hpp: the binary read cursor *)

Module Packet.

Record t := mk { opcode : Opcode; data : list Z; readPos : nat }.

Definition getOpcode (p : t) : Opcode := opcode p.
Definition getSize (p : t) : nat := length (data p).
Definition getReadPos (p : t) : nat := readPos p.
Definition setReadPos (p : t) (pos : nat) : t := mk (opcode p) (data p) pos.

  (** Modelled from the spec: the read side of the cursor (packet.cpp is
      not among the sources).  Reads consume sequentially and advance the
      read offset; fixed-width integers are little-endian; reading past the
      end is a decode failure, given here as [None]. *)
Definition readUInt8 (p : t) : option (Z * t) :=
    match data p !! readPos p with
    | Some b => Some (b, setReadPos p (S (readPos p)))
    | None => None
    end.

Fixpoint readLE (n : nat) (p : t) : option (Z * t) :=
    match n with
    | O => Some (0, p)
    | S n' =>
        match readUInt8 p with
        | Some (b, p1) =>
            match readLE n' p1 with
            | Some (v, p2) => Some (Z.lor b (Z.shiftl v 8), p2)
            | None => None
            end
        | None => None
        end
    end.

  (** The bytes not yet consumed. *)
Definition remaining (p : t) : list Z := List.skipn (readPos p) (data p).

End Packet.

(** State of a parser run: the packet being read and the logger. *)
Record PState := mkPState { pkt : Packet.t; plog : Log }.

Definition Parser (A : Type) : Type := St PState A.

Definition plog_call (lvl : LogLevel) (msg : string) : Parser unit :=
  modify (fun s => mkPState (pkt s) (plog s ++ [(lvl, msg)])).

Definition lift_read {A : Type} (rd : Packet.t -> option (A * Packet.t)) : Parser A :=
  fun s =>
    match rd (pkt s) with
    | Some (a, p') => (Done a, mkPState p' (plog s))
    | None => (Raised, s)
    end.

Definition readUInt8 : Parser Z := lift_read Packet.readUInt8.
Definition readUInt16 : Parser Z := lift_read (Packet.readLE 2).
Definition readUInt32 : Parser Z := lift_read (Packet.readLE 4).
Definition readUInt64 : Parser Z := lift_read (Packet.readLE 8).
(** A [float] is kept as its 32-bit pattern. *)
Definition readFloat : Parser Z := lift_read (Packet.readLE 4).

Definition getSize : Parser nat := gets (fun s => Packet.getSize (pkt s)).
Definition getReadPos : Parser nat := gets (fun s => Packet.getReadPos (pkt s)).
Definition setReadPos (pos : nat) : Parser unit :=
  modify (fun s => mkPState (Packet.setReadPos (pkt s) pos) (plog s)).

(** Run a parser on a packet with a given logger state. *)
Definition run_parser {A : Type} (m : Parser A) (p : Packet.t) (l : Log)
  : outcome A * PState := m (mkPState p l).

(** ** game/world_packets.hpp: the decoded records *)

Module UpdateBlock.
Record t := mk {
  updateType : Z;
  guid : Z;
  objectType : Z;
  hasMovement : bool;
  x : Z; y : Z; z : Z; orientation : Z;
  fields : gmap Z Z
}.
Definition set_updateType (b : t) (v : Z) : t :=
  mk v (guid b) (objectType b) (hasMovement b) (x b) (y b) (z b) (orientation b) (fields b).
Definition set_guid (b : t) (v : Z) : t :=
  mk (updateType b) v (objectType b) (hasMovement b) (x b) (y b) (z b) (orientation b) (fields b).
Definition set_objectType (b : t) (v : Z) : t :=
  mk (updateType b) (guid b) v (hasMovement b) (x b) (y b) (z b) (orientation b) (fields b).
Definition set_movement (b : t) (vx vy vz vo : Z) : t :=
  mk (updateType b) (guid b) (objectType b) true vx vy vz vo (fields b).
Definition set_fields (b : t) (fs : gmap Z Z) : t :=
  mk (updateType b) (guid b) (objectType b) (hasMovement b) (x b) (y b) (z b) (orientation b) fs.
(** [block.fields[i] = v] *)
Definition set_field (b : t) (i v : Z) : t := set_fields b (<[i := v]> (fields b)).
End UpdateBlock.

Record UpdateObjectData := mkUpdateObjectData {
  blockCount : Z;
  outOfRangeGuids : list Z;
  blocks : list UpdateBlock.t
}.

Record AuthChallengeData := mkAuthChallengeData { unknown1 : Z; challenge_serverSeed : Z }.
Record AuthResponseData := mkAuthResponseData { result : Z }.
Record LoginVerifyWorldData := mkLoginVerifyWorldData {
  mapId : Z; lvw_x : Z; lvw_y : Z; lvw_z : Z; lvw_orientation : Z
}.
Record AccountDataTimesData := mkAccountDataTimesData {
  serverTime : Z; adt_unknown : Z; accountDataTimes : list Z
}.
Record PongData := mkPongData { sequence : Z }.
Record DestroyObjectData := mkDestroyObjectData { destroy_guid : Z; isDeath : bool }.
Record MotdData := mkMotdData { lines : list (list Z) }.

(** What the sources use from headers that are not among them: the numeric
    values of the enumerations, the validity predicates of the decoded
    records, and the two decoders whose records carry character and chat
    data.  Everything below is stated for every such environment. *)
Class WorldEnv := mkWorldEnv {
  UpdateType_VALUES : Z;
  UpdateType_MOVEMENT : Z;
  UpdateType_CREATE_OBJECT : Z;
  UpdateType_CREATE_OBJECT2 : Z;
  UpdateType_OUT_OF_RANGE_OBJECTS : Z;
  UpdateType_NEAR_OBJECTS : Z;
  ObjectType_OBJECT : Z;
  ObjectType_UNIT : Z;
  ObjectType_PLAYER : Z;
  ObjectType_GAMEOBJECT : Z;
  MovementFlags_FORWARD : Z;
  MovementFlags_BACKWARD : Z;
  MovementFlags_STRAFE_LEFT : Z;
  MovementFlags_STRAFE_RIGHT : Z;
  MovementFlags_TURN_LEFT : Z;
  MovementFlags_TURN_RIGHT : Z;
  MovementFlags_FALLING : Z;
  MovementFlags_FALLINGFAR : Z;
  MovementFlags_SWIMMING : Z;
  MovementFlags_FLYING : Z;
  ChatType_WHISPER : Z;
  ChatType_CHANNEL : Z;
  ChatLanguage_COMMON : Z;
  AuthChallengeData_isValid : AuthChallengeData -> bool;
  AuthResponseData_isSuccess : AuthResponseData -> bool;
  LoginVerifyWorldData_isValid : LoginVerifyWorldData -> bool;
  getAuthResultString : Z -> string;
  Character : Type;
  Character_guid : Character -> Z;
  MessageChatData : Type;
  CharEnumParser_parse : Parser (bool * list Character);
  MessageChatParser_parse : Parser (bool * MessageChatData)
}.

(** ** game/world_packets.cpp: fixed-layout decoders *)

Definition AuthChallengeParser_parse : Parser (bool * AuthChallengeData) :=
  size <- getSize ;;
  if (size <? 8)%nat then
    plog_call ERROR "SMSG_AUTH_CHALLENGE packet too small: " ;;;
    ret (false, mkAuthChallengeData 0 0)
  else
    u <- readUInt32 ;;
    seed <- readUInt32 ;;
    plog_call INFO "Parsed SMSG_AUTH_CHALLENGE:" ;;;
    plog_call INFO "  Unknown1: 0x" ;;;
    plog_call INFO "  Server seed: 0x" ;;;
    ret (true, mkAuthChallengeData u seed).

Definition AuthResponseParser_parse : Parser (bool * AuthResponseData) :=
  size <- getSize ;;
  if (size <? 1)%nat then
    plog_call ERROR "SMSG_AUTH_RESPONSE packet too small: " ;;;
    ret (false, mkAuthResponseData 0)
  else
    resultCode <- readUInt8 ;;
    plog_call INFO "Parsed SMSG_AUTH_RESPONSE: " ;;;
    ret (true, mkAuthResponseData resultCode).

Definition LoginVerifyWorldParser_parse : Parser (bool * LoginVerifyWorldData) :=
  size <- getSize ;;
  if (size <? 20)%nat then
    plog_call ERROR "SMSG_LOGIN_VERIFY_WORLD packet too small: " ;;;
    ret (false, mkLoginVerifyWorldData 0 0 0 0 0)
  else
    m <- readUInt32 ;;
    vx <- readFloat ;;
    vy <- readFloat ;;
    vz <- readFloat ;;
    vo <- readFloat ;;
    plog_call INFO "Parsed SMSG_LOGIN_VERIFY_WORLD:" ;;;
    plog_call INFO "  Map ID: " ;;;
    plog_call INFO "  Position: (" ;;;
    plog_call INFO "  Orientation: " ;;;
    ret (true, mkLoginVerifyWorldData m vx vy vz vo).

Definition AccountDataTimesParser_parse : Parser (bool * AccountDataTimesData) :=
  size <- getSize ;;
  if (size <? 37)%nat then
    plog_call ERROR "SMSG_ACCOUNT_DATA_TIMES packet too small: " ;;;
    ret (false, mkAccountDataTimesData 0 0 [])
  else
    t <- readUInt32 ;;
    u <- readUInt8 ;;
    plog_call DEBUG "Parsed SMSG_ACCOUNT_DATA_TIMES:" ;;;
    plog_call DEBUG "  Server time: " ;;;
    plog_call DEBUG "  Unknown: " ;;;
    times <- foldM (fun acc (_ : nat) =>
               v <- readUInt32 ;;
               (if negb (v =? 0) then plog_call DEBUG "  Data slot " else ret tt) ;;;
               ret (acc ++ [v])) (seq 0 8) [] ;;
    ret (true, mkAccountDataTimesData t u times).

Definition PongParser_parse : Parser (bool * PongData) :=
  size <- getSize ;;
  if (size <? 4)%nat then
    plog_call ERROR "SMSG_PONG packet too small: " ;;;
    ret (false, mkPongData 0)
  else
    s <- readUInt32 ;;
    plog_call DEBUG "Parsed SMSG_PONG:" ;;;
    plog_call DEBUG "  Sequence: " ;;;
    ret (true, mkPongData s).

Definition DestroyObjectParser_parse : Parser (bool * DestroyObjectData) :=
  size <- getSize ;;
  if (size <? 9)%nat then
    plog_call ERROR "SMSG_DESTROY_OBJECT packet too small: " ;;;
    ret (false, mkDestroyObjectData 0 false)
  else
    g <- readUInt64 ;;
    d <- readUInt8 ;;
    plog_call INFO "Parsed SMSG_DESTROY_OBJECT:" ;;;
    plog_call INFO "  GUID: 0x" ;;;
    plog_call INFO "  Is death: " ;;;
    ret (true, mkDestroyObjectData g (negb (d =? 0))).

(** Modelled from the spec: [Packet::readString] (packet.cpp is not among
    the sources) reads a null-terminated string; running off the end
    without a terminator is a read past the end. *)
Fixpoint readString_from (fuel : nat) (acc : list Z) : Parser (list Z) :=
  match fuel with
  | O => fun s => (Raised, s)
  | S fuel' =>
      c <- readUInt8 ;;
      if c =? 0 then ret acc else readString_from fuel' (acc ++ [c])
  end.

Definition readString : Parser (list Z) :=
  size <- getSize ;;
  readString_from (S size) [].

Definition MotdParser_parse : Parser (bool * MotdData) :=
  size <- getSize ;;
  if (size <? 4)%nat then
    plog_call ERROR "SMSG_MOTD packet too small: " ;;;
    ret (false, mkMotdData [])
  else
    lineCount <- readUInt32 ;;
    plog_call INFO "Parsed SMSG_MOTD:" ;;;
    plog_call INFO "  Line count: " ;;;
    ls <- foldM (fun acc (_ : nat) =>
            line <- readString ;;
            plog_call INFO "  [" ;;;
            ret (acc ++ [line])) (seq 0 (Z.to_nat lineCount)) [] ;;
    ret (true, mkMotdData ls).

(** ** game/world_packets.cpp: UpdateObjectParser *)

Module UpdateObjectParser.
Section WithEnv.
Context `{WorldEnv}.

(** [mask & (1 << i)] as a condition. *)
Definition bit_set (mask i : Z) : bool := negb (Z.land mask (Z.shiftl 1 i) =? 0).

Definition readPackedGuid : Parser Z :=
  mask <- readUInt8 ;;
  if mask =? 0 then ret 0
  else
    foldM (fun guid i =>
             if bit_set mask i then
               byte <- readUInt8 ;;
               ret (Z.lor guid (Z.shiftl byte (i * 8)))
             else ret guid)
          (map Z.of_nat (seq 0 8)) 0.

Definition parseMovementBlock (block : UpdateBlock.t) : Parser (bool * UpdateBlock.t) :=
  _ <- readUInt32 ;;
  _ <- readUInt16 ;;
  _ <- readUInt32 ;;
  vx <- readFloat ;;
  vy <- readFloat ;;
  vz <- readFloat ;;
  vo <- readFloat ;;
  plog_call DEBUG "  Movement: (" ;;;
  ret (true, UpdateBlock.set_movement block vx vy vz vo).

(** The inner loop of [parseUpdateFields] over the 32 bits of one mask word. *)
Definition parseMaskWord (blockIdx mask : Z) (block : UpdateBlock.t) : Parser UpdateBlock.t :=
  foldM (fun block bit =>
           if bit_set mask bit then
             let fieldIndex := u16 (blockIdx * 32 + bit) in
             value <- readUInt32 ;;
             plog_call DEBUG "    Field[" ;;;
             ret (UpdateBlock.set_field block fieldIndex value)
           else ret block)
        (map Z.of_nat (seq 0 32)) block.

Definition parseUpdateFields (block : UpdateBlock.t) : Parser (bool * UpdateBlock.t) :=
  blockCount <- readUInt8 ;;
  if blockCount =? 0 then ret (true, block)
  else
    plog_call DEBUG "  Parsing " ;;;
    updateMask <- foldM (fun acc (_ : nat) => m <- readUInt32 ;; ret (acc ++ [m]))
                        (seq 0 (Z.to_nat blockCount)) [] ;;
    block <- foldM (fun block blockIdx =>
                      parseMaskWord (Z.of_nat blockIdx) (nth blockIdx updateMask 0) block)
                   (seq 0 (Z.to_nat blockCount)) block ;;
    plog_call DEBUG "  Parsed " ;;;
    ret (true, block).

Definition parseUpdateBlock (block : UpdateBlock.t) : Parser (bool * UpdateBlock.t) :=
  updateTypeVal <- readUInt8 ;;
  let block := UpdateBlock.set_updateType block updateTypeVal in
  plog_call DEBUG "Update block: type=" ;;;
  if updateTypeVal =? UpdateType_VALUES then
    g <- readPackedGuid ;;
    let block := UpdateBlock.set_guid block g in
    plog_call DEBUG "  VALUES update for GUID: 0x" ;;;
    parseUpdateFields block
  else if updateTypeVal =? UpdateType_MOVEMENT then
    g <- readPackedGuid ;;
    let block := UpdateBlock.set_guid block g in
    plog_call DEBUG "  MOVEMENT update for GUID: 0x" ;;;
    parseMovementBlock block
  else if (updateTypeVal =? UpdateType_CREATE_OBJECT)
          || (updateTypeVal =? UpdateType_CREATE_OBJECT2) then
    g <- readPackedGuid ;;
    let block := UpdateBlock.set_guid block g in
    plog_call DEBUG "  CREATE_OBJECT for GUID: 0x" ;;;
    objectTypeVal <- readUInt8 ;;
    let block := UpdateBlock.set_objectType block objectTypeVal in
    plog_call DEBUG "  Object type: " ;;;
    r <- parseMovementBlock block ;;
    let '(hasMovement, block) := r in
    if negb hasMovement then ret (false, block)
    else parseUpdateFields block
  else if updateTypeVal =? UpdateType_OUT_OF_RANGE_OBJECTS then
    plog_call DEBUG "  OUT_OF_RANGE_OBJECTS (skipping in block parser)" ;;;
    ret (true, block)
  else if updateTypeVal =? UpdateType_NEAR_OBJECTS then
    plog_call DEBUG "  NEAR_OBJECTS (skipping in block parser)" ;;;
    ret (true, block)
  else
    plog_call WARNING "Unknown update type: " ;;;
    ret (false, block).

(** A default-constructed [UpdateBlock]: empty field map, members zeroed. *)
Definition UpdateBlock_new : UpdateBlock.t :=
  UpdateBlock.mk 0 0 ObjectType_OBJECT false 0 0 0 0 ∅.

(** The block loop of [parse]: [n] blocks still to read; [false] is the
    early [return false]. *)
Fixpoint parse_blocks (n : nat) (data : UpdateObjectData) : Parser (bool * UpdateObjectData) :=
  match n with
  | O => ret (true, data)
  | S n' =>
      plog_call DEBUG "Parsing block " ;;;
      r <- parseUpdateBlock UpdateBlock_new ;;
      let '(ok, block) := r in
      if negb ok then
        plog_call ERROR "Failed to parse update block " ;;;
        ret (false, data)
      else
        parse_blocks n' (mkUpdateObjectData (blockCount data) (outOfRangeGuids data)
                                            (blocks data ++ [block]))
  end.

Definition parse (data : UpdateObjectData) : Parser (bool * UpdateObjectData) :=
  plog_call INFO "Parsing SMSG_UPDATE_OBJECT" ;;;
  count <- readUInt32 ;;
  let data := mkUpdateObjectData count (outOfRangeGuids data) (blocks data) in
  plog_call INFO "  Block count: " ;;;
  pos <- getReadPos ;;
  size <- getSize ;;
  data <- (if (pos + 1 <=? size)%nat then
             firstByte <- readUInt8 ;;
             if firstByte =? UpdateType_OUT_OF_RANGE_OBJECTS then
               n <- readUInt32 ;;
               plog_call INFO "  Out-of-range objects: " ;;;
               foldM (fun data (_ : nat) =>
                        g <- readPackedGuid ;;
                        plog_call DEBUG "    Out of range: 0x" ;;;
                        ret (mkUpdateObjectData (blockCount data)
                               (outOfRangeGuids data ++ [g]) (blocks data)))
                     (seq 0 (Z.to_nat n)) data
             else
               pos' <- getReadPos ;;
               setReadPos (pos' - 1)%nat ;;;
               ret data
           else ret data) ;;
  r <- parse_blocks (Z.to_nat (blockCount data)) data ;;
  let '(ok, data) := r in
  if ok then
    plog_call INFO "Successfully parsed " ;;;
    ret (true, data)
  else ret (false, data).

End WithEnv.
End UpdateObjectParser.

(** ** auth/crypto.hpp: [Crypto::sha1]

    The wrapper calls the SHA-1 of OpenSSL; the digest is given here as
    FIPS 180-4 defines it. *)

Module SHA1.
Definition rotl (n v : Z) : Z := u32 (Z.lor (Z.shiftl v n) (Z.shiftr v (32 - n))).

(** Big-endian value of a byte string and big-endian bytes of a value. *)
Definition be_value (bs : list Z) : Z := fold_left (fun acc b => Z.lor (Z.shiftl acc 8) b) bs 0.
Definition be_bytes (n : nat) (v : Z) : list Z :=
  map (fun i => Z.land (Z.shiftr v (8 * Z.of_nat (n - 1 - i))) 255) (seq 0 n).

Definition pad (msg : list Z) : list Z :=
  let l := Z.of_nat (length msg) in
  msg ++ [128] ++ repeat 0 (Z.to_nat ((55 - l) mod 64)) ++ be_bytes 8 (8 * l).

Fixpoint chunks (fuel : nat) (l : list Z) : list (list Z) :=
  match fuel with
  | O => []
  | S fuel' =>
      match l with
      | [] => []
      | _ :: _ => take 64 l :: chunks fuel' (drop 64 l)
      end
  end.

Definition words (block : list Z) : list Z :=
  map (fun i => be_value (take 4 (drop (4 * i) block))) (seq 0 16).

Definition schedule (block : list Z) : list Z :=
  fold_left (fun w t =>
               w ++ [rotl 1 (Z.lxor (Z.lxor (nth (t - 3) w 0) (nth (t - 8) w 0))
                                    (Z.lxor (nth (t - 14) w 0) (nth (t - 16) w 0)))])
            (seq 16 64) (words block).

Definition State : Type := Z * Z * Z * Z * Z.

Definition f (t : nat) (b c d : Z) : Z :=
  if (t <? 20)%nat then Z.lor (Z.land b c) (Z.land (u32 (Z.lnot b)) d)
  else if (t <? 40)%nat then Z.lxor (Z.lxor b c) d
  else if (t <? 60)%nat then Z.lor (Z.lor (Z.land b c) (Z.land b d)) (Z.land c d)
  else Z.lxor (Z.lxor b c) d.

Definition k (t : nat) : Z :=
  if (t <? 20)%nat then 0x5A827999
  else if (t <? 40)%nat then 0x6ED9EBA1
  else if (t <? 60)%nat then 0x8F1BBCDC
  else 0xCA62C1D6.

Definition round (w : list Z) (s : State) (t : nat) : State :=
  let '(a, b, c, d, e) := s in
  let temp := u32 (rotl 5 a + f t b c d + e + k t + nth t w 0) in
  (temp, a, rotl 30 b, c, d).

Definition compress (h : State) (block : list Z) : State :=
  let w := schedule block in
  let '(a, b, c, d, e) := fold_left (round w) (seq 0 80) h in
  let '(h0, h1, h2, h3, h4) := h in
  (u32 (h0 + a), u32 (h1 + b), u32 (h2 + c), u32 (h3 + d), u32 (h4 + e)).

Definition init : State := (0x67452301, 0xEFCDAB89, 0x98BADCFE, 0x10325476, 0xC3D2E1F0).

Definition sha1 (msg : list Z) : list Z :=
  let p := pad msg in
  let '(h0, h1, h2, h3, h4) := fold_left compress (chunks (length p) p) init in
  be_bytes 4 h0 ++ be_bytes 4 h1 ++ be_bytes 4 h2 ++ be_bytes 4 h3 ++ be_bytes 4 h4.
End SHA1.

(** ** network/packet.hpp: the write side *)

(** Modelled from the spec: the write side of the cursor (packet.cpp is not
    among the sources) appends fixed-width integers in little-endian order,
    null-terminated strings and raw byte spans. *)
Definition Packet_new (op : Opcode) : Packet.t := Packet.mk op [] 0.
Definition Packet_writeBytes (p : Packet.t) (bs : list Z) : Packet.t :=
  Packet.mk (Packet.opcode p) (Packet.data p ++ bs) (Packet.readPos p).
Definition Packet_writeUInt16 (p : Packet.t) (v : Z) : Packet.t :=
  Packet_writeBytes p (le_bytes 2 v).
Definition Packet_writeUInt32 (p : Packet.t) (v : Z) : Packet.t :=
  Packet_writeBytes p (le_bytes 4 v).
Definition Packet_writeUInt64 (p : Packet.t) (v : Z) : Packet.t :=
  Packet_writeBytes p (le_bytes 8 v).
Definition Packet_writeString (p : Packet.t) (s : list Z) : Packet.t :=
  Packet_writeBytes p (s ++ [0]).

(** ** game/world_packets.cpp: packet builders

    A builder returns the packet and the log calls it makes. *)

Record MovementInfo := mkMovementInfo {
  flags : Z; flags2 : Z; time : Z;
  mi_x : Z; mi_y : Z; mi_z : Z; mi_orientation : Z;
  pitch : Z; fallTime : Z; jumpVelocity : Z;
  jumpSinAngle : Z; jumpCosAngle : Z; jumpXYSpeed : Z
}.

Definition MovementInfo_hasFlag (info : MovementInfo) (flag : Z) : bool :=
  negb (Z.land (flags info) flag =? 0).

(** [::toupper] in the C locale. *)
Definition toupper (c : Z) : Z := if (97 <=? c) && (c <=? 122) then c - 32 else c.

Definition computeAuthHash (accountName : list Z) (clientSeed serverSeed : Z)
    (sessionKey : list Z) : list Z * Log :=
  let hashInput :=
    accountName ++ [0; 0; 0; 0]
    ++ [Z.land clientSeed 255; Z.land (Z.shiftr clientSeed 8) 255;
        Z.land (Z.shiftr clientSeed 16) 255; Z.land (Z.shiftr clientSeed 24) 255]
    ++ [Z.land serverSeed 255; Z.land (Z.shiftr serverSeed 8) 255;
        Z.land (Z.shiftr serverSeed 16) 255; Z.land (Z.shiftr serverSeed 24) 255]
    ++ sessionKey in
  (SHA1.sha1 hashInput, [(DEBUG, "Auth hash input: ")]).

Definition AuthSessionPacket_build (build : Z) (accountName : list Z) (clientSeed : Z)
    (sessionKey : list Z) (serverSeed : Z) : Packet.t * Log :=
  let l0 := if negb (length sessionKey =? 40)%nat
            then [(ERROR, "Invalid session key size: ")] else [] in
  let upperAccount := map toupper accountName in
  let '(authHash, lh) := computeAuthHash upperAccount clientSeed serverSeed sessionKey in
  let packet := Packet_new CMSG_AUTH_SESSION in
  let packet := Packet_writeUInt32 packet build in
  let packet := Packet_writeUInt32 packet 0 in
  let packet := Packet_writeString packet upperAccount in
  let packet := Packet_writeUInt32 packet 0 in
  let packet := Packet_writeUInt32 packet clientSeed in
  let packet := fold_left (fun p (_ : nat) => Packet_writeUInt32 p 0) (seq 0 5) packet in
  let packet := Packet_writeBytes packet authHash in
  let packet := Packet_writeUInt32 packet 0 in
  (packet,
   l0 ++ [(INFO, "Building CMSG_AUTH_SESSION for account: ")] ++ lh
      ++ [(DEBUG, "  Build: "); (DEBUG, "  Client seed: 0x"); (DEBUG, "  Server seed: 0x");
          (DEBUG, "  Auth hash: "); (INFO, "CMSG_AUTH_SESSION packet built: ")]).

Definition CharEnumPacket_build : Packet.t * Log :=
  (Packet_new CMSG_CHAR_ENUM, [(DEBUG, "Built CMSG_CHAR_ENUM packet (no body)")]).

Definition PlayerLoginPacket_build (characterGuid : Z) : Packet.t * Log :=
  (Packet_writeUInt64 (Packet_new CMSG_PLAYER_LOGIN) characterGuid,
   [(INFO, "Built CMSG_PLAYER_LOGIN packet"); (INFO, "  Character GUID: 0x")]).

Definition PingPacket_build (sequence latency : Z) : Packet.t * Log :=
  (Packet_writeUInt32 (Packet_writeUInt32 (Packet_new CMSG_PING) sequence) latency,
   [(DEBUG, "Built CMSG_PING packet"); (DEBUG, "  Sequence: "); (DEBUG, "  Latency: ")]).

Section Builders.
Context `{WorldEnv}.

Definition MovementPacket_build (opcode : Opcode) (info : MovementInfo) : Packet.t * Log :=
  let packet := Packet_new opcode in
  let packet := Packet_writeUInt32 packet (flags info) in
  let packet := Packet_writeUInt16 packet (flags2 info) in
  let packet := Packet_writeUInt32 packet (time info) in
  let packet := Packet_writeBytes packet (le_bytes 4 (mi_x info)) in
  let packet := Packet_writeBytes packet (le_bytes 4 (mi_y info)) in
  let packet := Packet_writeBytes packet (le_bytes 4 (mi_z info)) in
  let packet := Packet_writeBytes packet (le_bytes 4 (mi_orientation info)) in
  let packet :=
    if MovementInfo_hasFlag info MovementFlags_SWIMMING
       || MovementInfo_hasFlag info MovementFlags_FLYING
    then Packet_writeBytes packet (le_bytes 4 (pitch info)) else packet in
  let packet :=
    if MovementInfo_hasFlag info MovementFlags_FALLING then
      let packet := Packet_writeUInt32 packet (fallTime info) in
      let packet := Packet_writeBytes packet (le_bytes 4 (jumpVelocity info)) in
      if MovementInfo_hasFlag info MovementFlags_FALLINGFAR then
        let packet := Packet_writeBytes packet (le_bytes 4 (jumpSinAngle info)) in
        let packet := Packet_writeBytes packet (le_bytes 4 (jumpCosAngle info)) in
        Packet_writeBytes packet (le_bytes 4 (jumpXYSpeed info))
      else packet
    else packet in
  (packet,
   [(DEBUG, "Built movement packet: opcode=0x"); (DEBUG, "  Flags: 0x");
    (DEBUG, "  Position: ("); (DEBUG, "  Orientation: ")]).

Definition MessageChatPacket_build (type language : Z) (message target : list Z)
  : Packet.t * Log :=
  let packet := Packet_new CMSG_MESSAGECHAT in
  let packet := Packet_writeUInt32 packet type in
  let packet := Packet_writeUInt32 packet language in
  let packet :=
    if type =? ChatType_WHISPER then Packet_writeString packet target
    else if type =? ChatType_CHANNEL then Packet_writeString packet target
    else packet in
  let packet := Packet_writeString packet message in
  (packet,
   [(DEBUG, "Built CMSG_MESSAGECHAT packet"); (DEBUG, "  Type: ");
    (DEBUG, "  Language: "); (DEBUG, "  Message: ")]).

End Builders.

(** ** game/entity.hpp: entities and the entity table *)

(** Modelled from the spec: the entity record (entity.hpp is not among the
    sources) holds a 64-bit identifier, an object type, an optional
    position with orientation and a mapping from field index to 32-bit
    value; the entity table maps identifiers to records. *)
Module Entity.
Record t := mk {
  guid : Z;
  type : Z;
  position : option (Z * Z * Z * Z);
  fields : gmap Z Z
}.
Definition setType (e : t) (ty : Z) : t := mk (guid e) ty (position e) (fields e).
Definition setPosition (e : t) (x y z o : Z) : t :=
  mk (guid e) (type e) (Some (x, y, z, o)) (fields e).
Definition setField (e : t) (index value : Z) : t :=
  mk (guid e) (type e) (position e) (<[index := value]> (fields e)).
End Entity.

Module EntityManager.
Definition hasEntity (m : gmap Z Entity.t) (guid : Z) : bool := bool_decide (is_Some (m !! guid)).
Definition getEntity (m : gmap Z Entity.t) (guid : Z) : option Entity.t := m !! guid.
Definition addEntity (m : gmap Z Entity.t) (guid : Z) (e : Entity.t) : gmap Z Entity.t :=
  <[guid := e]> m.
Definition removeEntity (m : gmap Z Entity.t) (guid : Z) : gmap Z Entity.t := delete guid m.
Definition getEntityCount (m : gmap Z Entity.t) : nat := size m.
End EntityManager.

(** ** game/game_handler.hpp *)

Inductive WorldState :=
| DISCONNECTED | CONNECTING | CONNECTED | CHALLENGE_RECEIVED | AUTH_SENT
| AUTHENTICATED | READY | CHAR_LIST_REQUESTED | CHAR_LIST_RECEIVED
| ENTERING_WORLD | IN_WORLD | FAILED.

#[global] Instance WorldState_eq_dec : EqDecision WorldState.
Proof. solve_decision. Defined.

(** What the handler does to its collaborators, in order: the calls on the
    world socket and the two callbacks.  [EvDeliver] is the socket handing
    an inbound message to the packet callback. *)
Inductive Event :=
| EvConnect (host : string) (port : Z) (ok : bool)
| EvDisconnect
| EvSend (packet : Packet.t)
| EvInitEncryption (key : list Z)
| EvDeliver (packet : Packet.t)
| EvOnSuccess
| EvOnFailure (reason : string).

Module GameHandler.
Section WithEnv.
Context `{WorldEnv}.

(** The members of [GameHandler].  [socket] tells whether the
    [unique_ptr] holds a socket; [log] is the global logger and [trace]
    the history of events.  The heartbeat timer is a [float] and is not a
    member here: whether a ping is due is an input of [update]. *)
Record t := mk {
  socket : bool;
  state : WorldState;
  sessionKey : list Z;
  accountName : list Z;
  build : Z;
  clientSeed : Z;
  serverSeed : Z;
  characters : list Character;
  movementInfo : MovementInfo;
  movementTime : Z;
  entityManager : gmap Z Entity.t;
  chatHistory : list MessageChatData;
  targetGuid : Z;
  tabCycleList : list Z;
  tabCycleIndex : Z;
  tabCycleStale : bool;
  pingSequence : Z;
  lastLatency : Z;
  log : Log;
  trace : list Event
}.

Definition set_socket (v : bool) (g : t) : t :=
  mk v (state g) (sessionKey g) (accountName g) (build g) (clientSeed g) (serverSeed g)
     (characters g) (movementInfo g) (movementTime g) (entityManager g) (chatHistory g)
     (targetGuid g) (tabCycleList g) (tabCycleIndex g) (tabCycleStale g) (pingSequence g)
     (lastLatency g) (log g) (trace g).
Definition set_state (v : WorldState) (g : t) : t :=
  mk (socket g) v (sessionKey g) (accountName g) (build g) (clientSeed g) (serverSeed g)
     (characters g) (movementInfo g) (movementTime g) (entityManager g) (chatHistory g)
     (targetGuid g) (tabCycleList g) (tabCycleIndex g) (tabCycleStale g) (pingSequence g)
     (lastLatency g) (log g) (trace g).
Definition set_sessionKey (v : list Z) (g : t) : t :=
  mk (socket g) (state g) v (accountName g) (build g) (clientSeed g) (serverSeed g)
     (characters g) (movementInfo g) (movementTime g) (entityManager g) (chatHistory g)
     (targetGuid g) (tabCycleList g) (tabCycleIndex g) (tabCycleStale g) (pingSequence g)
     (lastLatency g) (log g) (trace g).
Definition set_accountName (v : list Z) (g : t) : t :=
  mk (socket g) (state g) (sessionKey g) v (build g) (clientSeed g) (serverSeed g)
     (characters g) (movementInfo g) (movementTime g) (entityManager g) (chatHistory g)
     (targetGuid g) (tabCycleList g) (tabCycleIndex g) (tabCycleStale g) (pingSequence g)
     (lastLatency g) (log g) (trace g).
Definition set_build (v : Z) (g : t) : t :=
  mk (socket g) (state g) (sessionKey g) (accountName g) v (clientSeed g) (serverSeed g)
     (characters g) (movementInfo g) (movementTime g) (entityManager g) (chatHistory g)
     (targetGuid g) (tabCycleList g) (tabCycleIndex g) (tabCycleStale g) (pingSequence g)
     (lastLatency g) (log g) (trace g).
Definition set_clientSeed (v : Z) (g : t) : t :=
  mk (socket g) (state g) (sessionKey g) (accountName g) (build g) v (serverSeed g)
     (characters g) (movementInfo g) (movementTime g) (entityManager g) (chatHistory g)
     (targetGuid g) (tabCycleList g) (tabCycleIndex g) (tabCycleStale g) (pingSequence g)
     (lastLatency g) (log g) (trace g).
Definition set_serverSeed (v : Z) (g : t) : t :=
  mk (socket g) (state g) (sessionKey g) (accountName g) (build g) (clientSeed g) v
     (characters g) (movementInfo g) (movementTime g) (entityManager g) (chatHistory g)
     (targetGuid g) (tabCycleList g) (tabCycleIndex g) (tabCycleStale g) (pingSequence g)
     (lastLatency g) (log g) (trace g).
Definition set_characters (v : list Character) (g : t) : t :=
  mk (socket g) (state g) (sessionKey g) (accountName g) (build g) (clientSeed g)
     (serverSeed g) v (movementInfo g) (movementTime g) (entityManager g) (chatHistory g)
     (targetGuid g) (tabCycleList g) (tabCycleIndex g) (tabCycleStale g) (pingSequence g)
     (lastLatency g) (log g) (trace g).
Definition set_movementInfo (v : MovementInfo) (g : t) : t :=
  mk (socket g) (state g) (sessionKey g) (accountName g) (build g) (clientSeed g)
     (serverSeed g) (characters g) v (movementTime g) (entityManager g) (chatHistory g)
     (targetGuid g) (tabCycleList g) (tabCycleIndex g) (tabCycleStale g) (pingSequence g)
     (lastLatency g) (log g) (trace g).
Definition set_movementTime (v : Z) (g : t) : t :=
  mk (socket g) (state g) (sessionKey g) (accountName g) (build g) (clientSeed g)
     (serverSeed g) (characters g) (movementInfo g) v (entityManager g) (chatHistory g)
     (targetGuid g) (tabCycleList g) (tabCycleIndex g) (tabCycleStale g) (pingSequence g)
     (lastLatency g) (log g) (trace g).
Definition set_entityManager (v : gmap Z Entity.t) (g : t) : t :=
  mk (socket g) (state g) (sessionKey g) (accountName g) (build g) (clientSeed g)
     (serverSeed g) (characters g) (movementInfo g) (movementTime g) v (chatHistory g)
     (targetGuid g) (tabCycleList g) (tabCycleIndex g) (tabCycleStale g) (pingSequence g)
     (lastLatency g) (log g) (trace g).
Definition set_chatHistory (v : list MessageChatData) (g : t) : t :=
  mk (socket g) (state g) (sessionKey g) (accountName g) (build g) (clientSeed g)
     (serverSeed g) (characters g) (movementInfo g) (movementTime g) (entityManager g) v
     (targetGuid g) (tabCycleList g) (tabCycleIndex g) (tabCycleStale g) (pingSequence g)
     (lastLatency g) (log g) (trace g).
Definition set_targetGuid (v : Z) (g : t) : t :=
  mk (socket g) (state g) (sessionKey g) (accountName g) (build g) (clientSeed g)
     (serverSeed g) (characters g) (movementInfo g) (movementTime g) (entityManager g)
     (chatHistory g) v (tabCycleList g) (tabCycleIndex g) (tabCycleStale g) (pingSequence
     g) (lastLatency g) (log g) (trace g).
Definition set_tabCycleList (v : list Z) (g : t) : t :=
  mk (socket g) (state g) (sessionKey g) (accountName g) (build g) (clientSeed g)
     (serverSeed g) (characters g) (movementInfo g) (movementTime g) (entityManager g)
     (chatHistory g) (targetGuid g) v (tabCycleIndex g) (tabCycleStale g) (pingSequence g)
     (lastLatency g) (log g) (trace g).
Definition set_tabCycleIndex (v : Z) (g : t) : t :=
  mk (socket g) (state g) (sessionKey g) (accountName g) (build g) (clientSeed g)
     (serverSeed g) (characters g) (movementInfo g) (movementTime g) (entityManager g)
     (chatHistory g) (targetGuid g) (tabCycleList g) v (tabCycleStale g) (pingSequence g)
     (lastLatency g) (log g) (trace g).
Definition set_tabCycleStale (v : bool) (g : t) : t :=
  mk (socket g) (state g) (sessionKey g) (accountName g) (build g) (clientSeed g)
     (serverSeed g) (characters g) (movementInfo g) (movementTime g) (entityManager g)
     (chatHistory g) (targetGuid g) (tabCycleList g) (tabCycleIndex g) v (pingSequence g)
     (lastLatency g) (log g) (trace g).
Definition set_pingSequence (v : Z) (g : t) : t :=
  mk (socket g) (state g) (sessionKey g) (accountName g) (build g) (clientSeed g)
     (serverSeed g) (characters g) (movementInfo g) (movementTime g) (entityManager g)
     (chatHistory g) (targetGuid g) (tabCycleList g) (tabCycleIndex g) (tabCycleStale g) v
     (lastLatency g) (log g) (trace g).
Definition set_lastLatency (v : Z) (g : t) : t :=
  mk (socket g) (state g) (sessionKey g) (accountName g) (build g) (clientSeed g)
     (serverSeed g) (characters g) (movementInfo g) (movementTime g) (entityManager g)
     (chatHistory g) (targetGuid g) (tabCycleList g) (tabCycleIndex g) (tabCycleStale g)
     (pingSequence g) v (log g) (trace g).
Definition set_log (v : Log) (g : t) : t :=
  mk (socket g) (state g) (sessionKey g) (accountName g) (build g) (clientSeed g)
     (serverSeed g) (characters g) (movementInfo g) (movementTime g) (entityManager g)
     (chatHistory g) (targetGuid g) (tabCycleList g) (tabCycleIndex g) (tabCycleStale g)
     (pingSequence g) (lastLatency g) v (trace g).
Definition set_trace (v : list Event) (g : t) : t :=
  mk (socket g) (state g) (sessionKey g) (accountName g) (build g) (clientSeed g)
     (serverSeed g) (characters g) (movementInfo g) (movementTime g) (entityManager g)
     (chatHistory g) (targetGuid g) (tabCycleList g) (tabCycleIndex g) (tabCycleStale g)
     (pingSequence g) (lastLatency g) (log g) v.


(** [GameHandler::GameHandler()] with the member initialisers of the header. *)
Definition new : t :=
  mk false DISCONNECTED [] [] 12340 0 0 []
     (mkMovementInfo 0 0 0 0 0 0 0 0 0 0 0 0 0) 0 ∅ [] 0 [] (-1) true 0 0
     [(DEBUG, "GameHandler created")] [].

Definition maxChatHistory : nat := 100.

Definition Handler (A : Type) : Type := St t A.

Definition LOG (lvl : LogLevel) (msg : string) : Handler unit :=
  modify (fun g => set_log (log g ++ [(lvl, msg)]) g).
Definition LOGS (l : Log) : Handler unit :=
  modify (fun g => set_log (log g ++ l) g).
Definition emit (e : Event) : Handler unit :=
  modify (fun g => set_trace (trace g ++ [e]) g).
Definition when (b : bool) (m : Handler unit) : Handler unit :=
  if b then m else ret tt.

(** A static [parse] call on the packet handed to the handler; its log
    calls go to the same logger. *)
Definition call_parser {A : Type} (m : Parser A) (packet : Packet.t) : Handler A :=
  fun g =>
    let '(r, ps) := run_parser m packet (log g) in
    (r, set_log (plog ps) g).

Definition setState (newState : WorldState) : Handler unit :=
  st <- gets state ;;
  if bool_decide (st <> newState) then
    LOG DEBUG "World state: " ;;;
    modify (set_state newState)
  else ret tt.

Definition fail (reason : string) : Handler unit :=
  LOG ERROR "World connection failed: " ;;;
  setState FAILED ;;;
  emit (EvOnFailure reason).

Definition sendAuthSession : Handler unit :=
  LOG INFO "Sending CMSG_AUTH_SESSION" ;;;
  g <- gets (fun g => g) ;;
  let '(packet, lb) :=
    AuthSessionPacket_build (build g) (accountName g) (clientSeed g)
                            (sessionKey g) (serverSeed g) in
  LOGS lb ;;;
  LOG DEBUG "CMSG_AUTH_SESSION packet size: " ;;;
  emit (EvSend packet) ;;;
  LOG INFO "Initializing RC4 header encryption..." ;;;
  emit (EvInitEncryption (sessionKey g)) ;;;
  setState AUTH_SENT ;;;
  LOG INFO "CMSG_AUTH_SESSION sent, encryption initialized, waiting for response...".

Definition handleAuthChallenge (packet : Packet.t) : Handler unit :=
  LOG INFO "Handling SMSG_AUTH_CHALLENGE" ;;;
  r <- call_parser AuthChallengeParser_parse packet ;;
  let '(ok, challenge) := r in
  if negb ok then fail "Failed to parse SMSG_AUTH_CHALLENGE"
  else if negb (AuthChallengeData_isValid challenge) then fail "Invalid auth challenge data"
  else
    modify (set_serverSeed (challenge_serverSeed challenge)) ;;;
    LOG DEBUG "Server seed: 0x" ;;;
    setState CHALLENGE_RECEIVED ;;;
    sendAuthSession.

Definition handleAuthResponse (packet : Packet.t) : Handler unit :=
  LOG INFO "Handling SMSG_AUTH_RESPONSE" ;;;
  r <- call_parser AuthResponseParser_parse packet ;;
  let '(ok, response) := r in
  if negb ok then fail "Failed to parse SMSG_AUTH_RESPONSE"
  else if negb (AuthResponseData_isSuccess response) then
    fail ("Authentication failed: " ++ getAuthResultString (result response))
  else
    setState AUTHENTICATED ;;;
    LOGS [(INFO, "========================================");
          (INFO, "   WORLD AUTHENTICATION SUCCESSFUL!");
          (INFO, "========================================");
          (INFO, "Connected to world server");
          (INFO, "Ready for character operations")] ;;;
    setState READY ;;;
    emit EvOnSuccess.

Definition requestCharacterList : Handler unit :=
  st <- gets state ;;
  if bool_decide (st <> READY) && bool_decide (st <> AUTHENTICATED) then
    LOG WARNING "Cannot request character list in state: "
  else
    LOG INFO "Requesting character list from server..." ;;;
    let '(packet, lb) := CharEnumPacket_build in
    LOGS lb ;;;
    emit (EvSend packet) ;;;
    setState CHAR_LIST_REQUESTED ;;;
    LOG INFO "CMSG_CHAR_ENUM sent, waiting for character list...".

Definition handleCharEnum (packet : Packet.t) : Handler unit :=
  LOG INFO "Handling SMSG_CHAR_ENUM" ;;;
  r <- call_parser CharEnumParser_parse packet ;;
  let '(ok, chars) := r in
  if negb ok then fail "Failed to parse SMSG_CHAR_ENUM"
  else
    modify (set_characters chars) ;;;
    setState CHAR_LIST_RECEIVED ;;;
    LOGS [(INFO, "========================================");
          (INFO, "   CHARACTER LIST RECEIVED");
          (INFO, "========================================");
          (INFO, "Found ")] ;;;
    (match chars with
     | [] => LOG INFO "No characters on this account"
     | _ :: _ =>
         LOG INFO "Characters:" ;;;
         foldM (fun (_ : unit) (_ : Character) =>
                  LOGS [(INFO, "  ["); (INFO, "      GUID: 0x");
                        (INFO, "      "); (INFO, "      Level ")])
               chars tt
     end) ;;;
    LOG INFO "Ready to select character".

Definition selectCharacter (characterGuid : Z) : Handler unit :=
  st <- gets state ;;
  chars <- gets characters ;;
  let known := existsb (fun c => Character_guid c =? characterGuid) chars in
  if bool_decide (st <> CHAR_LIST_RECEIVED) then
    LOG WARNING "Cannot select character in state: "
  else
    LOGS [(INFO, "========================================");
          (INFO, "   ENTERING WORLD");
          (INFO, "========================================");
          (INFO, "Character GUID: 0x")] ;;;
    when known (LOGS [(INFO, "Character: "); (INFO, "Level ")]) ;;;
    let '(packet, lb) := PlayerLoginPacket_build characterGuid in
    LOGS lb ;;;
    emit (EvSend packet) ;;;
    setState ENTERING_WORLD ;;;
    LOG INFO "CMSG_PLAYER_LOGIN sent, entering world...".

Definition handleLoginVerifyWorld (packet : Packet.t) : Handler unit :=
  LOG INFO "Handling SMSG_LOGIN_VERIFY_WORLD" ;;;
  r <- call_parser LoginVerifyWorldParser_parse packet ;;
  let '(ok, data) := r in
  if negb ok then fail "Failed to parse SMSG_LOGIN_VERIFY_WORLD"
  else if negb (LoginVerifyWorldData_isValid data) then fail "Invalid world entry data"
  else
    setState IN_WORLD ;;;
    LOGS [(INFO, "========================================");
          (INFO, "   SUCCESSFULLY ENTERED WORLD!");
          (INFO, "========================================");
          (INFO, "Map ID: "); (INFO, "Position: ("); (INFO, "Orientation: ");
          (INFO, "Player is now in the game world")] ;;;
    modify (fun g =>
      let m := movementInfo g in
      set_movementInfo
        (mkMovementInfo 0 0 0 (lvw_x data) (lvw_y data) (lvw_z data) (lvw_orientation data)
           (pitch m) (fallTime m) (jumpVelocity m)
           (jumpSinAngle m) (jumpCosAngle m) (jumpXYSpeed m)) g).

Definition handleAccountDataTimes (packet : Packet.t) : Handler unit :=
  LOG DEBUG "Handling SMSG_ACCOUNT_DATA_TIMES" ;;;
  r <- call_parser AccountDataTimesParser_parse packet ;;
  let '(ok, data) := r in
  if negb ok then LOG WARNING "Failed to parse SMSG_ACCOUNT_DATA_TIMES"
  else LOG DEBUG "Account data times received (server time: ".

Definition handleMotd (packet : Packet.t) : Handler unit :=
  LOG INFO "Handling SMSG_MOTD" ;;;
  r <- call_parser MotdParser_parse packet ;;
  let '(ok, data) := r in
  if negb ok then LOG WARNING "Failed to parse SMSG_MOTD"
  else
    match lines data with
    | [] => ret tt
    | _ :: _ =>
        LOGS [(INFO, "========================================");
              (INFO, "   MESSAGE OF THE DAY");
              (INFO, "========================================")] ;;;
        foldM (fun (_ : unit) (_ : list Z) => LOG INFO EmptyString) (lines data) tt ;;;
        LOG INFO "========================================"
    end.

Definition sendPing : Handler unit :=
  st <- gets state ;;
  if bool_decide (st <> IN_WORLD) then ret tt
  else
    modify (fun g => set_pingSequence (u32 (pingSequence g + 1)) g) ;;;
    LOG DEBUG "Sending CMSG_PING (heartbeat)" ;;;
    LOG DEBUG "  Sequence: " ;;;
    g <- gets (fun g => g) ;;
    let '(packet, lb) := PingPacket_build (pingSequence g) (lastLatency g) in
    LOGS lb ;;;
    emit (EvSend packet).

Definition handlePong (packet : Packet.t) : Handler unit :=
  LOG DEBUG "Handling SMSG_PONG" ;;;
  r <- call_parser PongParser_parse packet ;;
  let '(ok, data) := r in
  if negb ok then LOG WARNING "Failed to parse SMSG_PONG"
  else
    seqno <- gets pingSequence ;;
    if negb (sequence data =? seqno) then LOG WARNING "SMSG_PONG sequence mismatch: expected "
    else LOG DEBUG "Heartbeat acknowledged (sequence: ".


Definition set_flags (v : Z) (m : MovementInfo) : MovementInfo :=
  mkMovementInfo v (flags2 m) (time m) (mi_x m) (mi_y m) (mi_z m) (mi_orientation m)
    (pitch m) (fallTime m) (jumpVelocity m) (jumpSinAngle m) (jumpCosAngle m) (jumpXYSpeed m).
Definition set_time (v : Z) (m : MovementInfo) : MovementInfo :=
  mkMovementInfo (flags m) (flags2 m) v (mi_x m) (mi_y m) (mi_z m) (mi_orientation m)
    (pitch m) (fallTime m) (jumpVelocity m) (jumpSinAngle m) (jumpCosAngle m) (jumpXYSpeed m).

(** The flag update of [sendMovement]: [|=] is [Z.lor], [&= ~(..)] clears. *)
Definition movement_flags (opcode : Opcode) (f : Z) : Z :=
  let clear (m : Z) := Z.land f (u32 (Z.lnot m)) in
  match opcode with
  | CMSG_MOVE_START_FORWARD => Z.lor f MovementFlags_FORWARD
  | CMSG_MOVE_START_BACKWARD => Z.lor f MovementFlags_BACKWARD
  | CMSG_MOVE_STOP => clear (Z.lor MovementFlags_FORWARD MovementFlags_BACKWARD)
  | CMSG_MOVE_START_STRAFE_LEFT => Z.lor f MovementFlags_STRAFE_LEFT
  | CMSG_MOVE_START_STRAFE_RIGHT => Z.lor f MovementFlags_STRAFE_RIGHT
  | CMSG_MOVE_STOP_STRAFE => clear (Z.lor MovementFlags_STRAFE_LEFT MovementFlags_STRAFE_RIGHT)
  | CMSG_MOVE_JUMP => Z.lor f MovementFlags_FALLING
  | CMSG_MOVE_START_TURN_LEFT => Z.lor f MovementFlags_TURN_LEFT
  | CMSG_MOVE_START_TURN_RIGHT => Z.lor f MovementFlags_TURN_RIGHT
  | CMSG_MOVE_STOP_TURN => clear (Z.lor MovementFlags_TURN_LEFT MovementFlags_TURN_RIGHT)
  | CMSG_MOVE_FALL_LAND => clear MovementFlags_FALLING
  | CMSG_MOVE_HEARTBEAT => f
  | _ => f
  end.

Definition sendMovement (opcode : Opcode) : Handler unit :=
  st <- gets state ;;
  if bool_decide (st <> IN_WORLD) then LOG WARNING "Cannot send movement in state: "
  else
    modify (fun g =>
      let t := u32 (movementTime g + 1) in
      set_movementInfo (set_time t (movementInfo g)) (set_movementTime t g)) ;;;
    modify (fun g =>
      set_movementInfo
        (set_flags (movement_flags opcode (flags (movementInfo g))) (movementInfo g)) g) ;;;
    LOG DEBUG "Sending movement packet: opcode=0x" ;;;
    info <- gets movementInfo ;;
    let '(packet, lb) := MovementPacket_build opcode info in
    LOGS lb ;;;
    emit (EvSend packet).

Definition setPosition (x y z : Z) : Handler unit :=
  modify (fun g =>
    let m := movementInfo g in
    set_movementInfo
      (mkMovementInfo (flags m) (flags2 m) (time m) x y z (mi_orientation m)
         (pitch m) (fallTime m) (jumpVelocity m)
         (jumpSinAngle m) (jumpCosAngle m) (jumpXYSpeed m)) g).

Definition setOrientation (o : Z) : Handler unit :=
  modify (fun g =>
    let m := movementInfo g in
    set_movementInfo
      (mkMovementInfo (flags m) (flags2 m) (time m) (mi_x m) (mi_y m) (mi_z m) o
         (pitch m) (fallTime m) (jumpVelocity m)
         (jumpSinAngle m) (jumpCosAngle m) (jumpXYSpeed m)) g).

(** Constructors of the entity classes. *)
Definition Entity_new (guid : Z) : Entity.t := Entity.mk guid ObjectType_OBJECT None ∅.
Definition Player_new (guid : Z) : Entity.t := Entity.mk guid ObjectType_PLAYER None ∅.
Definition Unit_new (guid : Z) : Entity.t := Entity.mk guid ObjectType_UNIT None ∅.
Definition GameObject_new (guid : Z) : Entity.t := Entity.mk guid ObjectType_GAMEOBJECT None ∅.

(** [for (const auto& field : block.fields) entity->setField(..)] *)
Definition setFields (e : Entity.t) (fs : gmap Z Z) : Entity.t :=
  map_fold (fun index value e => Entity.setField e index value) e fs.

(** One iteration of the block loop of [handleUpdateObject]. *)
Definition applyBlock (block : UpdateBlock.t) : Handler unit :=
  let ut := UpdateBlock.updateType block in
  let guid := UpdateBlock.guid block in
  if (ut =? UpdateType_CREATE_OBJECT) || (ut =? UpdateType_CREATE_OBJECT2) then
    let ot := UpdateBlock.objectType block in
    entity <-
      (if ot =? ObjectType_PLAYER then
         LOG INFO "Created player entity: 0x" ;;; ret (Player_new guid)
       else if ot =? ObjectType_UNIT then
         LOG INFO "Created unit entity: 0x" ;;; ret (Unit_new guid)
       else if ot =? ObjectType_GAMEOBJECT then
         LOG INFO "Created gameobject entity: 0x" ;;; ret (GameObject_new guid)
       else
         LOG INFO "Created generic entity: 0x" ;;;
         ret (Entity.setType (Entity_new guid) ot)) ;;
    entity <-
      (if UpdateBlock.hasMovement block then
         LOG DEBUG "  Position: (" ;;;
         ret (Entity.setPosition entity (UpdateBlock.x block) (UpdateBlock.y block)
                (UpdateBlock.z block) (UpdateBlock.orientation block))
       else ret entity) ;;
    let entity := setFields entity (UpdateBlock.fields block) in
    modify (fun g =>
      set_entityManager (EntityManager.addEntity (entityManager g) guid entity) g)
  else if ut =? UpdateType_VALUES then
    em <- gets entityManager ;;
    match EntityManager.getEntity em guid with
    | Some entity =>
        modify (set_entityManager
                  (<[guid := setFields entity (UpdateBlock.fields block)]> em)) ;;;
        LOG DEBUG "Updated entity fields: 0x"
    | None => LOG WARNING "VALUES update for unknown entity: 0x"
    end
  else if ut =? UpdateType_MOVEMENT then
    em <- gets entityManager ;;
    match EntityManager.getEntity em guid with
    | Some entity =>
        modify (set_entityManager
                  (<[guid := Entity.setPosition entity (UpdateBlock.x block)
                               (UpdateBlock.y block) (UpdateBlock.z block)
                               (UpdateBlock.orientation block)]> em)) ;;;
        LOG DEBUG "Updated entity position: 0x"
    | None => LOG WARNING "MOVEMENT update for unknown entity: 0x"
    end
  else ret tt.

Definition handleUpdateObject (packet : Packet.t) : Handler unit :=
  LOG INFO "Handling SMSG_UPDATE_OBJECT" ;;;
  r <- call_parser (UpdateObjectParser.parse (mkUpdateObjectData 0 [] [])) packet ;;
  let '(ok, data) := r in
  if negb ok then LOG WARNING "Failed to parse SMSG_UPDATE_OBJECT"
  else
    foldM (fun (_ : unit) guid =>
             em <- gets entityManager ;;
             if EntityManager.hasEntity em guid then
               LOG INFO "Entity went out of range: 0x" ;;;
               modify (set_entityManager (EntityManager.removeEntity em guid))
             else ret tt)
          (outOfRangeGuids data) tt ;;;
    foldM (fun (_ : unit) block => applyBlock block) (blocks data) tt ;;;
    modify (set_tabCycleStale true) ;;;
    LOG INFO "Entity count: ".

Definition handleDestroyObject (packet : Packet.t) : Handler unit :=
  LOG INFO "Handling SMSG_DESTROY_OBJECT" ;;;
  r <- call_parser DestroyObjectParser_parse packet ;;
  let '(ok, data) := r in
  if negb ok then LOG WARNING "Failed to parse SMSG_DESTROY_OBJECT"
  else
    em <- gets entityManager ;;
    (if EntityManager.hasEntity em (destroy_guid data) then
       modify (set_entityManager (EntityManager.removeEntity em (destroy_guid data))) ;;;
       LOG INFO "Destroyed entity: 0x"
     else LOG WARNING "Destroy object for unknown entity: 0x") ;;;
    modify (set_tabCycleStale true) ;;;
    LOG INFO "Entity count: ".

(** [push_back] and the bound on the chat history. *)
Definition push_chat (msg : MessageChatData) : Handler unit :=
  modify (fun g => set_chatHistory (chatHistory g ++ [msg]) g) ;;;
  h <- gets chatHistory ;;
  when (maxChatHistory <? length h)%nat (modify (set_chatHistory (tail h))).

Definition sendChatMessage (type : Z) (message target : list Z) : Handler unit :=
  st <- gets state ;;
  if bool_decide (st <> IN_WORLD) then LOG WARNING "Cannot send chat in state: "
  else
    match message with
    | [] => LOG WARNING "Cannot send empty chat message"
    | _ :: _ =>
        LOG INFO "Sending chat message: [" ;;;
        let language := ChatLanguage_COMMON in
        let '(packet, lb) := MessageChatPacket_build type language message target in
        LOGS lb ;;;
        emit (EvSend packet)
    end.

Definition handleMessageChat (packet : Packet.t) : Handler unit :=
  LOG DEBUG "Handling SMSG_MESSAGECHAT" ;;;
  r <- call_parser MessageChatParser_parse packet ;;
  let '(ok, data) := r in
  if negb ok then LOG WARNING "Failed to parse SMSG_MESSAGECHAT"
  else
    push_chat data ;;;
    LOGS [(INFO, "========================================");
          (INFO, " CHAT [");
          (INFO, "========================================");
          (INFO, ": ");
          (INFO, "========================================")].

Definition setTarget (guid : Z) : Handler unit :=
  t <- gets targetGuid ;;
  if guid =? t then ret tt
  else
    modify (set_targetGuid guid) ;;;
    when (negb (guid =? 0)) (LOG INFO "Target set: 0x").

Definition clearTarget : Handler unit :=
  t <- gets targetGuid ;;
  when (negb (t =? 0)) (LOG INFO "Target cleared") ;;;
  modify (set_targetGuid 0) ;;;
  modify (set_tabCycleIndex (-1)) ;;;
  modify (set_tabCycleStale true).

(** [tabTarget] orders the units and players by a [float] distance;
    [sorted] is the identifier list that [std::sort] leaves. *)
Definition tabTarget (sorted : list Z) : Handler unit :=
  stale <- gets tabCycleStale ;;
  when stale (modify (set_tabCycleList sorted) ;;;
              modify (set_tabCycleIndex (-1)) ;;;
              modify (set_tabCycleStale false)) ;;;
  l <- gets tabCycleList ;;
  match l with
  | [] => clearTarget
  | _ :: _ =>
      modify (fun g =>
        set_tabCycleIndex (Z.rem (tabCycleIndex g + 1) (Z.of_nat (length l))) g) ;;;
      i <- gets tabCycleIndex ;;
      setTarget (nth (Z.to_nat i) l 0)
  end.

Definition addLocalChatMessage (msg : MessageChatData) : Handler unit := push_chat msg.

Definition handlePacket (packet : Packet.t) : Handler unit :=
  if (Packet.getSize packet <? 1)%nat then LOG WARNING "Received empty packet"
  else
    LOG DEBUG "Received world packet: opcode=0x" ;;;
    st <- gets state ;;
    match Packet.getOpcode packet with
    | SMSG_AUTH_CHALLENGE =>
        if bool_decide (st = CONNECTED) then handleAuthChallenge packet
        else LOG WARNING "Unexpected SMSG_AUTH_CHALLENGE in state: "
    | SMSG_AUTH_RESPONSE =>
        if bool_decide (st = AUTH_SENT) then handleAuthResponse packet
        else LOG WARNING "Unexpected SMSG_AUTH_RESPONSE in state: "
    | SMSG_CHAR_ENUM =>
        if bool_decide (st = CHAR_LIST_REQUESTED) then handleCharEnum packet
        else LOG WARNING "Unexpected SMSG_CHAR_ENUM in state: "
    | SMSG_LOGIN_VERIFY_WORLD =>
        if bool_decide (st = ENTERING_WORLD) then handleLoginVerifyWorld packet
        else LOG WARNING "Unexpected SMSG_LOGIN_VERIFY_WORLD in state: "
    | SMSG_ACCOUNT_DATA_TIMES => handleAccountDataTimes packet
    | SMSG_MOTD => handleMotd packet
    | SMSG_PONG => handlePong packet
    | SMSG_UPDATE_OBJECT =>
        if bool_decide (st = IN_WORLD) then handleUpdateObject packet else ret tt
    | SMSG_DESTROY_OBJECT =>
        if bool_decide (st = IN_WORLD) then handleDestroyObject packet else ret tt
    | SMSG_MESSAGECHAT =>
        if bool_decide (st = IN_WORLD) then handleMessageChat packet else ret tt
    | _ => LOG WARNING "Unhandled world opcode: 0x"
    end.

(** [connect]: [seed] is the value drawn by [generateClientSeed] and
    [connOk] the answer of [socket->connect]. *)
Definition connect (host : string) (port : Z) (key : list Z) (account : list Z)
    (build : Z) (seed : Z) (connOk : bool) : Handler bool :=
  if negb (length key =? 40)%nat then
    LOG ERROR "Invalid session key size: " ;;;
    fail "Invalid session key" ;;;
    ret false
  else
    LOGS [(INFO, "========================================");
          (INFO, "   CONNECTING TO WORLD SERVER");
          (INFO, "========================================");
          (INFO, "Host: "); (INFO, "Port: "); (INFO, "Account: "); (INFO, "Build: ")] ;;;
    modify (set_sessionKey key) ;;;
    modify (set_accountName account) ;;;
    modify (set_build build) ;;;
    modify (set_clientSeed seed) ;;;
    LOG DEBUG "Generated client seed: 0x" ;;;
    modify (set_socket true) ;;;
    setState CONNECTING ;;;
    emit (EvConnect host port connOk) ;;;
    if negb connOk then
      LOG ERROR "Failed to connect to world server" ;;;
      fail "Connection failed" ;;;
      ret false
    else
      setState CONNECTED ;;;
      LOG INFO "Connected to world server, waiting for SMSG_AUTH_CHALLENGE..." ;;;
      ret true.

Definition disconnect : Handler unit :=
  s <- gets socket ;;
  when s (emit EvDisconnect ;;; modify (set_socket false)) ;;;
  setState DISCONNECTED ;;;
  LOG INFO "Disconnected from world server".

(** [update]: [inbound] are the messages that [socket->update()] hands to
    the packet callback during this poll, [pingDue] the outcome of the
    [float] comparison [timeSinceLastPing >= pingInterval]. *)
Definition update (inbound : list Packet.t) (pingDue : bool) : Handler unit :=
  s <- gets socket ;;
  if negb s then ret tt
  else
    foldM (fun (_ : unit) p => emit (EvDeliver p) ;;; handlePacket p) inbound tt ;;;
    g <- gets (fun g => g) ;;
    when (negb (targetGuid g =? 0)
          && negb (EntityManager.hasEntity (entityManager g) (targetGuid g)))
         clearTarget ;;;
    st <- gets state ;;
    when (bool_decide (st = IN_WORLD) && pingDue) sendPing.

(** State of the handler after running [m]. *)
Definition exec {A : Type} (m : Handler A) (g : t) : t := snd (m g).

Definition is_movement_opcode (op : Opcode) : bool :=
  match op with
  | CMSG_MOVE_START_FORWARD | CMSG_MOVE_START_BACKWARD | CMSG_MOVE_STOP
  | CMSG_MOVE_START_STRAFE_LEFT | CMSG_MOVE_START_STRAFE_RIGHT
  | CMSG_MOVE_STOP_STRAFE | CMSG_MOVE_JUMP | CMSG_MOVE_START_TURN_LEFT
  | CMSG_MOVE_START_TURN_RIGHT | CMSG_MOVE_STOP_TURN | CMSG_MOVE_FALL_LAND
  | CMSG_MOVE_HEARTBEAT => true
  | _ => false
  end.

(** One call of the public interface by the application. *)
Inductive step : t -> t -> Prop :=
| step_connect g host port key account build seed connOk :
    step g (exec (connect host port key account build seed connOk) g)
| step_disconnect g :
    step g (exec disconnect g)
| step_update g inbound pingDue :
    step g (exec (update inbound pingDue) g)
| step_requestCharacterList g :
    step g (exec requestCharacterList g)
| step_selectCharacter g guid :
    step g (exec (selectCharacter guid) g)
| step_sendMovement g op :
    is_movement_opcode op = true ->
    step g (exec (sendMovement op) g)
| step_sendChatMessage g type message target :
    step g (exec (sendChatMessage type message target) g)
| step_setPosition g x y z :
    step g (exec (setPosition x y z) g)
| step_setOrientation g o :
    step g (exec (setOrientation o) g)
| step_setTarget g guid :
    step g (exec (setTarget guid) g)
| step_clearTarget g :
    step g (exec clearTarget g)
| step_tabTarget g sorted :
    step g (exec (tabTarget sorted) g)
| step_addLocalChatMessage g msg :
    step g (exec (addLocalChatMessage msg) g).

(** The states of a handler that starts freshly constructed. *)
Inductive reachable : t -> Prop :=
| reachable_new : reachable new
| reachable_step g g' : reachable g -> step g g' -> reachable g'.

End WithEnv.
End GameHandler.

(** ** network/tcp_socket.hpp: the stream framer of the authentication phase *)

Module TCPSocket.

Record Message := mkMessage { msg_opcode : Z; msg_data : list Z }.

(** Modelled from the spec: [TCPSocket::getExpectedPacketSize]
    (tcp_socket.cpp is not among the sources; docs/packet-framing.md gives
    its rules).  The size of the frame that starts the receive buffer, or
    [0] when it cannot be told yet: a logon-challenge answer is 3 bytes on
    failure and otherwise is sized by its two length-prefixed arrays, a
    logon-proof answer is 22 bytes on success and 2 on failure, the realm
    list and unknown tags give [0]. *)
Definition getExpectedPacketSize (receiveBuffer : list Z) (opcode : Z) : nat :=
  if opcode =? 0 then
    match receiveBuffer !! 2%nat with
    | None => 0%nat
    | Some status =>
        if status =? 0 then
          match receiveBuffer !! 35%nat with
          | None => 0%nat
          | Some gLen =>
              match receiveBuffer !! (36 + Z.to_nat gLen)%nat with
              | None => 0%nat
              | Some nLen => (36 + Z.to_nat gLen + 1 + Z.to_nat nLen + 32 + 16 + 1)%nat
              end
          end
        else 3%nat
    end
  else if opcode =? 1 then
    match receiveBuffer !! 1%nat with
    | None => 0%nat
    | Some status => if status =? 0 then 22%nat else 2%nat
    end
  else if opcode =? 16 then 0%nat
  else 0%nat.

(** Modelled from the spec: [TCPSocket::tryParsePackets].  While the
    buffer is not empty: look at the tag, ask for the expected size, stop
    when it is unknown or the frame is not complete, otherwise slice the
    frame out, remove its bytes and go on.  [fuel] bounds the number of
    iterations; every iteration removes at least one byte. *)
Fixpoint parse_loop (fuel : nat) (receiveBuffer : list Z) : list Message * list Z :=
  match fuel with
  | O => ([], receiveBuffer)
  | S fuel' =>
      match receiveBuffer with
      | [] => ([], receiveBuffer)
      | opcode :: _ =>
          let expectedSize := getExpectedPacketSize receiveBuffer opcode in
          if (expectedSize =? 0)%nat then ([], receiveBuffer)
          else if (length receiveBuffer <? expectedSize)%nat then ([], receiveBuffer)
          else
            let packet := mkMessage opcode (take expectedSize receiveBuffer) in
            let '(packets, rest) := parse_loop fuel' (List.skipn expectedSize receiveBuffer) in
            (packet :: packets, rest)
      end
  end.

Definition tryParsePackets (receiveBuffer : list Z) : list Message * list Z :=
  parse_loop (length receiveBuffer) receiveBuffer.

(** The socket: its receive buffer and the messages handed to the packet
    callback so far. *)
Record t := mk { receiveBuffer : list Z; delivered : list Message }.

Definition new : t := mk [] [].

(** [update] when [recv] returned the bytes [chunk]: append, then frame. *)
Definition update (s : t) (chunk : list Z) : t :=
  let '(packets, rest) := tryParsePackets (receiveBuffer s ++ chunk) in
  mk rest (delivered s ++ packets).

End TCPSocket.

(** ** auth/big_num.hpp: values of [BigNum] as integers *)

Module BigNum.

(** Modelled from the spec: the operations of [BigNum] (big_num.cpp is not
    among the sources): construction from a byte array of either
    endianness, arithmetic that returns new values, and [toArray], which
    pads with zeros to at least [minSize] bytes. *)
Definition fromBytes (bytes : list Z) (littleEndian : bool) : Z :=
  if littleEndian then le_value bytes else le_value (rev bytes).

Definition numBytes (v : Z) : nat :=
  if v <=? 0 then 0%nat else Z.to_nat (Z.log2 v / 8 + 1).

Definition toArray (v : Z) (littleEndian : bool) (minSize : nat) : list Z :=
  let le := le_bytes (Nat.max (numBytes v) minSize) v in
  if littleEndian then le else rev le.

Definition add (a b : Z) : Z := a + b.
Definition subtract (a b : Z) : Z := a - b.
Definition multiply (a b : Z) : Z := a * b.
Definition mod_ (a m : Z) : Z := Z.rem a m.
Definition isZero (a : Z) : bool := a =? 0.

(** Square and multiply on the bits of the exponent. *)
Fixpoint modPow_pos (b : Z) (e : positive) (m : Z) : Z :=
  match e with
  | xH => b mod m
  | xO e' => let r := modPow_pos b e' m in (r * r) mod m
  | xI e' => let r := modPow_pos b e' m in (((r * r) mod m) * b) mod m
  end.

Definition modPow (b e m : Z) : Z :=
  match e with
  | Z0 => 1 mod m
  | Zpos p => modPow_pos b p m
  | Zneg _ => 0
  end.

End BigNum.

(** ** auth/srp.hpp: the SRP6a engine *)

Module SRP.

Definition H : list Z -> list Z := SHA1.sha1.

(** What the engine holds after [feed]: the public ephemeral [A], the
    shared secret [S], the session key [K], the client proof [M1] and the
    expected server proof [M2]. *)
Record Proofs := mkProofs {
  getA : list Z;
  getS : Z;
  getSessionKey : list Z;
  getM1 : list Z;
  getM2 : list Z
}.

Definition xor_bytes (a b : list Z) : list Z :=
  map (fun i => Z.lxor (nth i a 0) (nth i b 0)) (seq 0 (length a)).

(** Modelled from the spec: step 5 of the engine (srp.cpp is not among the
    sources).  The byte representation of [S] is split into its even- and
    odd-indexed bytes by one pass, each half is hashed, and the two hashes
    are interleaved byte by byte by a second pass. *)
Definition split_even_odd (S_bytes : list Z) : list Z * list Z :=
  fold_left (fun acc i =>
               let '(S1, S2) := acc in
               if Nat.even i then (S1 ++ [nth i S_bytes 0], S2)
               else (S1, S2 ++ [nth i S_bytes 0]))
            (seq 0 (length S_bytes)) ([], []).

Definition interleaveKey (S_bytes : list Z) : list Z :=
  let '(S1, S2) := split_even_odd S_bytes in
  let S1_hash := H S1 in
  let S2_hash := H S2 in
  fold_left (fun K i => K ++ [nth i S1_hash 0; nth i S2_hash 0]) (seq 0 20) [].

(** Modelled from the spec: the client ephemeral.  [draws] are the
    successive 19-byte random values; a draw whose public value is zero
    modulo [N] is rejected and the next one is tried, and the engine fails
    when the attempts are used up. *)
Fixpoint computeClientEphemeral (draws : list (list Z)) (g N : Z) : option (Z * Z) :=
  match draws with
  | [] => None
  | d :: rest =>
      let a := BigNum.fromBytes d true in
      let pubA := BigNum.modPow g a N in
      if BigNum.isZero (BigNum.mod_ pubA N) then computeClientEphemeral rest g N
      else Some (a, pubA)
  end.

(** Modelled from the spec: [initialize] then [feed], steps 1 to 6 of the
    engine, with [k = 3].  Malformed input (a salt that is not 32 bytes, a
    zero generator, a zero modulus) fails. *)
Definition feed (identity secret : list Z) (draws : list (list Z))
    (B_bytes g_bytes N_bytes salt : list Z) : option Proofs :=
  let I := map toupper identity in
  let g := BigNum.fromBytes g_bytes true in
  let N := BigNum.fromBytes N_bytes true in
  let B := BigNum.fromBytes B_bytes true in
  if negb (length salt =? 32)%nat || BigNum.isZero g || BigNum.isZero N then None
  else
    let x := BigNum.fromBytes (H (salt ++ H (I ++ [58] ++ secret))) true in
    match computeClientEphemeral draws g N with
    | None => None
    | Some (a, pubA) =>
        let A_bytes := BigNum.toArray pubA true 32 in
        let u := BigNum.fromBytes (H (A_bytes ++ B_bytes)) true in
        let kgx := BigNum.mod_ (BigNum.multiply 3 (BigNum.modPow g x N)) N in
        let base := BigNum.subtract B kgx in
        let base := BigNum.mod_ base N in
        let base := if base <? 0 then BigNum.add base N else base in
        let secretS := BigNum.modPow base (BigNum.add a (BigNum.multiply u x)) N in
        let sessionKey := interleaveKey (BigNum.toArray secretS true 32) in
        let proof :=
          H (xor_bytes (H N_bytes) (H g_bytes) ++ H I ++ salt
             ++ A_bytes ++ B_bytes ++ sessionKey) in
        Some (mkProofs A_bytes secretS sessionKey proof
                       (H (A_bytes ++ proof ++ sessionKey)))
    end.

(** *** Reference values

    The same quantities written as the protocol defines them, against
    which the engine is compared: integer powers and the mathematical
    modulus, and the key as the alternation of the two digests. *)
Fixpoint evens (l : list Z) : list Z :=
  match l with
  | [] => []
  | a :: r => a :: match r with [] => [] | _ :: r' => evens r' end
  end.

Definition odds (l : list Z) : list Z :=
  match l with
  | [] => []
  | _ :: r => evens r
  end.

Fixpoint interleave (l1 l2 : list Z) : list Z :=
  match l1, l2 with
  | a :: r1, b :: r2 => a :: b :: interleave r1 r2
  | _, _ => []
  end.

Fixpoint zip_xor (a b : list Z) : list Z :=
  match a, b with
  | x :: a', y :: b' => Z.lxor x y :: zip_xor a' b'
  | _, _ => []
  end.

Definition reference_S (a x u B g N : Z) : Z :=
  ((B - 3 * g ^ x) ^ (a + u * x)) mod N.

Definition reference_K (secretS : Z) : list Z :=
  let S_bytes := BigNum.toArray secretS true 32 in
  interleave (H (evens S_bytes)) (H (odds S_bytes)).

Definition reference_M1 (I salt A_bytes B_bytes g_bytes N_bytes sessionKey : list Z) : list Z :=
  H (zip_xor (H N_bytes) (H g_bytes) ++ H I ++ salt ++ A_bytes ++ B_bytes ++ sessionKey).

(** *** Known-answer vector

    One handshake of a conforming server for the account [test], worked
    out with arbitrary-precision integers and a library SHA-1: a 256-bit
    modulus, the generator 7, the salt 1..32, and the private values of
    both sides fixed. *)
Definition vector_N : list Z :=
  [183; 155; 62; 42; 135; 130; 60; 171; 143; 94; 191; 191; 142; 177; 1; 8;
   83; 80; 6; 41; 139; 91; 173; 189; 91; 83; 225; 137; 94; 100; 75; 137].
Definition vector_g : list Z := [7].
Definition vector_salt : list Z := map Z.of_nat (seq 1 32).
Definition vector_a : list Z :=
  [5; 16; 27; 38; 49; 60; 71; 82; 93; 104; 115; 126; 137; 148; 159; 170; 181;
   192; 203].
Definition vector_B : list Z :=
  [253; 166; 108; 194; 176; 36; 69; 22; 128; 11; 61; 196; 51; 80; 147; 139;
   51; 106; 51; 119; 123; 0; 52; 181; 150; 137; 86; 147; 83; 149; 116; 112].
Definition vector_K : list Z :=
  [110; 109; 25; 76; 46; 87; 21; 51; 7; 220; 153; 124; 68; 23; 204; 128; 136;
   23; 104; 35; 26; 147; 248; 225; 66; 29; 37; 215; 83; 80; 224; 41; 99; 29;
   10; 249; 75; 80; 77; 36].
Definition vector_M1 : list Z :=
  [95; 27; 53; 11; 141; 56; 67; 111; 66; 18; 30; 8; 238; 150; 253; 84; 138;
   181; 70; 157].

End SRP.

(** ** Parser runs on a known input *)

Definition advance (p : Packet.t) (n : nat) : Packet.t :=
  Packet.setReadPos p (Packet.readPos p + n).

(** [reads m bytes a]: on every packet whose unread bytes start with
    [bytes], the parser [m] returns [a] normally, consumes exactly [bytes]
    and only adds calls to the log. *)
Definition reads {A : Type} (m : Parser A) (bytes : list Z) (a : A) : Prop :=
  forall p l rest,
    Packet.remaining p = bytes ++ rest ->
    exists l', m (mkPState p l) = (Done a, mkPState (advance p (length bytes)) (l ++ l')).

(** [quiet e m]: whatever the input, the parser [m] only appends to the
    log and never logs the entry [e]. *)
Definition quiet {A : Type} (e : LogEntry) (m : Parser A) : Prop :=
  forall s, exists d, plog (snd (m s)) = plog s ++ d /\ count_log e d = 0%nat.




(** ** Reference encodings and predicates used by the statements *)

(** The packed form of a 64-bit identifier: a mask byte whose bit [i] tells
    that byte [i] of the identifier is not zero, then those bytes, lowest
    first. *)
Fixpoint mask_of (bytes : list Z) : Z :=
  match bytes with
  | [] => 0
  | b :: r => Z.lor (if b =? 0 then 0 else 1) (Z.shiftl (mask_of r) 1)
  end.

Definition writePackedGuid (guid : Z) : list Z :=
  let bytes := le_bytes 8 guid in
  mask_of bytes :: filter (fun b => b <> 0) bytes.

(** The bits set in a 32-bit mask word, least significant first. *)
Definition set_bits (mask : Z) : list Z :=
  filter (fun b => Z.testbit mask b = true) (map Z.of_nat (seq 0 32)).

(** The global field indices named by the mask words starting at word
    [w0], in mask-word order and then bit order. *)
Fixpoint field_indices (w0 : Z) (masks : list Z) : list Z :=
  match masks with
  | [] => []
  | m :: rest => map (fun b => w0 * 32 + b) (set_bits m) ++ field_indices (w0 + 1) rest
  end.

(** The wire image of a field update: the block count, the mask words and
    the values, 32-bit little-endian. *)
Definition update_fields_image (masks values : list Z) : list Z :=
  Z.of_nat (length masks) :: concat (map (le_bytes 4) masks) ++ concat (map (le_bytes 4) values).

(** Recording the values against the indices, in order. *)
Definition record_fields (fs : gmap Z Z) (indices values : list Z) : gmap Z Z :=
  fold_left (fun m iv => <[fst iv := snd iv]> m) (zip indices values) fs.

(** The states after [AUTHENTICATED] in the progression of the session. *)
Definition past_authenticated (st : WorldState) : bool :=
  match st with
  | READY | CHAR_LIST_REQUESTED | CHAR_LIST_RECEIVED | ENTERING_WORLD | IN_WORLD => true
  | _ => false
  end.

(** The informational message types: [handlePacket] gives them to their
    handlers without a test of the state. *)
Definition informational (op : Opcode) : bool :=
  match op with
  | SMSG_ACCOUNT_DATA_TIMES | SMSG_MOTD | SMSG_PONG => true
  | _ => false
  end.

(** The message types that are valid in a state.  A handshake message is
    valid in the state that waits for it and a world message in
    [IN_WORLD], as [handlePacket] tests them.  An informational message is
    valid once the session is past [AUTHENTICATED] (in [handlePacket]:
    "can be received at any time after authentication"), and so in no
    state before it and not in [FAILED], although [handlePacket] does not
    test the state for these. *)
Definition valid_in_state (op : Opcode) (st : WorldState) : bool :=
  match op with
  | SMSG_AUTH_CHALLENGE => bool_decide (st = CONNECTED)
  | SMSG_AUTH_RESPONSE => bool_decide (st = AUTH_SENT)
  | SMSG_CHAR_ENUM => bool_decide (st = CHAR_LIST_REQUESTED)
  | SMSG_LOGIN_VERIFY_WORLD => bool_decide (st = ENTERING_WORLD)
  | SMSG_ACCOUNT_DATA_TIMES | SMSG_MOTD | SMSG_PONG => past_authenticated st
  | SMSG_UPDATE_OBJECT | SMSG_DESTROY_OBJECT | SMSG_MESSAGECHAT => bool_decide (st = IN_WORLD)
  | _ => false
  end.



(** An outbound packet that is the credentials message. *)
Definition is_auth_session (p : Packet.t) : bool :=
  match Packet.opcode p with
  | CMSG_AUTH_SESSION => true
  | _ => false
  end.

(** Events other than sending the credentials message and initialising
    the cipher. *)
Definition neutral (e : Event) : bool :=
  match e with
  | EvSend p => negb (is_auth_session p)
  | EvInitEncryption _ => false
  | _ => true
  end.

(** The ordering rule as an automaton over the event history: [pending]
    tells that the previous event was the sending of the credentials
    message.  Then, and only then, the next event is the initialisation of
    the cipher, with a 40-byte key. *)
Fixpoint cipher_ordered_from (pending : bool) (tr : list Event) : Prop :=
  match tr with
  | [] => pending = false
  | EvInitEncryption k :: rest =>
      pending = true /\ length k = 40%nat /\ cipher_ordered_from false rest
  | EvSend p :: rest =>
      pending = false /\ cipher_ordered_from (is_auth_session p) rest
  | _ :: rest =>
      pending = false /\ cipher_ordered_from false rest
  end.

Definition cipher_ordered (tr : list Event) : Prop := cipher_ordered_from false tr.

Section Invariants.
Context `{WorldEnv}.

(** The invariant of the handler, and its stronger form while a 40-byte
    key is known to be stored. *)
Definition handshake_inv (g : GameHandler.t) : Prop :=
  cipher_ordered (GameHandler.trace g)
  /\ (GameHandler.state g = CONNECTED -> length (GameHandler.sessionKey g) = 40%nat).

Definition keyed_inv (g : GameHandler.t) : Prop :=
  cipher_ordered (GameHandler.trace g) /\ length (GameHandler.sessionKey g) = 40%nat.

(** [keeps P m]: running [m] from a handler that satisfies [P] leaves a
    handler that satisfies [P], also when [m] is left by a raised error. *)
Definition keeps {A : Type} (P : GameHandler.t -> Prop) (m : GameHandler.Handler A) : Prop :=
  forall g, P g -> P (snd (m g)).

(** The members an invariant may depend on. *)
Definition core (g : GameHandler.t) : list Event * WorldState * list Z :=
  (GameHandler.trace g, GameHandler.state g, GameHandler.sessionKey g).

End Invariants.

(** A concrete environment, used to run the model on concrete messages. *)
Definition wotlk_env : WorldEnv :=
  mkWorldEnv 0 1 2 3 4 5 0 3 4 5
             1 2 4 8 16 32 4096 8192 2097152 33554432 7 17 0
             (fun c => 0 <? challenge_serverSeed c)
             (fun r => result r =? 12)
             (fun d => true)
             (fun _ => "UNKNOWN - Unknown result code")
             Z (fun c => c) (list Z)
             (ret (true, []))
             (ret (true, [])).


(** ** game/game_handler.cpp: queries of the handler *)

Section HandlerQueries.
Context `{WorldEnv}.

(** [GameHandler::getChatHistory]: the whole history when [maxMessages] is
    zero or not smaller than its size, otherwise its last [maxMessages]
    entries. *)
Definition getChatHistory (g : GameHandler.t) (maxMessages : nat) : list MessageChatData :=
  let chatHistory := GameHandler.chatHistory g in
  if (maxMessages =? 0)%nat || (length chatHistory <=? maxMessages)%nat then chatHistory
  else List.skipn (length chatHistory - maxMessages) chatHistory.

(** [GameHandler::hasTarget] and [GameHandler::getTarget]; a null pointer
    is [None]. *)
Definition hasTarget (g : GameHandler.t) : bool := negb (GameHandler.targetGuid g =? 0).

Definition getTarget (g : GameHandler.t) : option Entity.t :=
  if GameHandler.targetGuid g =? 0 then None
  else EntityManager.getEntity (GameHandler.entityManager g) (GameHandler.targetGuid g).

(** [unchanged proj m]: running [m] leaves the part [proj] of the handler
    as it was, also when [m] is left by a raised error. *)
Definition unchanged {X A : Type} (proj : GameHandler.t -> X) (m : GameHandler.Handler A)
  : Prop :=
  forall g, proj (snd (m g)) = proj g.

(** [log_only m]: running [m] only adds calls to the log. *)
Definition log_only {A : Type} (m : GameHandler.Handler A) : Prop :=
  forall g, exists l : Log,
    snd (m g) = GameHandler.set_log (GameHandler.log g ++ l) g.


(** [appends m]: the parser [m] only adds calls to the log. *)
Definition appends {A : Type} (m : Parser A) : Prop :=
  forall s, exists d : Log, plog (snd (m s)) = plog s ++ d.

End HandlerQueries.

(** The calls on the world socket that need the socket to be there. *)
Definition uses_socket (e : Event) : bool :=
  match e with
  | EvSend _ | EvInitEncryption _ => true
  | _ => false
  end.

Section ChatHistory.
Context `{WorldEnv}.

(** The bound that [handleMessageChat] and [addLocalChatMessage] keep on
    the chat history. *)
Definition chat_bounded (g : GameHandler.t) : Prop :=
  (length (GameHandler.chatHistory g) <= GameHandler.maxChatHistory)%nat.

End ChatHistory.

(** ** The session state machine *)

(** The transitions that handling one inbound message can make, besides
    failing. *)
Definition inbound_transition (a b : WorldState) : bool :=
  match a, b with
  | CONNECTED, AUTH_SENT
  | AUTH_SENT, READY
  | CHAR_LIST_REQUESTED, CHAR_LIST_RECEIVED
  | ENTERING_WORLD, IN_WORLD => true
  | _, _ => false
  end.

Section StateEffects.
Context `{WorldEnv}.

(** [ends_in X m]: after [m] the state is [X], also when [m] is left by a
    raised error. *)
Definition ends_in {A : Type} (X : WorldState) (m : GameHandler.Handler A) : Prop :=
  forall g, GameHandler.state (snd (m g)) = X.

(** [settles T m]: after [m] the state is the one before or a state of [T]. *)
Definition settles {A : Type} (T : WorldState -> Prop) (m : GameHandler.Handler A) : Prop :=
  forall g, GameHandler.state (snd (m g)) = GameHandler.state g
            \/ T (GameHandler.state (snd (m g))).

(** [returns m]: [m] is never left by a raised error. *)
Definition returns {A : Type} (m : GameHandler.Handler A) : Prop :=
  forall g, exists a, fst (m g) = Done a.

End StateEffects.

(** ** The entity table after an update *)

Section EntityTable.
Context `{WorldEnv}.

(** What one decoded block does to the entity table: a create block puts a
    new record under the identifier, a values block merges its fields into
    the record that is there, a movement block gives it a position, and
    any other block does nothing. *)
Definition updated_table (block : UpdateBlock.t) (em : gmap Z Entity.t) : gmap Z Entity.t :=
  let ut := UpdateBlock.updateType block in
  let guid := UpdateBlock.guid block in
  let at_block := (UpdateBlock.x block, UpdateBlock.y block, UpdateBlock.z block,
                   UpdateBlock.orientation block) in
  if (ut =? UpdateType_CREATE_OBJECT) || (ut =? UpdateType_CREATE_OBJECT2) then
    <[guid := Entity.mk guid (UpdateBlock.objectType block)
                (if UpdateBlock.hasMovement block then Some at_block else None)
                (UpdateBlock.fields block)]> em
  else if ut =? UpdateType_VALUES then
    match em !! guid with
    | Some e =>
        <[guid := Entity.mk (Entity.guid e) (Entity.type e) (Entity.position e)
                    (UpdateBlock.fields block ∪ Entity.fields e)]> em
    | None => em
    end
  else if ut =? UpdateType_MOVEMENT then
    match em !! guid with
    | Some e =>
        <[guid := Entity.mk (Entity.guid e) (Entity.type e) (Some at_block)
                    (Entity.fields e)]> em
    | None => em
    end
  else em.

End EntityTable.

(** ** Results of a parser *)

(** [yields Q m]: whenever the parser [m] returns, what it returns
    satisfies [Q]. *)
Definition yields {A : Type} (Q : A -> Prop) (m : Parser A) : Prop :=
  forall s a s', m s = (Done a, s') -> Q a.

(** ** game/world_packets.cpp: CharEnumParser

    [Character] is declared in a header that is not among the sources; the
    record below has the members that [CharEnumParser::parse] assigns.
    [hasGuild] and [hasPet], which only decide two log calls, are
    parameters. *)

Module CharacterData.
Record EquipmentItem := mkItem { displayModel : Z; inventoryType : Z; enchantment : Z }.
Record t := mk {
  guid : Z; name : list Z;
  race : Z; characterClass : Z; gender : Z;
  appearanceBytes : Z; facialFeatures : Z;
  level : Z;
  zoneId : Z; mapId : Z; x : Z; y : Z; z : Z;
  guildId : Z;
  flags : Z;
  pet_displayModel : Z; pet_level : Z; pet_family : Z;
  equipment : list EquipmentItem
}.
End CharacterData.

Module CharEnumParser.
Section WithQueries.
Variables (hasGuild hasPet : CharacterData.t -> bool).

(** [for (int j = 0; j < 23; ++j)]: the equipment of one character. *)
Definition readEquipment : Parser (list CharacterData.EquipmentItem) :=
  foldM (fun equipment (_ : nat) =>
           displayModel <- readUInt32 ;;
           inventoryType <- readUInt8 ;;
           enchantment <- readUInt32 ;;
           ret (equipment ++ [CharacterData.mkItem displayModel inventoryType enchantment]))
        (seq 0 23) [].

(** The body of the loop over the characters. *)
Definition readCharacter : Parser CharacterData.t :=
  guid <- readUInt64 ;;
  name <- readString ;;
  race <- readUInt8 ;;
  characterClass <- readUInt8 ;;
  gender <- readUInt8 ;;
  appearanceBytes <- readUInt32 ;;
  facialFeatures <- readUInt8 ;;
  level <- readUInt8 ;;
  zoneId <- readUInt32 ;;
  mapId <- readUInt32 ;;
  x <- readFloat ;;
  y <- readFloat ;;
  z <- readFloat ;;
  guildId <- readUInt32 ;;
  flags <- readUInt32 ;;
  _ <- readUInt32 ;;
  _ <- readUInt8 ;;
  pet_displayModel <- readUInt32 ;;
  pet_level <- readUInt32 ;;
  pet_family <- readUInt32 ;;
  equipment <- readEquipment ;;
  let character :=
    CharacterData.mk guid name race characterClass gender appearanceBytes facialFeatures
      level zoneId mapId x y z guildId flags pet_displayModel pet_level pet_family
      equipment in
  plog_call INFO "  Character " ;;;
  plog_call INFO "    GUID: 0x" ;;;
  plog_call INFO "    " ;;;
  plog_call INFO "    Level: " ;;;
  plog_call INFO "    Location: Zone " ;;;
  plog_call INFO "    Position: (" ;;;
  (if hasGuild character then plog_call INFO "    Guild ID: " else ret tt) ;;;
  (if hasPet character then plog_call INFO "    Pet: Model " else ret tt) ;;;
  ret character.

Definition parse : Parser (bool * list CharacterData.t) :=
  count <- readUInt8 ;;
  plog_call INFO "Parsing SMSG_CHAR_ENUM: " ;;;
  characters <- foldM (fun characters (_ : nat) =>
                         character <- readCharacter ;;
                         ret (characters ++ [character]))
                      (seq 0 (Z.to_nat count)) [] ;;
  plog_call INFO "Successfully parsed " ;;;
  ret (true, characters).

End WithQueries.

(** The bytes of one character and of a whole list in the layout that
    [parse] reads. *)
Definition encode_item (i : CharacterData.EquipmentItem) : list Z :=
  le_bytes 4 (CharacterData.displayModel i) ++ [CharacterData.inventoryType i]
  ++ le_bytes 4 (CharacterData.enchantment i).

Definition encode_character (customization unknown : Z) (c : CharacterData.t) : list Z :=
  le_bytes 8 (CharacterData.guid c)
  ++ (CharacterData.name c ++ [0])
  ++ [CharacterData.race c] ++ [CharacterData.characterClass c] ++ [CharacterData.gender c]
  ++ le_bytes 4 (CharacterData.appearanceBytes c)
  ++ [CharacterData.facialFeatures c]
  ++ [CharacterData.level c]
  ++ le_bytes 4 (CharacterData.zoneId c)
  ++ le_bytes 4 (CharacterData.mapId c)
  ++ le_bytes 4 (CharacterData.x c)
  ++ le_bytes 4 (CharacterData.y c)
  ++ le_bytes 4 (CharacterData.z c)
  ++ le_bytes 4 (CharacterData.guildId c)
  ++ le_bytes 4 (CharacterData.flags c)
  ++ le_bytes 4 customization
  ++ [unknown]
  ++ le_bytes 4 (CharacterData.pet_displayModel c)
  ++ le_bytes 4 (CharacterData.pet_level c)
  ++ le_bytes 4 (CharacterData.pet_family c)
  ++ concat (map encode_item (CharacterData.equipment c)).

(** A character whose members fit their wire widths. *)
Definition wire_item (i : CharacterData.EquipmentItem) : Prop :=
  word32 (CharacterData.displayModel i) /\ word32 (CharacterData.enchantment i).

Definition wire_character (c : CharacterData.t) : Prop :=
  0 <= CharacterData.guid c < 2 ^ 64
  /\ Forall (fun b => b <> 0) (CharacterData.name c)
  /\ word32 (CharacterData.appearanceBytes c)
  /\ word32 (CharacterData.zoneId c) /\ word32 (CharacterData.mapId c)
  /\ word32 (CharacterData.x c) /\ word32 (CharacterData.y c) /\ word32 (CharacterData.z c)
  /\ word32 (CharacterData.guildId c) /\ word32 (CharacterData.flags c)
  /\ word32 (CharacterData.pet_displayModel c) /\ word32 (CharacterData.pet_level c)
  /\ word32 (CharacterData.pet_family c)
  /\ length (CharacterData.equipment c) = 23%nat
  /\ Forall wire_item (CharacterData.equipment c).

End CharEnumParser.

(** ** game/world_packets.cpp: MessageChatParser

    [MessageChatData] and the values of [ChatType] are declared in a
    header that is not among the sources: the record has the members that
    the parser assigns, and the chat types that the parser tells apart are
    parameters. *)

Module MessageChatData.
Record t := mk {
  type : Z; language : Z; senderGuid : Z; senderName : list Z;
  receiverGuid : Z; receiverName : list Z; channelName : list Z;
  message : list Z; chatTag : Z
}.
Definition set_type (v : Z) (d : t) : t :=
  mk v (language d) (senderGuid d) (senderName d) (receiverGuid d) (receiverName d)
     (channelName d) (message d) (chatTag d).
Definition set_language (v : Z) (d : t) : t :=
  mk (type d) v (senderGuid d) (senderName d) (receiverGuid d) (receiverName d)
     (channelName d) (message d) (chatTag d).
Definition set_senderGuid (v : Z) (d : t) : t :=
  mk (type d) (language d) v (senderName d) (receiverGuid d) (receiverName d)
     (channelName d) (message d) (chatTag d).
Definition set_senderName (v : list Z) (d : t) : t :=
  mk (type d) (language d) (senderGuid d) v (receiverGuid d) (receiverName d)
     (channelName d) (message d) (chatTag d).
Definition set_receiverGuid (v : Z) (d : t) : t :=
  mk (type d) (language d) (senderGuid d) (senderName d) v (receiverName d)
     (channelName d) (message d) (chatTag d).
Definition set_receiverName (v : list Z) (d : t) : t :=
  mk (type d) (language d) (senderGuid d) (senderName d) (receiverGuid d) v
     (channelName d) (message d) (chatTag d).
Definition set_channelName (v : list Z) (d : t) : t :=
  mk (type d) (language d) (senderGuid d) (senderName d) (receiverGuid d) (receiverName d)
     v (message d) (chatTag d).
Definition set_message (v : list Z) (d : t) : t :=
  mk (type d) (language d) (senderGuid d) (senderName d) (receiverGuid d) (receiverName d)
     (channelName d) v (chatTag d).
Definition set_chatTag (v : Z) (d : t) : t :=
  mk (type d) (language d) (senderGuid d) (senderName d) (receiverGuid d) (receiverName d)
     (channelName d) (message d) v.
End MessageChatData.

Module MessageChatParser.
Section WithChatTypes.
Context `{WorldEnv}.
Variables (ChatType_MONSTER_SAY ChatType_MONSTER_YELL ChatType_MONSTER_EMOTE
           ChatType_WHISPER_INFORM ChatType_ACHIEVEMENT ChatType_GUILD_ACHIEVEMENT : Z).

(** [for (uint32_t i = 0; i < n; ++i) buffer[i] = packet.readUInt8();] *)
Definition readChars (n : nat) : Parser (list Z) :=
  foldM (fun buffer (_ : nat) => c <- readUInt8 ;; ret (buffer ++ [c])) (seq 0 n) [].

(** The chat types with data of their own before the text. *)
Definition is_monster (typeVal : Z) : bool :=
  (typeVal =? ChatType_MONSTER_SAY) || (typeVal =? ChatType_MONSTER_YELL)
  || (typeVal =? ChatType_MONSTER_EMOTE).

Definition is_achievement (typeVal : Z) : bool :=
  (typeVal =? ChatType_ACHIEVEMENT) || (typeVal =? ChatType_GUILD_ACHIEVEMENT).

Definition parse (data : MessageChatData.t) : Parser (bool * MessageChatData.t) :=
  size <- getSize ;;
  if (size <? 15)%nat then
    plog_call ERROR "SMSG_MESSAGECHAT packet too small: " ;;;
    ret (false, data)
  else
    typeVal <- readUInt8 ;;
    let data := MessageChatData.set_type typeVal data in
    langVal <- readUInt32 ;;
    let data := MessageChatData.set_language langVal data in
    senderGuid <- readUInt64 ;;
    let data := MessageChatData.set_senderGuid senderGuid data in
    _ <- readUInt32 ;;
    data <-
      (if is_monster typeVal then
         nameLen <- readUInt32 ;;
         data <- (if (0 <? nameLen) && (nameLen <? 256) then
                    nameBuffer <- readChars (Z.to_nat nameLen) ;;
                    ret (MessageChatData.set_senderName nameBuffer data)
                  else ret data) ;;
         receiverGuid <- readUInt64 ;;
         ret (MessageChatData.set_receiverGuid receiverGuid data)
       else if typeVal =? ChatType_WHISPER_INFORM then
         receiverName <- readString ;;
         ret (MessageChatData.set_receiverName receiverName data)
       else if typeVal =? ChatType_CHANNEL then
         channelName <- readString ;;
         ret (MessageChatData.set_channelName channelName data)
       else if is_achievement typeVal then
         _ <- readUInt32 ;;
         ret data
       else ret data) ;;
    messageLen <- readUInt32 ;;
    data <- (if (0 <? messageLen) && (messageLen <? 8192) then
               msgBuffer <- readChars (Z.to_nat messageLen) ;;
               ret (MessageChatData.set_message msgBuffer data)
             else ret data) ;;
    chatTag <- readUInt8 ;;
    let data := MessageChatData.set_chatTag chatTag data in
    plog_call DEBUG "Parsed SMSG_MESSAGECHAT:" ;;;
    plog_call DEBUG "  Type: " ;;;
    plog_call DEBUG "  Language: " ;;;
    plog_call DEBUG "  Sender GUID: 0x" ;;;
    (match MessageChatData.senderName data with
     | [] => ret tt
     | _ :: _ => plog_call DEBUG "  Sender name: "
     end) ;;;
    (match MessageChatData.channelName data with
     | [] => ret tt
     | _ :: _ => plog_call DEBUG "  Channel: "
     end) ;;;
    plog_call DEBUG "  Message: " ;;;
    plog_call DEBUG "  Chat tag: 0x" ;;;
    ret (true, data).

(** A chat type without data of its own before the text. *)
Definition plain_type (typeVal : Z) : bool :=
  negb (is_monster typeVal) && negb (typeVal =? ChatType_WHISPER_INFORM)
  && negb (typeVal =? ChatType_CHANNEL) && negb (is_achievement typeVal).

End WithChatTypes.
End MessageChatParser.

(** ** game/game_handler.cpp: the movement opcodes of [sendMovement] *)

(** The opcode whose case in [sendMovement] clears the flag that the case
    of a start opcode sets. *)
Definition stop_of (start : Opcode) : option Opcode :=
  match start with
  | CMSG_MOVE_START_FORWARD | CMSG_MOVE_START_BACKWARD => Some CMSG_MOVE_STOP
  | CMSG_MOVE_START_STRAFE_LEFT | CMSG_MOVE_START_STRAFE_RIGHT => Some CMSG_MOVE_STOP_STRAFE
  | CMSG_MOVE_START_TURN_LEFT | CMSG_MOVE_START_TURN_RIGHT => Some CMSG_MOVE_STOP_TURN
  | CMSG_MOVE_JUMP => Some CMSG_MOVE_FALL_LAND
  | _ => None
  end.
(** * Properties *)

(** ** RC4 *)

(** C3: after [init] with the key [Key], one [process] call over the nine
    bytes of [Plaintext] leaves exactly BB F3 16 E8 D9 40 AF 0A D3 in the
    buffer. *)
Theorem rc4_key_plaintext_vector :
  snd (RC4.process (fst (RC4.init RC4.new (bytes_of_string "Key")))
                   (bytes_of_string "Plaintext"))
  = [0xBB; 0xF3; 0x16; 0xE8; 0xD9; 0x40; 0xAF; 0x0A; 0xD3].
Proof. vm_compute. reflexivity. Qed.

(** C10: [init] with an empty key returns the cipher it was given, table
    and both indices, so any later [process] gives the same cipher and the
    same bytes as without the call. *)
Theorem rc4_init_empty_key_is_noop :
  forall (c : RC4.t),
    fst (RC4.init c []) = c
    /\ RC4.state (fst (RC4.init c [])) = RC4.state c
    /\ RC4.x (fst (RC4.init c [])) = RC4.x c
    /\ RC4.y (fst (RC4.init c [])) = RC4.y c
    /\ forall data, RC4.process (fst (RC4.init c [])) data = RC4.process c data.
Proof.
  intros c. cbn [RC4.init fst]. repeat split; reflexivity.
Qed.
(** ** Little-endian byte strings *)

Lemma le_bytes_S (n : nat) (v : Z) :
  le_bytes (S n) v = Z.land v 255 :: le_bytes n (Z.shiftr v 8).
Proof.
  unfold le_bytes. cbn [seq map].
  change (8 * Z.of_nat 0) with 0. rewrite Z.shiftr_0_r. f_equal.
  rewrite <- seq_shift, map_map. apply map_ext. intros i.
  rewrite Z.shiftr_shiftr by lia. do 2 f_equal. lia.
Qed.

Lemma length_le_bytes (n : nat) (v : Z) : length (le_bytes n v) = n.
Proof. unfold le_bytes. now rewrite length_map, length_seq. Qed.

Lemma split_low_byte (v : Z) :
  Z.lor (Z.land v 255) (Z.shiftl (Z.shiftr v 8) 8) = v.
Proof.
  apply Z.bits_inj'. intros m Hm.
  rewrite Z.lor_spec, Z.land_spec.
  change 255 with (Z.ones 8).
  destruct (Z.lt_ge_cases m 8) as [Hlt | Hge].
  - rewrite Z.ones_spec_low by lia.
    rewrite Z.shiftl_spec_low by lia.
    now rewrite andb_true_r, orb_false_r.
  - rewrite Z.ones_spec_high by lia.
    rewrite Z.shiftl_spec by lia.
    rewrite Z.shiftr_spec by lia.
    rewrite andb_false_r. cbn [orb]. f_equal. lia.
Qed.

Lemma le_value_le_bytes (n : nat) (v : Z) :
  0 <= v < 2 ^ (8 * Z.of_nat n) -> le_value (le_bytes n v) = v.
Proof.
  revert v. induction n as [| n IH]; intros v Hv.
  - cbn in *. lia.
  - rewrite le_bytes_S. cbn [le_value].
    rewrite IH; [apply split_low_byte |].
    rewrite Z.shiftr_div_pow2 by lia.
    replace (8 * Z.of_nat (S n)) with (8 + 8 * Z.of_nat n) in Hv by lia.
    rewrite Z.pow_add_r in Hv by lia.
    split; [apply Z.div_pos; lia |].
    apply Z.div_lt_upper_bound; lia.
Qed.

(** ** The read cursor *)

Lemma remaining_cons (p : Packet.t) (b : Z) (r : list Z) :
  Packet.remaining p = b :: r ->
  Packet.data p !! Packet.readPos p = Some b
  /\ Packet.remaining (Packet.setReadPos p (S (Packet.readPos p))) = r.
Proof.
  unfold Packet.remaining. intros Hr. split.
  - pose proof (lookup_drop (Packet.data p) (Packet.readPos p) 0) as Hl.
    rewrite Nat.add_0_r in Hl. rewrite <- Hl. now rewrite Hr.
  - unfold Packet.setReadPos. cbn [Packet.data Packet.readPos].
    pose proof (skipn_skipn 1 (Packet.readPos p) (Packet.data p)) as E.
    cbn [Nat.add] in E. rewrite <- E, Hr. reflexivity.
Qed.

Lemma remaining_advance (p : Packet.t) (bytes rest : list Z) :
  Packet.remaining p = bytes ++ rest ->
  Packet.remaining (advance p (length bytes)) = rest.
Proof.
  unfold Packet.remaining, advance, Packet.setReadPos.
  cbn [Packet.data Packet.readPos]. intros Hr.
  rewrite Nat.add_comm, <- skipn_skipn, Hr.
  now rewrite skipn_app, skipn_all, Nat.sub_diag.
Qed.

Lemma advance_0 (p : Packet.t) : advance p 0 = p.
Proof. destruct p. unfold advance, Packet.setReadPos. cbn. now rewrite Nat.add_0_r. Qed.

Lemma advance_advance (p : Packet.t) (n m : nat) :
  advance (advance p n) m = advance p (n + m).
Proof. unfold advance, Packet.setReadPos. cbn. now rewrite Nat.add_assoc. Qed.

Lemma Packet_readUInt8_cons (p : Packet.t) (b : Z) (r : list Z) :
  Packet.remaining p = b :: r ->
  Packet.readUInt8 p = Some (b, advance p 1).
Proof.
  intros Hr. apply remaining_cons in Hr as [Hl _].
  unfold Packet.readUInt8. rewrite Hl. unfold advance.
  now rewrite Nat.add_1_r.
Qed.

Lemma Packet_readLE_app (bs : list Z) (p : Packet.t) (rest : list Z) :
  Packet.remaining p = bs ++ rest ->
  Packet.readLE (length bs) p = Some (le_value bs, advance p (length bs)).
Proof.
  revert p. induction bs as [| b bs IH]; intros p Hr.
  - cbn. now rewrite advance_0.
  - cbn [length Packet.readLE le_value].
    rewrite (Packet_readUInt8_cons p b (bs ++ rest)) by exact Hr.
    rewrite (IH (advance p 1)).
    + now rewrite advance_advance.
    + change 1%nat with (length [b]). apply remaining_advance. exact Hr.
Qed.

(** ** Parsers on a known input *)

Lemma reads_ret {A : Type} (a : A) : reads (ret a) [] a.
Proof.
  intros p l rest _. exists []. unfold ret. cbn.
  now rewrite advance_0, app_nil_r.
Qed.

Lemma reads_bind {A B : Type} (m : Parser A) (k : A -> Parser B)
    (b1 b2 : list Z) (a : A) (b : B) :
  reads m b1 a -> reads (k a) b2 b -> reads (bind m k) (b1 ++ b2) b.
Proof.
  intros Hm Hk p l rest Hr.
  rewrite <- app_assoc in Hr.
  destruct (Hm p l (b2 ++ rest) Hr) as [l1 E1].
  destruct (Hk (advance p (length b1)) (l ++ l1) rest) as [l2 E2].
  { now apply remaining_advance in Hr. }
  exists (l1 ++ l2). unfold bind. rewrite E1, E2.
  now rewrite advance_advance, length_app, app_assoc.
Qed.

Lemma reads_plog (lvl : LogLevel) (msg : string) : reads (plog_call lvl msg) [] tt.
Proof.
  intros p l rest _. exists [(lvl, msg)]. unfold plog_call, modify. cbn.
  now rewrite advance_0.
Qed.

Lemma reads_readUInt8 (b : Z) : reads readUInt8 [b] b.
Proof.
  intros p l rest Hr. exists []. unfold readUInt8, lift_read. cbn [pkt plog].
  rewrite (Packet_readUInt8_cons p b rest) by exact Hr.
  now rewrite app_nil_r.
Qed.

Lemma reads_readLE (n : nat) (bs : list Z) :
  length bs = n -> reads (lift_read (Packet.readLE n)) bs (le_value bs).
Proof.
  intros <- p l rest Hr. exists []. unfold lift_read. cbn [pkt plog].
  rewrite (Packet_readLE_app bs p rest) by exact Hr.
  now rewrite app_nil_r.
Qed.

Lemma reads_readUInt32 (v : Z) :
  0 <= v < 2 ^ 32 -> reads readUInt32 (le_bytes 4 v) v.
Proof.
  intros Hv. unfold readUInt32.
  rewrite <- (le_value_le_bytes 4 v) at 2 by (cbn; lia).
  apply reads_readLE. apply length_le_bytes.
Qed.

(** A step that consumes nothing, then the rest. *)
Lemma reads_bind_nil {A B : Type} (m : Parser A) (k : A -> Parser B)
    (bs : list Z) (a : A) (b : B) :
  reads m [] a -> reads (k a) bs b -> reads (bind m k) bs b.
Proof. intros Hm Hk. change bs with ([] ++ bs). eapply reads_bind; eauto. Qed.
(** ** Packed identifiers *)

Lemma bit_set_testbit (m i : Z) :
  0 <= i -> UpdateObjectParser.bit_set m i = Z.testbit m i.
Proof.
  intros Hi. unfold UpdateObjectParser.bit_set.
  rewrite Z.shiftl_1_l.
  destruct (Z.testbit m i) eqn:Hb.
  - apply negb_true_iff, Z.eqb_neq. intros E.
    assert (Hc : Z.testbit (Z.land m (2 ^ i)) i = true).
    { now rewrite Z.land_spec, Hb, Z.pow2_bits_true. }
    rewrite E, Z.bits_0 in Hc. discriminate.
  - apply negb_false_iff, Z.eqb_eq. apply Z.bits_inj'. intros n Hn.
    rewrite Z.land_spec, Z.bits_0, Z.pow2_bits_eqb by lia.
    destruct (Z.eqb_spec i n) as [-> |]; [now rewrite Hb | apply andb_false_r].
Qed.

Lemma testbit_mask_of (bs : list Z) (j : nat) :
  (j < length bs)%nat ->
  Z.testbit (mask_of bs) (Z.of_nat j) = negb (nth j bs 0 =? 0).
Proof.
  revert j. induction bs as [| b bs IH]; intros j Hj; [cbn in Hj; lia |].
  cbn [mask_of]. rewrite Z.lor_spec. destruct j as [| j].
  - cbn [nth Z.of_nat]. rewrite Z.shiftl_spec_low by lia.
    now destruct (b =? 0).
  - cbn [nth]. rewrite Z.shiftl_spec by lia.
    replace (Z.of_nat (S j) - 1) with (Z.of_nat j) by lia.
    rewrite IH by (cbn in Hj; lia).
    replace (Z.testbit (if b =? 0 then 0 else 1) (Z.of_nat (S j))) with false; [reflexivity |].
    destruct (b =? 0); [now rewrite Z.bits_0 |].
    symmetry. change 1 with (2 ^ 0). apply Z.pow2_bits_false. lia.
Qed.

(** The byte loop of [readPackedGuid] from byte position [k] on: the bytes
    [bs] that the mask announces are read where they are not zero. *)
Lemma readPackedGuid_loop (mask : Z) (bs : list Z) :
  forall (k : nat) (acc : Z),
    (forall j, (j < length bs)%nat ->
               Z.testbit mask (Z.of_nat (k + j)) = negb (nth j bs 0 =? 0)) ->
    reads (foldM (fun guid i =>
                    if UpdateObjectParser.bit_set mask i then
                      byte <- readUInt8 ;;
                      ret (Z.lor guid (Z.shiftl byte (i * 8)))
                    else ret guid)
                 (map Z.of_nat (seq k (length bs))) acc)
          (filter (fun b => b <> 0) bs)
          (Z.lor acc (Z.shiftl (le_value bs) (8 * Z.of_nat k))).
Proof.
  induction bs as [| b bs IH]; intros k acc Hmask.
  - cbn. rewrite Z.shiftl_0_l, Z.lor_0_r. apply reads_ret.
  - cbn [length seq map foldM le_value].
    pose proof (Hmask 0%nat ltac:(cbn; lia)) as H0.
    rewrite Nat.add_0_r in H0. cbn [nth] in H0.
    rewrite bit_set_testbit, H0 by lia.
    assert (Hrest : forall j, (j < length bs)%nat ->
              Z.testbit mask (Z.of_nat (S k + j)) = negb (nth j bs 0 =? 0)).
    { intros j Hj. specialize (Hmask (S j) ltac:(cbn; lia)).
      cbn [nth] in Hmask. rewrite <- Hmask. f_equal. lia. }
    destruct (Z.eqb_spec b 0) as [-> | Hb]; cbn [negb].
    + rewrite filter_cons_False by tauto.
      eapply reads_bind_nil; [apply reads_ret |].
      specialize (IH (S k) acc Hrest).
      rewrite Z.lor_0_l, Z.shiftl_shiftl by lia.
      replace (8 + 8 * Z.of_nat k) with (8 * Z.of_nat (S k)) by lia.
      exact IH.
    + rewrite filter_cons_True by exact Hb.
      change (b :: filter (fun b0 => b0 <> 0) bs)
        with ([b] ++ filter (fun b0 => b0 <> 0) bs).
      eapply reads_bind.
      * change [b] with ([b] ++ []).
        eapply reads_bind; [apply reads_readUInt8 | apply reads_ret].
      * specialize (IH (S k) (Z.lor acc (Z.shiftl b (Z.of_nat k * 8))) Hrest).
        rewrite Z.shiftl_lor, Z.shiftl_shiftl, Z.lor_assoc by lia.
        replace (8 + 8 * Z.of_nat k) with (8 * Z.of_nat (S k)) by lia.
        replace (8 * Z.of_nat k) with (Z.of_nat k * 8) by lia.
        exact IH.
Qed.

Lemma mask_of_zero (bs : list Z) :
  mask_of bs = 0 -> filter (fun b => b <> 0) bs = [] /\ le_value bs = 0.
Proof.
  intros Hm.
  assert (Hall : forall j, (j < length bs)%nat -> nth j bs 0 = 0).
  { intros j Hj. pose proof (testbit_mask_of bs j Hj) as Ht.
    rewrite Hm, Z.bits_0 in Ht. symmetry in Ht.
    apply negb_false_iff in Ht. now apply Z.eqb_eq. }
  clear Hm. induction bs as [| b bs IH]; [now split |].
  pose proof (Hall 0%nat ltac:(cbn; lia)) as Hb. cbn in Hb. subst b.
  destruct IH as [IH1 IH2].
  { intros j Hj. apply (Hall (S j)). cbn. lia. }
  split.
  - now rewrite filter_cons_False by tauto.
  - cbn [le_value]. now rewrite IH2.
Qed.

Lemma readPackedGuid_reads (guid : Z) :
  0 <= guid < 2 ^ 64 ->
  reads UpdateObjectParser.readPackedGuid (writePackedGuid guid) guid.
Proof.
  intros Hg. unfold UpdateObjectParser.readPackedGuid, writePackedGuid.
  set (bytes := le_bytes 8 guid).
  assert (Hlen : length bytes = 8%nat) by apply length_le_bytes.
  assert (Hval : le_value bytes = guid) by (apply le_value_le_bytes; cbn; lia).
  change (mask_of bytes :: filter (fun b => b <> 0) bytes)
    with ([mask_of bytes] ++ filter (fun b => b <> 0) bytes).
  eapply reads_bind; [apply reads_readUInt8 |].
  destruct (Z.eqb_spec (mask_of bytes) 0) as [Hz | Hnz].
  - destruct (mask_of_zero bytes Hz) as [Hf Hv].
    rewrite Hf, <- Hval, Hv. apply reads_ret.
  - pose proof (readPackedGuid_loop (mask_of bytes) bytes 0 0) as Hloop.
    rewrite Hlen in Hloop. cbn [Z.of_nat Z.mul] in Hloop.
    rewrite Z.shiftl_0_r, Z.lor_0_l, Hval in Hloop.
    apply Hloop. intros j Hj. cbn [Nat.add].
    apply testbit_mask_of. rewrite Hlen. exact Hj.
Qed.

(** C8: for every 64-bit identifier, [readPackedGuid] on a packet whose
    unread bytes start with the packed form of the identifier returns the
    identifier and leaves the cursor right after the packed form; for the
    identifier 0 the packed form is the single mask byte 0, so a zero mask
    byte gives 0 and only that byte is consumed. *)
Theorem readPackedGuid_inverts_writePackedGuid :
  forall (guid : Z) (p : Packet.t) (l : Log) (rest : list Z),
    0 <= guid < 2 ^ 64 ->
    Packet.remaining p = writePackedGuid guid ++ rest ->
    let r := run_parser UpdateObjectParser.readPackedGuid p l in
    fst r = Done guid
    /\ pkt (snd r) = advance p (length (writePackedGuid guid))
    /\ Packet.remaining (pkt (snd r)) = rest
    /\ (guid = 0 -> writePackedGuid guid = [0]
                    /\ Packet.readPos (pkt (snd r)) = S (Packet.readPos p)).
Proof.
  intros guid p l rest Hg Hr. cbn zeta. unfold run_parser.
  destruct (readPackedGuid_reads guid Hg p l rest Hr) as [l' E].
  rewrite E. cbn [fst snd pkt]. repeat split.
  - now apply remaining_advance.
  - now subst guid.
  - subst guid. replace (writePackedGuid 0) with [0] by reflexivity.
    unfold advance, Packet.setReadPos. cbn [Packet.readPos length]. lia.
Qed.

(** The four identifiers of the decoder test, decoded from their packed
    form followed by two foreign bytes. *)
Lemma readPackedGuid_inverts_writePackedGuid_witness :
  Forall (fun guid =>
            let p := Packet.mk SMSG_UPDATE_OBJECT (writePackedGuid guid ++ [7; 9]) 0 in
            let r := run_parser UpdateObjectParser.readPackedGuid p [] in
            fst r = Done guid /\ Packet.remaining (pkt (snd r)) = [7; 9])
         [0; 0xFF; 0x1122334455667788; 0x00000000000000FF].
Proof.
  repeat (apply List.Forall_cons; [split |]); try apply List.Forall_nil;
    match goal with
    | |- fst (run_parser _ (Packet.mk _ (writePackedGuid ?g ++ _) _) _) = _ =>
        exact (proj1 (readPackedGuid_inverts_writePackedGuid g
                 (Packet.mk SMSG_UPDATE_OBJECT (writePackedGuid g ++ [7; 9]) 0) [] [7; 9]
                 ltac:(lia) eq_refl))
    | |- Packet.remaining _ = _ =>
        match goal with
        | |- context [writePackedGuid ?g] =>
            exact (proj1 (proj2 (proj2 (readPackedGuid_inverts_writePackedGuid g
                 (Packet.mk SMSG_UPDATE_OBJECT (writePackedGuid g ++ [7; 9]) 0) [] [7; 9]
                 ltac:(lia) eq_refl))))
        end
    end.
Defined.

(** ** Bitmask field decoding *)

Lemma record_fields_app (fs : gmap Z Z) (i1 i2 v1 v2 : list Z) :
  length i1 = length v1 ->
  record_fields fs (i1 ++ i2) (v1 ++ v2) = record_fields (record_fields fs i1 v1) i2 v2.
Proof.
  intros Hl. unfold record_fields.
  rewrite zip_with_app by exact Hl. apply fold_left_app.
Qed.

Lemma set_fields_set_fields (b : UpdateBlock.t) (f1 f2 : gmap Z Z) :
  UpdateBlock.set_fields (UpdateBlock.set_fields b f1) f2 = UpdateBlock.set_fields b f2.
Proof. reflexivity. Qed.

Lemma set_fields_id (b : UpdateBlock.t) : UpdateBlock.set_fields b (UpdateBlock.fields b) = b.
Proof. now destruct b. Qed.

Lemma reads_read_masks (ms : list Z) :
  forall (k : nat) (acc : list Z),
    Forall word32 ms ->
    reads (foldM (fun acc (_ : nat) => m <- readUInt32 ;; ret (acc ++ [m]))
                 (seq k (length ms)) acc)
          (concat (map (le_bytes 4) ms)) (acc ++ ms).
Proof.
  induction ms as [| m ms IH]; intros k acc Hms.
  - cbn. rewrite app_nil_r. apply reads_ret.
  - inversion Hms as [| ? ? Hm Hms']; subst.
    cbn [length seq foldM map concat].
    eapply reads_bind.
    + rewrite <- (app_nil_r (le_bytes 4 m)).
      eapply reads_bind; [now apply reads_readUInt32 | apply reads_ret].
    + replace (acc ++ m :: ms) with ((acc ++ [m]) ++ ms) by now rewrite <- app_assoc.
      now apply IH.
Qed.

(** The bit loop of one mask word over the bit positions [bl]. *)
Lemma parseMaskWord_loop (w mask : Z) (bl : list Z) :
  0 <= w < 256 ->
  Forall (fun b => 0 <= b < 32) bl ->
  forall (vals : list Z) (block : UpdateBlock.t),
    Forall word32 vals ->
    length vals = length (filter (fun b => Z.testbit mask b = true) bl) ->
    reads (foldM (fun block bit =>
                    if UpdateObjectParser.bit_set mask bit then
                      let fieldIndex := u16 (w * 32 + bit) in
                      value <- readUInt32 ;;
                      plog_call DEBUG "    Field[" ;;;
                      ret (UpdateBlock.set_field block fieldIndex value)
                    else ret block) bl block)
          (concat (map (le_bytes 4) vals))
          (UpdateBlock.set_fields block
             (record_fields (UpdateBlock.fields block)
                (map (fun b => w * 32 + b) (filter (fun b => Z.testbit mask b = true) bl))
                vals)).
Proof.
  intros Hw Hbl. induction Hbl as [| b bl Hb Hbl IH]; intros vals block Hvals Hlen.
  - cbn in Hlen. destruct vals; [| discriminate].
    cbn. rewrite set_fields_id. apply reads_ret.
  - cbn [foldM]. rewrite bit_set_testbit by lia.
    destruct (Z.testbit mask b) eqn:Hbit.
    + rewrite filter_cons_True in * by exact Hbit.
      destruct vals as [| v vals]; [discriminate |].
      inversion Hvals as [| ? ? Hv Hvals']; subst.
      cbn [map concat].
      eapply reads_bind.
      * rewrite <- (app_nil_r (le_bytes 4 v)).
        eapply reads_bind; [now apply reads_readUInt32 |].
        eapply reads_bind_nil; [apply reads_plog | apply reads_ret].
      * assert (Hu : u16 (w * 32 + b) = w * 32 + b) by (unfold u16; apply Z.mod_small; lia).
        rewrite Hu.
        specialize (IH vals (UpdateBlock.set_field block (w * 32 + b) v) Hvals'
                       ltac:(cbn in Hlen; lia)).
        unfold UpdateBlock.set_field in IH at 2 3.
        rewrite set_fields_set_fields in IH. exact IH.
    + rewrite filter_cons_False in * by congruence.
      eapply reads_bind_nil; [apply reads_ret |]. now apply IH.
Qed.

Lemma parseMaskWord_reads (w mask : Z) (vals : list Z) (block : UpdateBlock.t) :
  0 <= w < 256 ->
  Forall word32 vals ->
  length vals = length (set_bits mask) ->
  reads (UpdateObjectParser.parseMaskWord w mask block)
        (concat (map (le_bytes 4) vals))
        (UpdateBlock.set_fields block
           (record_fields (UpdateBlock.fields block)
              (map (fun b => w * 32 + b) (set_bits mask)) vals)).
Proof.
  intros Hw Hvals Hlen. unfold UpdateObjectParser.parseMaskWord, set_bits.
  apply parseMaskWord_loop; try assumption.
  apply List.Forall_forall. intros b Hb. apply in_map_iff in Hb as [i [<- Hi]].
  apply in_seq in Hi. lia.
Qed.

(** The loop over the mask words [suf] that follow the words [pre]. *)
Lemma parseUpdateFields_words (suf : list Z) :
  forall (pre vals : list Z) (block : UpdateBlock.t),
    (length (pre ++ suf) < 256)%nat ->
    Forall word32 vals ->
    length vals = length (field_indices (Z.of_nat (length pre)) suf) ->
    reads (foldM (fun block blockIdx =>
                    UpdateObjectParser.parseMaskWord (Z.of_nat blockIdx)
                      (nth blockIdx (pre ++ suf) 0) block)
                 (seq (length pre) (length suf)) block)
          (concat (map (le_bytes 4) vals))
          (UpdateBlock.set_fields block
             (record_fields (UpdateBlock.fields block)
                (field_indices (Z.of_nat (length pre)) suf) vals)).
Proof.
  induction suf as [| m suf IH]; intros pre vals block Hlen Hvals Hn.
  - cbn in Hn. destruct vals; [| discriminate].
    cbn. rewrite set_fields_id. apply reads_ret.
  - cbn [length seq foldM field_indices] in *.
    rewrite length_app, length_map in Hn.
    set (n := length (set_bits m)) in *.
    rewrite <- (firstn_skipn n vals).
    rewrite map_app, concat_app.
    assert (Hn1 : length (firstn n vals) = n) by (rewrite length_firstn; lia).
    rewrite record_fields_app by (now rewrite length_map).
    rewrite nth_middle.
    eapply reads_bind.
    + apply parseMaskWord_reads.
      * rewrite length_app in Hlen. cbn in Hlen. lia.
      * now apply Forall_take.
      * exact Hn1.
    + specialize (IH (pre ++ [m]) (skipn n vals)
                     (UpdateBlock.set_fields block
                        (record_fields (UpdateBlock.fields block)
                           (map (fun b => Z.of_nat (length pre) * 32 + b) (set_bits m))
                           (firstn n vals)))).
      assert (E : length (pre ++ [m]) = S (length pre))
        by (rewrite length_app; cbn [length]; lia).
      rewrite <- app_assoc in IH. cbn [app] in IH.
      rewrite E in IH.
      replace (Z.of_nat (S (length pre))) with (Z.of_nat (length pre) + 1) in IH by lia.
      rewrite set_fields_set_fields in IH.
      apply IH.
      * exact Hlen.
      * now apply Forall_drop.
      * rewrite length_skipn. lia.
Qed.

Lemma parseUpdateFields_reads (block : UpdateBlock.t) (masks values : list Z) :
  (length masks < 256)%nat ->
  Forall word32 masks ->
  Forall word32 values ->
  length values = length (field_indices 0 masks) ->
  reads (UpdateObjectParser.parseUpdateFields block)
        (update_fields_image masks values)
        (true, UpdateBlock.set_fields block
                 (record_fields (UpdateBlock.fields block) (field_indices 0 masks) values)).
Proof.
  intros Hlen Hm Hv Hn. unfold UpdateObjectParser.parseUpdateFields, update_fields_image.
  change (Z.of_nat (length masks) :: ?r) with ([Z.of_nat (length masks)] ++ r).
  eapply reads_bind; [apply reads_readUInt8 |].
  destruct masks as [| m masks].
  - cbn in Hn. destruct values; [| discriminate].
    cbn. rewrite set_fields_id. apply reads_ret.
  - replace (Z.of_nat (length (m :: masks)) =? 0) with false
      by (symmetry; apply Z.eqb_neq; cbn [length]; lia).
    rewrite Nat2Z.id.
    eapply reads_bind_nil; [apply reads_plog |].
    eapply reads_bind.
    { apply (reads_read_masks (m :: masks) 0 []). exact Hm. }
    cbn [app].
    rewrite <- (app_nil_r (concat (map (le_bytes 4) values))).
    eapply reads_bind.
    { apply (parseUpdateFields_words (m :: masks) [] values block); assumption. }
    eapply reads_bind_nil; [apply reads_plog | apply reads_ret].
Qed.


Lemma record_fields_lookup_notin (indices : list Z) :
  forall (values : list Z) (fs : gmap Z Z) (i : Z),
    i ∉ indices -> record_fields fs indices values !! i = fs !! i.
Proof.
  induction indices as [| i0 indices IH]; intros values fs i Hi; [reflexivity |].
  destruct values as [| v0 values]; [reflexivity |].
  apply not_elem_of_cons in Hi as [Hne Hi].
  change (record_fields fs (i0 :: indices) (v0 :: values))
    with (record_fields (<[i0 := v0]> fs) indices values).
  rewrite IH by exact Hi. now apply lookup_insert_ne.
Qed.

Lemma record_fields_lookup (indices : list Z) :
  forall (values : list Z) (fs : gmap Z Z) (k : nat) (i v : Z),
    NoDup indices ->
    indices !! k = Some i -> values !! k = Some v ->
    record_fields fs indices values !! i = Some v.
Proof.
  induction indices as [| i0 indices IH]; intros values fs k i v Hnd Hi Hv;
    [now rewrite lookup_nil in Hi |].
  destruct values as [| v0 values]; [now rewrite lookup_nil in Hv |].
  apply NoDup_cons in Hnd as [Hnotin Hnd].
  change (record_fields fs (i0 :: indices) (v0 :: values))
    with (record_fields (<[i0 := v0]> fs) indices values).
  destruct k as [| k]; cbn in Hi, Hv.
  - injection Hi as ->. injection Hv as ->.
    rewrite record_fields_lookup_notin by exact Hnotin. apply lookup_insert_eq.
  - eapply IH; eauto.
Qed.

Lemma set_bits_range (mask b : Z) : b ∈ set_bits mask -> 0 <= b < 32.
Proof.
  unfold set_bits. intros Hb. apply list_elem_of_filter in Hb as [_ Hb].
  apply list_elem_of_In, in_map_iff in Hb as [i [<- Hi]]. apply in_seq in Hi. lia.
Qed.

Lemma set_bits_NoDup (mask : Z) : NoDup (set_bits mask).
Proof.
  unfold set_bits. apply NoDup_filter.
  apply (NoDup_fmap_2 Z.of_nat). apply NoDup_seq.
Qed.

Lemma field_indices_range (masks : list Z) :
  forall (w0 i : Z), i ∈ field_indices w0 masks -> w0 * 32 <= i.
Proof.
  induction masks as [| m masks IH]; intros w0 i Hi; cbn [field_indices] in Hi.
  - now apply elem_of_nil in Hi.
  - apply elem_of_app in Hi as [Hi | Hi].
    + apply list_elem_of_In, in_map_iff in Hi as [b [<- Hb]].
      apply list_elem_of_In, set_bits_range in Hb. lia.
    + apply IH in Hi. lia.
Qed.

Lemma field_indices_NoDup (masks : list Z) :
  forall (w0 : Z), NoDup (field_indices w0 masks).
Proof.
  induction masks as [| m masks IH]; intros w0; cbn [field_indices].
  - apply NoDup_nil_2.
  - apply NoDup_app. split; [| split].
    + assert (Hinj : Inj eq eq (fun b : Z => w0 * 32 + b)) by (intros a b Hab; lia).
      apply (NoDup_fmap_2 (fun b => w0 * 32 + b)). apply set_bits_NoDup.
    + intros i Hi Hi'.
      apply list_elem_of_In, in_map_iff in Hi as [b [<- Hb]].
      apply list_elem_of_In, set_bits_range in Hb.
      apply field_indices_range in Hi'. lia.
    + apply IH.
Qed.

(** C7: on a packet whose unread bytes are a block count, that many 32-bit
    mask words and one 32-bit value per set mask bit, [parseUpdateFields]
    returns [true], consumes exactly these bytes, and leaves in the block
    the values recorded against the indices [wordIndex * 32 + bitIndex] of
    the set bits, taken in mask-word order and then from the least
    significant bit: the [k]-th index is bound to the [k]-th value.  With
    the single mask word 0b101 and an empty field map the result is
    exactly [{0 := v1; 2 := v2}]. *)
Theorem parseUpdateFields_bitmask_decoding :
  forall (block : UpdateBlock.t) (masks values : list Z)
         (p : Packet.t) (l : Log) (rest : list Z),
    (length masks < 256)%nat ->
    Forall word32 masks ->
    Forall word32 values ->
    length values = length (field_indices 0 masks) ->
    Packet.remaining p = update_fields_image masks values ++ rest ->
    let r := run_parser (UpdateObjectParser.parseUpdateFields block) p l in
    let fs := record_fields (UpdateBlock.fields block) (field_indices 0 masks) values in
    fst r = Done (true, UpdateBlock.set_fields block fs)
    /\ pkt (snd r) = advance p (1 + 4 * length masks + 4 * length values)
    /\ Packet.remaining (pkt (snd r)) = rest
    /\ (forall k i v, field_indices 0 masks !! k = Some i -> values !! k = Some v ->
                      fs !! i = Some v)
    /\ (forall i, i ∉ field_indices 0 masks -> fs !! i = UpdateBlock.fields block !! i)
    /\ (masks = [5] -> UpdateBlock.fields block = ∅ ->
        exists v1 v2, values = [v1; v2]
                      /\ fs = <[2 := v2]> (<[0 := v1]> ∅)
                      /\ dom fs = {[0; 2]}).
Proof.
  intros block masks values p l rest Hlen Hm Hv Hn Hr. cbn zeta.
  unfold run_parser.
  destruct (parseUpdateFields_reads block masks values Hlen Hm Hv Hn p l rest Hr)
    as [l' E].
  rewrite E. cbn [fst snd pkt].
  assert (Hsz : length (update_fields_image masks values)
                = (1 + 4 * length masks + 4 * length values)%nat).
  { unfold update_fields_image. cbn [length]. rewrite length_app.
    assert (Hc : forall vs : list Z, length (concat (map (le_bytes 4) vs)) = (4 * length vs)%nat).
    { induction vs as [| a vs IH]; [reflexivity |].
      cbn [map concat length]. rewrite length_app, length_le_bytes, IH. lia. }
    rewrite !Hc. lia. }
  repeat split.
  - now rewrite Hsz.
  - now apply remaining_advance.
  - intros k i v Hi Hv'. eapply record_fields_lookup; eauto.
    apply field_indices_NoDup.
  - intros i Hi. now apply record_fields_lookup_notin.
  - intros -> Hempty. rewrite Hempty.
    change (field_indices 0 [5]) with [0; 2] in *.
    destruct values as [| v1 [| v2 [| v3 values]]]; try discriminate.
    exists v1, v2. split; [reflexivity |]. split; [reflexivity |].
    unfold record_fields. cbn [zip_with fold_left fst snd].
    rewrite !dom_insert_L, dom_empty_L. set_solver.
Qed.

(** The decoder test: mask word 0b101 and two payload words. *)
Lemma parseUpdateFields_bitmask_decoding_witness :
  let block := @UpdateObjectParser.UpdateBlock_new wotlk_env in
  let p := Packet.mk SMSG_UPDATE_OBJECT
             (update_fields_image [5] [0xAABBCCDD; 0x11223344] ++ [9; 9]) 0 in
  let r := run_parser (UpdateObjectParser.parseUpdateFields block) p [] in
  fst r = Done (true, UpdateBlock.set_fields block
                        (<[2 := 0x11223344]> (<[0 := 0xAABBCCDD]> ∅)))
  /\ Packet.remaining (pkt (snd r)) = [9; 9].
Proof.
  cbn zeta.
  pose proof (parseUpdateFields_bitmask_decoding
                (@UpdateObjectParser.UpdateBlock_new wotlk_env)
                [5] [0xAABBCCDD; 0x11223344]
                (Packet.mk SMSG_UPDATE_OBJECT
                   (update_fields_image [5] [0xAABBCCDD; 0x11223344] ++ [9; 9]) 0)
                [] [9; 9]
                ltac:(cbn; lia)
                ltac:(repeat constructor; unfold word32; lia)
                ltac:(repeat constructor; unfold word32; lia)
                eq_refl eq_refl) as [H1 [_ [H3 _]]].
  split; [exact H1 | exact H3].
Defined.
(** ** The session state machine *)

Section Session.
Context `{WorldEnv}.

Import GameHandler.

(** The two outcomes of [connect]. *)
Lemma connect_effect :
  forall (g : GameHandler.t) (host : string) (port : Z) (key account : list Z)
         (build seed : Z) (connOk : bool),
    let r := connect host port key account build seed connOk g in
    (length key <> 40%nat ->
       fst r = Done false
       /\ state (snd r) = FAILED
       /\ trace (snd r) = trace g ++ [EvOnFailure "Invalid session key"]
       /\ socket (snd r) = socket g
       /\ sessionKey (snd r) = sessionKey g)
    /\ (length key = 40%nat ->
       fst r = Done connOk
       /\ sessionKey (snd r) = key
       /\ socket (snd r) = true
       /\ state (snd r) = (if connOk then CONNECTED else FAILED)
       /\ trace (snd r)
          = trace g ++ EvConnect host port connOk
                    :: (if connOk then [] else [EvOnFailure "Connection failed"])).
Proof.
  intros g host port key account build0 seed connOk. cbn zeta. unfold connect. split; intros Hlen.
  - apply Nat.eqb_neq in Hlen. rewrite Hlen. cbn [negb].
    unfold fail, setState, bind, LOG, emit, modify, gets, ret. cbn.
    case_bool_decide; cbn; repeat split; try reflexivity; try congruence.
  - apply Nat.eqb_eq in Hlen. rewrite Hlen. cbn [negb].
    unfold fail, setState, bind, LOGS, LOG, emit, modify, gets, ret. cbn.
    destruct connOk; cbn;
      repeat (case_bool_decide; cbn); repeat split; try reflexivity; try congruence;
      now rewrite <- app_assoc.
Qed.



(** C9: a session key whose length is not 40 makes [connect] return
    [false] with the handler in [FAILED], the failure callback told once,
    no socket created and no connection attempted; with a 40-byte key the
    key is stored and the connection is attempted, and the result is the
    answer of the socket. *)
Theorem connect_checks_session_key_length :
  forall (g : GameHandler.t) (host : string) (port : Z) (key account : list Z)
         (build seed : Z) (connOk : bool),
    let r := connect host port key account build seed connOk g in
    (length key <> 40%nat ->
       fst r = Done false
       /\ state (snd r) = FAILED
       /\ trace (snd r) = trace g ++ [EvOnFailure "Invalid session key"]
       /\ socket (snd r) = socket g
       /\ sessionKey (snd r) = sessionKey g)
    /\ (length key = 40%nat ->
       fst r = Done connOk
       /\ sessionKey (snd r) = key
       /\ socket (snd r) = true
       /\ state (snd r) = (if connOk then CONNECTED else FAILED)
       /\ trace (snd r)
          = trace g ++ EvConnect host port connOk
                    :: (if connOk then [] else [EvOnFailure "Connection failed"])).
Proof. exact connect_effect. Qed.

End Session.

(** Example: a 39-byte key is refused, a 40-byte key is accepted. *)
Lemma connect_checks_session_key_length_witness :
  let g := @GameHandler.new wotlk_env in
  (GameHandler.state
     (snd (GameHandler.connect "127.0.0.1" 8085 (repeat 7 39%nat)
             (bytes_of_string "player") 12340 1 true g)) = FAILED)
  /\ (GameHandler.state
        (snd (GameHandler.connect "127.0.0.1" 8085 (repeat 7 40%nat)
                (bytes_of_string "player") 12340 1 true g)) = CONNECTED).
Proof.
  cbn zeta. split.
  - exact (proj1 (proj2 (proj1 (@connect_checks_session_key_length wotlk_env
             (@GameHandler.new wotlk_env) "127.0.0.1" 8085 (repeat 7 39%nat)
             (bytes_of_string "player") 12340 1 true) ltac:(cbn; lia)))).
  - exact (proj1 (proj2 (proj2 (proj2 (proj2 (@connect_checks_session_key_length wotlk_env
             (@GameHandler.new wotlk_env) "127.0.0.1" 8085 (repeat 7 40%nat)
             (bytes_of_string "player") 12340 1 true) ltac:(cbn; lia)))))).
Defined.

Ltac log_levels :=
  repeat (apply List.Forall_cons; [cbn; auto |]); apply List.Forall_nil.

(** ** What the decoders log *)

Lemma count_log_app (e : LogEntry) (d1 d2 : Log) :
  count_log e (d1 ++ d2) = (count_log e d1 + count_log e d2)%nat.
Proof. unfold count_log. now rewrite filter_app, length_app. Qed.


Lemma count_log_cons_other (e x : LogEntry) (d : Log) :
  LogEntry_eqb e x = false -> count_log e (x :: d) = count_log e d.
Proof.
  intros Hx. unfold count_log. rewrite filter_cons_False; [reflexivity |].
  rewrite Hx. discriminate.
Qed.



Lemma quiet_ret {A : Type} (e : LogEntry) (a : A) : quiet e (ret a).
Proof. intros s. exists []. cbn. now rewrite app_nil_r. Qed.

Lemma quiet_bind {A B : Type} (e : LogEntry) (m : Parser A) (k : A -> Parser B) :
  quiet e m -> (forall a, quiet e (k a)) -> quiet e (bind m k).
Proof.
  intros Hm Hk s. unfold bind.
  destruct (Hm s) as [d1 [E1 C1]].
  destruct (m s) as [[a |] s1] eqn:Ems; cbn [snd] in E1.
  - destruct (Hk a s1) as [d2 [E2 C2]].
    exists (d1 ++ d2). rewrite E2, E1, app_assoc. split; [reflexivity |].
    rewrite count_log_app. lia.
  - exists d1. cbn [snd]. auto.
Qed.

Lemma quiet_plog (e : LogEntry) (lvl : LogLevel) (msg : string) :
  LogEntry_eqb e (lvl, msg) = false -> quiet e (plog_call lvl msg).
Proof.
  intros Hne s. exists [(lvl, msg)]. split; [reflexivity |].
  now rewrite count_log_cons_other.
Qed.

Lemma quiet_lift_read {A : Type} (e : LogEntry) (rd : Packet.t -> option (A * Packet.t)) :
  quiet e (lift_read rd).
Proof.
  intros s. exists []. unfold lift_read.
  destruct (rd (pkt s)) as [[a p'] |]; cbn; now rewrite app_nil_r.
Qed.

Lemma quiet_gets {A : Type} (e : LogEntry) (f : PState -> A) : quiet e (gets f).
Proof. intros s. exists []. cbn. now rewrite app_nil_r. Qed.

Lemma quiet_setReadPos (e : LogEntry) (pos : nat) : quiet e (setReadPos pos).
Proof. intros s. exists []. cbn. now rewrite app_nil_r. Qed.

Lemma quiet_foldM {A B : Type} (e : LogEntry) (f : B -> A -> Parser B) (l : list A) :
  (forall b a, quiet e (f b a)) -> forall b, quiet e (foldM f l b).
Proof.
  intros Hf. induction l as [| a l IH]; intros b; cbn [foldM].
  - apply quiet_ret.
  - apply quiet_bind; [apply Hf | exact IH].
Qed.

(** Decompose a parser into the steps above. *)
Ltac quiet_step :=
  match goal with
  | |- quiet _ (bind _ _) => apply quiet_bind; [| intros ?]
  | |- quiet _ (ret _) => apply quiet_ret
  | |- quiet _ (plog_call _ _) => apply quiet_plog; reflexivity
  | |- quiet _ readUInt8 => apply quiet_lift_read
  | |- quiet _ readUInt16 => apply quiet_lift_read
  | |- quiet _ readUInt32 => apply quiet_lift_read
  | |- quiet _ readUInt64 => apply quiet_lift_read
  | |- quiet _ readFloat => apply quiet_lift_read
  | |- quiet _ getSize => apply quiet_gets
  | |- quiet _ getReadPos => apply quiet_gets
  | |- quiet _ (setReadPos _) => apply quiet_setReadPos
  | |- quiet _ (foldM _ _ _) => apply quiet_foldM; intros ? ?
  | |- quiet _ (if ?b then _ else _) => destruct b
  | |- quiet _ (let '(_, _) := ?r in _) => destruct r
  end.





Section Decoder.
Context `{WorldEnv}.






End Decoder.

Section UpdateObject.
Context `{WorldEnv}.
Import GameHandler.




End UpdateObject.


(** ** The ordering of the cipher initialisation *)

Lemma cipher_ordered_from_app (tr d : list Event) :
  forall b, cipher_ordered_from b tr -> cipher_ordered_from false d ->
            cipher_ordered_from b (tr ++ d).
Proof.
  induction tr as [| e tr IH]; intros b Htr Hd.
  - cbn in Htr. now subst b.
  - destruct e; cbn [app cipher_ordered_from] in *;
      repeat match goal with H : _ /\ _ |- _ => destruct H end;
      repeat split; auto.
Qed.

Lemma cipher_ordered_neutral (tr : list Event) (e : Event) :
  cipher_ordered tr -> neutral e = true -> cipher_ordered (tr ++ [e]).
Proof.
  intros Htr He. apply cipher_ordered_from_app; [exact Htr |].
  destruct e; cbn in *; try discriminate; repeat split.
  now apply negb_true_iff in He.
Qed.

Lemma cipher_ordered_handshake (tr : list Event) (p : Packet.t) (k : list Z) :
  cipher_ordered tr -> is_auth_session p = true -> length k = 40%nat ->
  cipher_ordered (tr ++ [EvSend p; EvInitEncryption k]).
Proof.
  intros Htr Hp Hk. apply cipher_ordered_from_app; [exact Htr |].
  cbn. rewrite Hp. repeat split. exact Hk.
Qed.

(** In an ordered history the credentials message is directly followed by
    the initialisation of the cipher. *)
Lemma cipher_ordered_after_send (pre : list Event) :
  forall (b : bool) (p : Packet.t) (post : list Event),
    cipher_ordered_from b (pre ++ EvSend p :: post) ->
    is_auth_session p = true ->
    exists k post', post = EvInitEncryption k :: post' /\ length k = 40%nat.
Proof.
  induction pre as [| e pre IH]; intros b p post Hord Hp.
  - cbn in Hord. destruct Hord as [_ Hord]. rewrite Hp in Hord.
    destruct post as [| e post]; [discriminate |].
    destruct e; cbn in Hord; destruct Hord as [Hb Hrest]; try discriminate.
    destruct Hrest as [Hk _]. eauto.
  - destruct e; cbn [app cipher_ordered_from] in Hord;
      repeat match goal with H : _ /\ _ |- _ => destruct H end; eauto.
Qed.

(** In an ordered history the cipher is initialised only directly after
    the credentials message. *)
Lemma cipher_ordered_before_init (pre : list Event) :
  forall (b : bool) (k : list Z) (post : list Event),
    cipher_ordered_from b (pre ++ EvInitEncryption k :: post) ->
    length k = 40%nat
    /\ ((pre = [] /\ b = true)
        \/ exists pre' p, pre = pre' ++ [EvSend p] /\ is_auth_session p = true).
Proof.
  induction pre as [| e pre IH]; intros b k post Hord.
  - cbn in Hord. destruct Hord as [Hb [Hk _]]. auto.
  - assert (Hrest : exists b', cipher_ordered_from b' (pre ++ EvInitEncryption k :: post)
                               /\ (b' = true -> exists p, e = EvSend p /\ is_auth_session p = true)).
    { destruct e; cbn [app cipher_ordered_from] in Hord;
        repeat match goal with H : _ /\ _ |- _ => destruct H end;
        try (exists false; split; [assumption | discriminate]).
      exists (is_auth_session packet). split; [assumption |]. eauto. }
    destruct Hrest as [b' [Hord' Hb']].
    destruct (IH b' k post Hord') as [Hk [[-> ->] | [pre' [p [-> Hp]]]]].
    + split; [exact Hk |]. right.
      destruct (Hb' eq_refl) as [p [-> Hp]]. exists [], p. auto.
    + split; [exact Hk |]. right. exists (e :: pre'), p. auto.
Qed.

Section Keeps.
Context `{WorldEnv}.
Import GameHandler.

Variable P : GameHandler.t -> Prop.
Hypothesis P_core : forall g g', core g = core g' -> P g -> P g'.
Hypothesis P_emit : forall g e, neutral e = true -> P g -> P (set_trace (trace g ++ [e]) g).
Hypothesis P_state : forall g X, X <> CONNECTED -> P g -> P (set_state X g).

Lemma keeps_ret {A : Type} (a : A) : keeps P (ret a).
Proof. intros g Hg. exact Hg. Qed.

Lemma keeps_gets {A : Type} (f : GameHandler.t -> A) : keeps P (gets f).
Proof. intros g Hg. exact Hg. Qed.

Lemma keeps_bind {A B : Type} (m : Handler A) (k : A -> Handler B) :
  keeps P m -> (forall a, keeps P (k a)) -> keeps P (bind m k).
Proof.
  intros Hm Hk g Hg. unfold bind. specialize (Hm g Hg).
  destruct (m g) as [[a |] g1]; cbn [snd] in *; [now apply Hk | exact Hm].
Qed.

Lemma keeps_modify (f : GameHandler.t -> GameHandler.t) :
  (forall g, core (f g) = core g) -> keeps P (modify f).
Proof. intros Hf g Hg. cbn. apply (P_core g); [now rewrite Hf | exact Hg]. Qed.

Lemma keeps_LOG (lvl : LogLevel) (msg : string) : keeps P (LOG lvl msg).
Proof. apply keeps_modify. reflexivity. Qed.

Lemma keeps_LOGS (l : Log) : keeps P (LOGS l).
Proof. apply keeps_modify. reflexivity. Qed.

Lemma keeps_emit (e : Event) : neutral e = true -> keeps P (emit e).
Proof. intros He g Hg. cbn. now apply P_emit. Qed.

Lemma keeps_setState (X : WorldState) : X <> CONNECTED -> keeps P (setState X).
Proof.
  intros HX g Hg. unfold setState, bind, gets, LOG, modify. cbn.
  case_bool_decide; cbn; [| exact Hg].
  apply P_state; [exact HX |].
  apply (P_core g); [reflexivity | exact Hg].
Qed.

Lemma keeps_when (b : bool) (m : Handler unit) : keeps P m -> keeps P (when b m).
Proof. intros Hm. destruct b; [exact Hm | apply keeps_ret]. Qed.

Lemma keeps_foldM {A B : Type} (f : B -> A -> Handler B) (l : list A) :
  (forall b a, keeps P (f b a)) -> forall b, keeps P (foldM f l b).
Proof.
  intros Hf. induction l as [| a l IH]; intros b; cbn [foldM].
  - apply keeps_ret.
  - apply keeps_bind; [apply Hf | exact IH].
Qed.

Lemma keeps_call_parser {A : Type} (m : Parser A) (packet : Packet.t) :
  keeps P (call_parser m packet).
Proof.
  intros g Hg. unfold call_parser.
  destruct (run_parser m packet (log g)) as [r ps]. cbn.
  apply (P_core g); [reflexivity | exact Hg].
Qed.

Lemma keeps_fail (reason : string) : keeps P (fail reason).
Proof.
  unfold fail. apply keeps_bind; [apply keeps_LOG | intros _].
  apply keeps_bind; [apply keeps_setState; discriminate | intros _].
  now apply keeps_emit.
Qed.

End Keeps.

(** Decompose a handler into the steps above. *)
Ltac keeps_step :=
  cbv beta;
  match goal with
  | |- keeps _ (bind _ _) => apply keeps_bind; [assumption .. | | intros ?]
  | |- keeps _ (ret _) => apply keeps_ret
  | |- keeps _ (gets _) => apply keeps_gets
  | |- keeps _ (GameHandler.LOG _ _) => apply keeps_LOG; assumption
  | |- keeps _ (GameHandler.LOGS _) => apply keeps_LOGS; assumption
  | |- keeps _ (GameHandler.fail _) => apply keeps_fail; assumption
  | |- keeps _ (GameHandler.setState _) => apply keeps_setState; [assumption .. | discriminate]
  | |- keeps _ (GameHandler.call_parser _ _) => apply keeps_call_parser; assumption
  | |- keeps _ (GameHandler.when _ _) => apply keeps_when
  | |- keeps _ (modify _) => apply keeps_modify; [assumption | intros ?; reflexivity]
  | |- keeps _ (foldM _ _ _) => apply keeps_foldM; intros ? ?
  | |- keeps _ (GameHandler.emit EvOnSuccess) => apply keeps_emit; [assumption | reflexivity]
  | |- keeps _ (GameHandler.emit EvDisconnect) => apply keeps_emit; [assumption | reflexivity]
  | |- keeps _ (GameHandler.emit (EvDeliver _)) => apply keeps_emit; [assumption | reflexivity]
  | |- keeps _ (match ?x with _ => _ end) => destruct x
  end.

Section KeepsHandlers.
Context `{WorldEnv}.
Import GameHandler.

Variable P : GameHandler.t -> Prop.
Hypothesis P_core : forall g g', core g = core g' -> P g -> P g'.
Hypothesis P_emit : forall g e, neutral e = true -> P g -> P (set_trace (trace g ++ [e]) g).
Hypothesis P_state : forall g X, X <> CONNECTED -> P g -> P (set_state X g).

Lemma keeps_handleAuthResponse packet : keeps P (handleAuthResponse packet).
Proof. unfold handleAuthResponse. repeat keeps_step. Qed.

Lemma keeps_handleCharEnum packet : keeps P (handleCharEnum packet).
Proof. unfold handleCharEnum. repeat keeps_step. Qed.

Lemma keeps_handleLoginVerifyWorld packet : keeps P (handleLoginVerifyWorld packet).
Proof. unfold handleLoginVerifyWorld. repeat keeps_step. Qed.

Lemma keeps_handleAccountDataTimes packet : keeps P (handleAccountDataTimes packet).
Proof. unfold handleAccountDataTimes. repeat keeps_step. Qed.

Lemma keeps_handleMotd packet : keeps P (handleMotd packet).
Proof. unfold handleMotd. repeat keeps_step. Qed.

Lemma keeps_handlePong packet : keeps P (handlePong packet).
Proof. unfold handlePong. repeat keeps_step. Qed.

Lemma keeps_applyBlock block : keeps P (applyBlock block).
Proof. unfold applyBlock. repeat keeps_step. Qed.

Lemma keeps_handleUpdateObject packet : keeps P (handleUpdateObject packet).
Proof.
  unfold handleUpdateObject.
  repeat first [apply keeps_applyBlock | keeps_step].
Qed.

Lemma keeps_handleDestroyObject packet : keeps P (handleDestroyObject packet).
Proof. unfold handleDestroyObject. repeat keeps_step. Qed.

Lemma keeps_push_chat msg : keeps P (push_chat msg).
Proof. unfold push_chat. repeat keeps_step. Qed.

Lemma keeps_handleMessageChat packet : keeps P (handleMessageChat packet).
Proof.
  unfold handleMessageChat.
  repeat first [apply keeps_push_chat | keeps_step].
Qed.

Lemma keeps_setTarget guid : keeps P (setTarget guid).
Proof. unfold setTarget. repeat keeps_step. Qed.

Lemma keeps_clearTarget : keeps P clearTarget.
Proof. unfold clearTarget. repeat keeps_step. Qed.

Lemma keeps_tabTarget sorted : keeps P (tabTarget sorted).
Proof.
  unfold tabTarget.
  repeat first [apply keeps_clearTarget | apply keeps_setTarget | keeps_step].
Qed.

Lemma keeps_setPosition x y z : keeps P (setPosition x y z).
Proof. unfold setPosition. repeat keeps_step. Qed.

Lemma keeps_setOrientation o : keeps P (setOrientation o).
Proof. unfold setOrientation. repeat keeps_step. Qed.

Lemma keeps_disconnect : keeps P disconnect.
Proof. unfold disconnect. repeat keeps_step. Qed.

(** Sending a packet that is not the credentials message. *)
Lemma keeps_send (packet : Packet.t) :
  is_auth_session packet = false -> keeps P (emit (EvSend packet)).
Proof. intros Hp. apply keeps_emit; [assumption |]. cbn. now rewrite Hp. Qed.

Lemma keeps_sendPing : keeps P sendPing.
Proof.
  unfold sendPing, PingPacket_build.
  repeat first [apply keeps_send; reflexivity | keeps_step].
Qed.

Lemma keeps_requestCharacterList : keeps P requestCharacterList.
Proof.
  unfold requestCharacterList, CharEnumPacket_build.
  repeat first [apply keeps_send; reflexivity | keeps_step].
Qed.

Lemma keeps_selectCharacter guid : keeps P (selectCharacter guid).
Proof.
  unfold selectCharacter, PlayerLoginPacket_build.
  repeat first [apply keeps_send; reflexivity | keeps_step].
Qed.

Lemma opcode_writeBytes p bs : Packet.opcode (Packet_writeBytes p bs) = Packet.opcode p.
Proof. reflexivity. Qed.

Lemma MovementPacket_build_opcode opcode info :
  Packet.opcode (fst (MovementPacket_build opcode info)) = opcode.
Proof.
  unfold MovementPacket_build. cbn [fst].
  repeat match goal with
         | |- context [if ?b then _ else _] => destruct b
         end; reflexivity.
Qed.

Lemma MessageChatPacket_build_opcode type language message target :
  Packet.opcode (fst (MessageChatPacket_build type language message target))
  = CMSG_MESSAGECHAT.
Proof.
  unfold MessageChatPacket_build. cbn [fst].
  repeat match goal with
         | |- context [if ?b then _ else _] => destruct b
         end; reflexivity.
Qed.

Lemma keeps_sendMovement opcode :
  is_movement_opcode opcode = true -> keeps P (sendMovement opcode).
Proof.
  intros Hop. unfold sendMovement.
  do 2 keeps_step; [keeps_step |].
  repeat (apply keeps_bind; [keeps_step | intros ?]).
  apply keeps_send.
  match goal with
  | info : MovementInfo |- _ =>
      change (is_auth_session (fst (MovementPacket_build opcode info)) = false)
  end.
  unfold is_auth_session. rewrite MovementPacket_build_opcode.
  now destruct opcode.
Qed.

Lemma keeps_sendChatMessage type message target :
  keeps P (sendChatMessage type message target).
Proof.
  unfold sendChatMessage.
  do 2 keeps_step; [keeps_step |].
  destruct message as [| c message]; [keeps_step |].
  repeat (apply keeps_bind; [keeps_step | intros ?]).
  apply keeps_send.
  change (is_auth_session
            (fst (MessageChatPacket_build type ChatLanguage_COMMON (c :: message) target))
          = false).
  unfold is_auth_session. now rewrite MessageChatPacket_build_opcode.
Qed.

End KeepsHandlers.

Section HandshakeInvariant.
Context `{WorldEnv}.
Import GameHandler.

Lemma handshake_inv_core (g g' : GameHandler.t) :
  core g = core g' -> handshake_inv g -> handshake_inv g'.
Proof.
  unfold core, handshake_inv. intros E [Ho Hk].
  injection E as Et Es Ek. rewrite <- Et, <- Es, <- Ek. auto.
Qed.

Lemma handshake_inv_emit (g : GameHandler.t) (e : Event) :
  neutral e = true -> handshake_inv g -> handshake_inv (set_trace (trace g ++ [e]) g).
Proof.
  unfold handshake_inv. intros He [Ho Hk]. cbn. split; [| exact Hk].
  now apply cipher_ordered_neutral.
Qed.

Lemma handshake_inv_state (g : GameHandler.t) (X : WorldState) :
  X <> CONNECTED -> handshake_inv g -> handshake_inv (set_state X g).
Proof.
  unfold handshake_inv. intros HX [Ho Hk]. cbn. split; [exact Ho |]. intros E. contradiction.
Qed.

Lemma keyed_inv_core (g g' : GameHandler.t) :
  core g = core g' -> keyed_inv g -> keyed_inv g'.
Proof.
  unfold core, keyed_inv. intros E [Ho Hk].
  injection E as Et Es Ek. rewrite <- Et, <- Ek. auto.
Qed.

Lemma keyed_inv_emit (g : GameHandler.t) (e : Event) :
  neutral e = true -> keyed_inv g -> keyed_inv (set_trace (trace g ++ [e]) g).
Proof.
  unfold keyed_inv. intros He [Ho Hk]. cbn. split; [| exact Hk].
  now apply cipher_ordered_neutral.
Qed.

Lemma keyed_inv_state (g : GameHandler.t) (X : WorldState) :
  X <> CONNECTED -> keyed_inv g -> keyed_inv (set_state X g).
Proof. unfold keyed_inv. intros _ [Ho Hk]. cbn. auto. Qed.

Lemma keyed_inv_handshake_inv (g : GameHandler.t) : keyed_inv g -> handshake_inv g.
Proof. unfold keyed_inv, handshake_inv. intros [Ho Hk]. auto. Qed.

Lemma AuthSessionPacket_build_opcode b account clientSeed key serverSeed :
  Packet.opcode (fst (AuthSessionPacket_build b account clientSeed key serverSeed))
  = CMSG_AUTH_SESSION.
Proof. reflexivity. Qed.

(** What [sendAuthSession] does: the credentials message is sent, then the
    cipher is initialised with the stored session key, then the state
    becomes [AUTH_SENT]; nothing else happens in between. *)
Lemma sendAuthSession_effect (g : GameHandler.t) :
  let g' := snd (sendAuthSession g) in
  trace g'
  = trace g ++ [EvSend (fst (AuthSessionPacket_build (build g) (accountName g)
                               (clientSeed g) (sessionKey g) (serverSeed g)));
                EvInitEncryption (sessionKey g)]
  /\ sessionKey g' = sessionKey g
  /\ state g' = AUTH_SENT.
Proof.
  cbn zeta. unfold sendAuthSession.
  unfold bind at 1. unfold LOG at 1. unfold modify at 1. cbn beta iota.
  unfold bind at 1. unfold gets at 1. cbn beta iota.
  cbn [build accountName clientSeed sessionKey serverSeed set_log].
  destruct (AuthSessionPacket_build (build g) (accountName g) (clientSeed g)
              (sessionKey g) (serverSeed g)) as [packet lb].
  cbn [fst].
  unfold bind, LOGS, LOG, emit, setState, modify, gets. cbn.
  case_bool_decide; cbn; rewrite <- ?app_assoc; repeat split; try reflexivity.
  now apply dec_stable.
Qed.

Lemma keeps_sendAuthSession : keeps keyed_inv sendAuthSession.
Proof.
  intros g [Ho Hk]. destruct (sendAuthSession_effect g) as [Et [Ek Es]].
  unfold keyed_inv. rewrite Et, Ek. split; [| exact Hk].
  apply cipher_ordered_handshake; [exact Ho | | exact Hk].
  unfold is_auth_session. now rewrite AuthSessionPacket_build_opcode.
Qed.

Lemma keeps_handleAuthChallenge packet : keeps keyed_inv (handleAuthChallenge packet).
Proof.
  pose proof keyed_inv_core as P_core.
  pose proof keyed_inv_emit as P_emit.
  pose proof keyed_inv_state as P_state.
  unfold handleAuthChallenge.
  repeat first
    [ apply keeps_sendAuthSession
    | match goal with
      | |- keeps _ (setState CHALLENGE_RECEIVED) =>
          apply (keeps_setState keyed_inv P_core P_state); discriminate
      end
    | keeps_step ].
Qed.

Lemma keeps_handlePacket packet : keeps handshake_inv (handlePacket packet).
Proof.
  pose proof handshake_inv_core as P_core.
  pose proof handshake_inv_emit as P_emit.
  pose proof handshake_inv_state as P_state.
  unfold handlePacket.
  destruct (Packet.getSize packet <? 1)%nat; [keeps_step |].
  apply keeps_bind; [keeps_step | intros _].
  intros g Hg. unfold bind at 1. unfold gets at 1. cbn beta iota.
  revert g Hg.
  destruct (Packet.getOpcode packet); intros g Hg;
    try (case_bool_decide);
    try (first
           [ apply (keeps_handleAuthResponse handshake_inv P_core P_emit P_state packet g Hg)
           | apply (keeps_handleCharEnum handshake_inv P_core P_emit P_state packet g Hg)
           | apply (keeps_handleLoginVerifyWorld handshake_inv P_core P_emit P_state packet g Hg)
           | apply (keeps_handleAccountDataTimes handshake_inv P_core packet g Hg)
           | apply (keeps_handleMotd handshake_inv P_core packet g Hg)
           | apply (keeps_handlePong handshake_inv P_core packet g Hg)
           | apply (keeps_handleUpdateObject handshake_inv P_core packet g Hg)
           | apply (keeps_handleDestroyObject handshake_inv P_core packet g Hg)
           | apply (keeps_handleMessageChat handshake_inv P_core packet g Hg)
           | apply (keeps_LOG handshake_inv P_core _ _ g Hg)
           | exact Hg ]).
  apply keyed_inv_handshake_inv, keeps_handleAuthChallenge.
  destruct Hg as [Ho Hk]. split; auto.
Qed.

Lemma keeps_update inbound pingDue : keeps handshake_inv (update inbound pingDue).
Proof.
  pose proof handshake_inv_core as P_core.
  pose proof handshake_inv_emit as P_emit.
  pose proof handshake_inv_state as P_state.
  unfold update.
  repeat first
    [ apply keeps_handlePacket
    | apply keeps_clearTarget; assumption
    | apply keeps_sendPing; assumption
    | keeps_step ].
Qed.

Lemma keeps_connect host port key account b seed connOk :
  keeps handshake_inv (connect host port key account b seed connOk).
Proof.
  intros g Hg.
  destruct (connect_effect g host port key account b seed connOk)
    as [Hbad Hgood].
  destruct Hg as [Ho Hk].
  destruct (Nat.eq_dec (length key) 40%nat) as [Hlen | Hlen].
  - destruct (Hgood Hlen) as [_ [Ekey [_ [Est Etr]]]].
    unfold handshake_inv. rewrite Etr, Ekey. split; [| auto].
    apply cipher_ordered_from_app; [exact Ho |].
    destruct connOk; cbn; auto.
  - destruct (Hbad Hlen) as [_ [Est [Etr [_ Ekey]]]].
    unfold handshake_inv. rewrite Etr, Est. split; [| discriminate].
    now apply cipher_ordered_neutral.
Qed.

Lemma step_keeps_handshake_inv (g g' : GameHandler.t) :
  step g g' -> handshake_inv g -> handshake_inv g'.
Proof.
  pose proof handshake_inv_core as P_core.
  pose proof handshake_inv_emit as P_emit.
  pose proof handshake_inv_state as P_state.
  intros Hstep. destruct Hstep; unfold exec;
    match goal with
    | |- handshake_inv ?g0 -> handshake_inv (snd (?m ?g0)) =>
        revert g0; change (keeps handshake_inv m)
    end.
  - apply keeps_connect.
  - now apply keeps_disconnect.
  - apply keeps_update.
  - now apply keeps_requestCharacterList.
  - now apply keeps_selectCharacter.
  - now apply keeps_sendMovement.
  - now apply keeps_sendChatMessage.
  - now apply keeps_setPosition.
  - now apply keeps_setOrientation.
  - now apply keeps_setTarget.
  - now apply keeps_clearTarget.
  - now apply keeps_tabTarget.
  - now apply keeps_push_chat.
Qed.

Lemma reachable_handshake_inv (g : GameHandler.t) : reachable g -> handshake_inv g.
Proof.
  induction 1 as [| g g' _ IH Hstep].
  - split; [exact eq_refl | discriminate].
  - eapply step_keeps_handshake_inv; eauto.
Qed.

End HandshakeInvariant.

Section HandshakeStep.
Context `{WorldEnv}.
Import GameHandler.

Lemma fail_effect (reason : string) (g : GameHandler.t) :
  state (snd (fail reason g)) = FAILED.
Proof.
  unfold fail, setState, bind, LOG, emit, modify, gets. cbn.
  case_bool_decide; cbn; [reflexivity | now apply dec_stable].
Qed.

(** The handshake step: when the challenge handler brings the state to
    [AUTH_SENT], it has sent the credentials message and then initialised
    the cipher with the stored key, and nothing else. *)
Lemma handleAuthChallenge_effect (packet : Packet.t) (g : GameHandler.t) :
  state g <> AUTH_SENT ->
  state (snd (handleAuthChallenge packet g)) = AUTH_SENT ->
  exists p, is_auth_session p = true
            /\ trace (snd (handleAuthChallenge packet g))
               = trace g ++ [EvSend p; EvInitEncryption (sessionKey g)].
Proof.
  intros Hne.
  set (r := handleAuthChallenge packet g).
  assert (Er : r = handleAuthChallenge packet g) by reflexivity.
  clearbody r. revert Er. unfold handleAuthChallenge.
  unfold bind at 1. unfold LOG at 1. unfold modify at 1. cbn beta iota.
  unfold bind at 1. unfold call_parser at 1.
  destruct (run_parser AuthChallengeParser_parse packet _) as [[[ok challenge] |] ps];
    cbn beta iota.
  - destruct ok; cbn [negb].
    + destruct (AuthChallengeData_isValid challenge); cbn [negb].
      * unfold bind at 1. unfold modify at 1. cbn beta iota.
        unfold bind at 1. unfold LOG at 1. unfold modify at 1. cbn beta iota.
        unfold bind at 1.
        match goal with
        | |- context [setState CHALLENGE_RECEIVED ?g0] =>
            assert (Hs : trace (snd (setState CHALLENGE_RECEIVED g0)) = trace g
                         /\ sessionKey (snd (setState CHALLENGE_RECEIVED g0)) = sessionKey g
                         /\ fst (setState CHALLENGE_RECEIVED g0) = Done tt)
              by (unfold setState, bind, gets, LOG, modify; cbn;
                  case_bool_decide; cbn; auto);
            destruct (setState CHALLENGE_RECEIVED g0) as [o g2]
        end.
        cbn [fst snd] in Hs. destruct Hs as [Ht [Hk ->]].
        cbn beta iota. intros -> _. destruct (sendAuthSession_effect g2) as [Et [_ _]].
        eexists. split; [| rewrite Et, Ht, Hk; reflexivity].
        unfold is_auth_session. now rewrite AuthSessionPacket_build_opcode.
      * intros -> E. rewrite fail_effect in E. discriminate.
    + intros -> E. rewrite fail_effect in E. discriminate.
  - cbn. intros -> E. contradiction.
Qed.

Lemma handlePacket_handshake_step (packet : Packet.t) (g : GameHandler.t) :
  state g = CONNECTED ->
  state (snd (handlePacket packet g)) = AUTH_SENT ->
  exists p, is_auth_session p = true
            /\ trace (snd (handlePacket packet g))
               = trace g ++ [EvSend p; EvInitEncryption (sessionKey g)].
Proof.
  intros Hst.
  assert (Hsame : forall m : Handler unit,
            keeps (fun g' => core g' = core g) m ->
            forall g0, core g0 = core g -> state (snd (m g0)) = AUTH_SENT -> False).
  { intros m Hm g0 Hg0 E. specialize (Hm g0 Hg0). unfold core in Hm.
    injection Hm as _ Hs _. congruence. }
  assert (P_core : forall g1 g2 : GameHandler.t,
            core g1 = core g2 -> core g1 = core g -> core g2 = core g) by congruence.
  set (r := handlePacket packet g).
  assert (Er : r = handlePacket packet g) by reflexivity.
  clearbody r. revert Er. unfold handlePacket.
  destruct (Packet.getSize packet <? 1)%nat.
  { intros -> E. exfalso. refine (Hsame _ _ g eq_refl E). now apply keeps_LOG. }
  unfold bind at 1. unfold LOG at 1. unfold modify at 1. cbn beta iota.
  unfold bind at 1. unfold gets at 1. cbn beta iota. cbn [state set_log].
  set (g1 := set_log (log g ++ [(DEBUG, "Received world packet: opcode=0x")]) g).
  assert (Hg1 : core g1 = core g) by reflexivity.
  rewrite Hst.
  destruct (Packet.getOpcode packet);
    try (rewrite bool_decide_eq_false_2 by discriminate);
    try (intros -> E; exfalso; refine (Hsame _ _ g1 Hg1 E);
         first [ now apply keeps_LOG
               | now apply keeps_ret
               | now apply keeps_handleAccountDataTimes
               | now apply keeps_handleMotd
               | now apply keeps_handlePong ]).
  rewrite bool_decide_eq_true_2 by reflexivity.
  intros -> E.
  destruct (handleAuthChallenge_effect packet g1) as [p [Hp Ht]].
  - cbn. rewrite Hst. discriminate.
  - exact E.
  - exists p. split; [exact Hp | exact Ht].
Qed.

(** C4: in every state that the handler reaches from its construction by
    calls of its interface, the history of events obeys the ordering rule:
    each sending of the credentials message is directly followed by the
    initialisation of the cipher with a 40-byte key, and the cipher is
    initialised nowhere else, so no message is sent and no inbound message
    is handed to the handler in between.  The step that brings the state
    from [CONNECTED] to [AUTH_SENT] appends exactly these two events, the
    key being the stored 40-byte session key. *)
Theorem cipher_initialised_right_after_credentials :
  forall (g : GameHandler.t),
    reachable g ->
    (forall pre p post,
        trace g = pre ++ EvSend p :: post -> is_auth_session p = true ->
        exists k post', post = EvInitEncryption k :: post' /\ length k = 40%nat)
    /\ (forall pre k post,
        trace g = pre ++ EvInitEncryption k :: post ->
        length k = 40%nat
        /\ exists pre' p, pre = pre' ++ [EvSend p] /\ is_auth_session p = true)
    /\ (forall packet,
        state g = CONNECTED ->
        state (exec (handlePacket packet) g) = AUTH_SENT ->
        length (sessionKey g) = 40%nat
        /\ exists p, is_auth_session p = true
                     /\ trace (exec (handlePacket packet) g)
                        = trace g ++ [EvSend p; EvInitEncryption (sessionKey g)]).
Proof.
  intros g Hreach. destruct (reachable_handshake_inv g Hreach) as [Ho Hk].
  split; [| split].
  - intros pre p post E Hp. unfold cipher_ordered in Ho. rewrite E in Ho.
    eapply cipher_ordered_after_send; eauto.
  - intros pre k post E. unfold cipher_ordered in Ho. rewrite E in Ho.
    destruct (cipher_ordered_before_init pre false k post Ho) as [Hlen [[_ Hb] | Hpre]].
    + discriminate.
    + auto.
  - intros packet Hst E. split; [auto |].
    now apply handlePacket_handshake_step.
Qed.

End HandshakeStep.

(** Example: a handler is constructed, connects with a 40-byte key and
    polls a socket that delivers the server challenge. *)
Lemma cipher_initialised_right_after_credentials_witness :
  let g0 := @GameHandler.new wotlk_env in
  let g1 := GameHandler.exec
              (GameHandler.connect "127.0.0.1" 8085 (repeat 7 40%nat)
                 (bytes_of_string "player") 12340 1 true) g0 in
  let challenge := Packet.mk SMSG_AUTH_CHALLENGE [1; 0; 0; 0; 0x78; 0x56; 0x34; 0x12] 0 in
  let g2 := GameHandler.exec (GameHandler.update [challenge] false) g1 in
  GameHandler.state g2 = AUTH_SENT
  /\ exists p post',
       GameHandler.trace g2
       = [EvConnect "127.0.0.1" 8085 true; EvDeliver challenge; EvSend p]
           ++ EvInitEncryption (repeat 7 40%nat) :: post'.
Proof.
  cbn zeta. split; [vm_compute; reflexivity |].
  set (g1 := GameHandler.exec
               (GameHandler.connect "127.0.0.1" 8085 (repeat 7 40%nat)
                  (bytes_of_string "player") 12340 1 true) (@GameHandler.new wotlk_env)).
  set (challenge := Packet.mk SMSG_AUTH_CHALLENGE [1; 0; 0; 0; 0x78; 0x56; 0x34; 0x12] 0).
  set (g2 := GameHandler.exec (GameHandler.update [challenge] false) g1).
  assert (Hreach : GameHandler.reachable g2).
  { eapply GameHandler.reachable_step; [| apply GameHandler.step_update].
    eapply GameHandler.reachable_step; [| apply GameHandler.step_connect].
    apply GameHandler.reachable_new. }
  assert (Htr : exists p post,
             GameHandler.trace g2
             = [EvConnect "127.0.0.1" 8085 true; EvDeliver challenge]
                 ++ EvSend p :: post
             /\ is_auth_session p = true).
  { eexists _, _. split; [vm_compute; reflexivity | reflexivity]. }
  destruct Htr as [p [post [Htr Hp]]].
  destruct (@cipher_initialised_right_after_credentials wotlk_env g2 Hreach)
    as [Hafter _].
  destruct (Hafter _ p post Htr Hp) as [k [post' [-> Hk]]].
  exists p, post'. rewrite Htr. cbn [app].
  assert (Hkey : exists q post0,
             GameHandler.trace g2
             = [EvConnect "127.0.0.1" 8085 true; EvDeliver challenge; EvSend q;
                EvInitEncryption (repeat 7 40%nat)] ++ post0).
  { eexists _, _. vm_compute. reflexivity. }
  destruct Hkey as [q [post0 Hkey]]. rewrite Htr in Hkey. cbn [app] in Hkey.
  injection Hkey as _ Ek _. now rewrite Ek.
Defined.

(** ** The stream framer *)

Lemma getExpectedPacketSize_app (buf c : list Z) (opcode : Z) :
  TCPSocket.getExpectedPacketSize buf opcode <> 0%nat ->
  TCPSocket.getExpectedPacketSize (buf ++ c) opcode
  = TCPSocket.getExpectedPacketSize buf opcode.
Proof.
  unfold TCPSocket.getExpectedPacketSize.
  assert (Hl : forall i x, buf !! i = Some x -> (buf ++ c) !! i = Some x)
    by (intros i x E; now apply lookup_app_l_Some).
  destruct (opcode =? 0).
  - destruct (buf !! 2%nat) as [status |] eqn:E2; [| intros Hc; now contradiction Hc].
    rewrite (Hl _ _ E2). destruct (status =? 0); [| reflexivity].
    destruct (buf !! 35%nat) as [gLen |] eqn:E35; [| intros Hc; now contradiction Hc].
    rewrite (Hl _ _ E35).
    destruct (buf !! (36 + Z.to_nat gLen)%nat) as [nLen |] eqn:En;
      [| intros Hc; now contradiction Hc].
    now rewrite (Hl _ _ En).
  - destruct (opcode =? 1).
    + destruct (buf !! 1%nat) as [status |] eqn:E1; [| intros Hc; now contradiction Hc].
      now rewrite (Hl _ _ E1).
    + destruct (opcode =? 16); intros Hc; now contradiction Hc.
Qed.

Lemma parse_loop_fuel (f1 : nat) :
  forall (f2 : nat) (buf : list Z),
    (length buf <= f1)%nat -> (length buf <= f2)%nat ->
    TCPSocket.parse_loop f1 buf = TCPSocket.parse_loop f2 buf.
Proof.
  induction f1 as [| f1 IH]; intros f2 buf H1 H2.
  - destruct buf; [| cbn in H1; lia]. now destruct f2.
  - destruct f2 as [| f2]; [destruct buf; [reflexivity | cbn in H2; lia] |].
    cbn [TCPSocket.parse_loop]. destruct buf as [| opcode tl]; [reflexivity |].
    set (e := TCPSocket.getExpectedPacketSize (opcode :: tl) opcode).
    destruct (Nat.eqb_spec e 0); [reflexivity |].
    destruct (Nat.ltb_spec (length (opcode :: tl)) e); [reflexivity |].
    rewrite (IH f2); [reflexivity | |]; rewrite length_skipn; cbn [length] in *; lia.
Qed.

(** The loop is not stopped by its fuel: [tryParsePackets] satisfies the
    equation of the [while] loop. *)
Lemma tryParsePackets_unfold (buf : list Z) :
  TCPSocket.tryParsePackets buf
  = match buf with
    | [] => ([], [])
    | opcode :: _ =>
        let e := TCPSocket.getExpectedPacketSize buf opcode in
        if (e =? 0)%nat then ([], buf)
        else if (length buf <? e)%nat then ([], buf)
        else
          let '(packets, rest) := TCPSocket.tryParsePackets (List.skipn e buf) in
          (TCPSocket.mkMessage opcode (take e buf) :: packets, rest)
    end.
Proof.
  unfold TCPSocket.tryParsePackets. destruct buf as [| opcode tl]; [reflexivity |].
  cbn [length TCPSocket.parse_loop]. cbn zeta.
  set (e := TCPSocket.getExpectedPacketSize (opcode :: tl) opcode).
  destruct (Nat.eqb_spec e 0); [reflexivity |].
  destruct (Nat.ltb_spec (S (length tl)) e); [reflexivity |].
  rewrite (parse_loop_fuel (length tl) (length (List.skipn e (opcode :: tl)))); [reflexivity | |];
    rewrite ?length_skipn; cbn [length]; lia.
Qed.

(** Frames are cut out whole: the messages and the bytes left in the
    buffer make up the input. *)
Lemma parse_loop_partition (fuel : nat) :
  forall (buf : list Z),
    concat (map TCPSocket.msg_data (fst (TCPSocket.parse_loop fuel buf)))
    ++ snd (TCPSocket.parse_loop fuel buf) = buf.
Proof.
  induction fuel as [| fuel IH]; intros buf; [reflexivity |].
  cbn [TCPSocket.parse_loop]. destruct buf as [| opcode tl]; [reflexivity |].
  set (e := TCPSocket.getExpectedPacketSize (opcode :: tl) opcode).
  destruct (e =? 0)%nat; [reflexivity |].
  destruct (length (opcode :: tl) <? e)%nat; [reflexivity |].
  specialize (IH (List.skipn e (opcode :: tl))).
  destruct (TCPSocket.parse_loop fuel (List.skipn e (opcode :: tl))) as [packets rest].
  cbn [fst snd map concat TCPSocket.msg_data] in *.
  rewrite <- app_assoc, IH. apply firstn_skipn.
Qed.

(** Bytes that arrive later do not change the frames already cut out. *)
Lemma tryParsePackets_app (n : nat) :
  forall (buf c : list Z),
    (length buf <= n)%nat ->
    TCPSocket.tryParsePackets (buf ++ c)
    = let '(packets, rest) := TCPSocket.tryParsePackets buf in
      let '(packets', rest') := TCPSocket.tryParsePackets (rest ++ c) in
      (packets ++ packets', rest').
Proof.
  induction n as [| n IH]; intros buf c Hlen.
  - destruct buf; [| cbn in Hlen; lia]. cbn [app].
    change (TCPSocket.tryParsePackets []) with (@nil TCPSocket.Message, @nil Z).
    cbn [app]. now destruct (TCPSocket.tryParsePackets c).
  - destruct buf as [| opcode tl].
    { change (TCPSocket.tryParsePackets []) with (@nil TCPSocket.Message, @nil Z).
      cbn [app]. now destruct (TCPSocket.tryParsePackets c). }
    rewrite (tryParsePackets_unfold (opcode :: tl)). cbn zeta.
    set (e := TCPSocket.getExpectedPacketSize (opcode :: tl) opcode).
    destruct (Nat.eqb_spec e 0) as [He | He].
    { cbn [app]. now destruct (TCPSocket.tryParsePackets (opcode :: tl ++ c)). }
    destruct (Nat.ltb_spec (length (opcode :: tl)) e) as [Hlt | Hge].
    { cbn [app]. now destruct (TCPSocket.tryParsePackets (opcode :: tl ++ c)). }
    rewrite (tryParsePackets_unfold ((opcode :: tl) ++ c)).
    cbn [app]. cbn zeta.
    change (opcode :: tl ++ c) with ((opcode :: tl) ++ c).
    rewrite getExpectedPacketSize_app by exact He. fold e.
    destruct (Nat.eqb_spec e 0) as [| _]; [contradiction |].
    destruct (Nat.ltb_spec (length ((opcode :: tl) ++ c)) e) as [Hlt' | _].
    { rewrite length_app in Hlt'. lia. }
    rewrite skipn_app, firstn_app.
    replace (e - length (opcode :: tl))%nat with 0%nat by lia.
    cbn [skipn take firstn]. rewrite app_nil_r.
    change (drop 0 c) with c.
    rewrite (IH (List.skipn e (opcode :: tl)) c)
      by (rewrite length_skipn; cbn [length] in *; lia).
    destruct (TCPSocket.tryParsePackets (List.skipn e (opcode :: tl))) as [packets rest].
    now destruct (TCPSocket.tryParsePackets (rest ++ c)).
Qed.

Lemma update_update (s : TCPSocket.t) (c1 c2 : list Z) :
  TCPSocket.update (TCPSocket.update s c1) c2 = TCPSocket.update s (c1 ++ c2).
Proof.
  unfold TCPSocket.update at 2 3.
  rewrite app_assoc.
  rewrite (tryParsePackets_app (length (TCPSocket.receiveBuffer s ++ c1))
             (TCPSocket.receiveBuffer s ++ c1) c2) by lia.
  destruct (TCPSocket.tryParsePackets (TCPSocket.receiveBuffer s ++ c1)) as [packets rest].
  unfold TCPSocket.update. cbn [TCPSocket.receiveBuffer TCPSocket.delivered].
  destruct (TCPSocket.tryParsePackets (rest ++ c2)) as [packets' rest'].
  now rewrite app_assoc.
Qed.

Lemma update_chunks (chunks : list (list Z)) :
  fold_left TCPSocket.update chunks TCPSocket.new
  = TCPSocket.update TCPSocket.new (concat chunks).
Proof.
  induction chunks as [| c chunks IH] using rev_ind; [reflexivity |].
  rewrite fold_left_app. cbn [fold_left]. rewrite IH, update_update.
  f_equal. rewrite concat_app. cbn. now rewrite app_nil_r.
Qed.

(** C2: fed one byte per poll, the framer hands over the same messages in
    the same order, and keeps the same bytes in its buffer, as when the
    whole stream arrives in one poll; the same holds for every other way
    of cutting the stream into chunks.  Frames are removed whole: the
    messages handed over and the bytes still buffered make up the stream,
    and the buffered bytes hold no complete frame. *)
Theorem framer_chunk_boundary_independence :
  forall (stream : list Z),
    let whole := TCPSocket.update TCPSocket.new stream in
    fold_left TCPSocket.update (map (fun b => [b]) stream) TCPSocket.new = whole
    /\ (forall chunks : list (list Z),
          concat chunks = stream ->
          fold_left TCPSocket.update chunks TCPSocket.new = whole)
    /\ concat (map TCPSocket.msg_data (TCPSocket.delivered whole))
       ++ TCPSocket.receiveBuffer whole = stream
    /\ TCPSocket.update whole [] = whole.
Proof.
  intros stream. cbn zeta.
  assert (Hchunks : forall chunks : list (list Z),
            concat chunks = stream ->
            fold_left TCPSocket.update chunks TCPSocket.new
            = TCPSocket.update TCPSocket.new stream).
  { intros chunks <-. apply update_chunks. }
  split; [| split; [| split]].
  - apply Hchunks. induction stream as [| b stream IH]; [reflexivity |].
    cbn. f_equal. apply IH. intros chunks <-. apply update_chunks.
  - exact Hchunks.
  - unfold TCPSocket.update, TCPSocket.new, TCPSocket.tryParsePackets.
    cbn [TCPSocket.receiveBuffer TCPSocket.delivered app].
    pose proof (parse_loop_partition (length stream) stream) as Hp.
    destruct (TCPSocket.parse_loop (length stream) stream) as [packets rest].
    exact Hp.
  - rewrite update_update. now rewrite app_nil_r.
Qed.

(** ** The SRP engine *)

(** *** Digests are twenty bytes *)

Lemma length_be_bytes (n : nat) (v : Z) : length (SHA1.be_bytes n v) = n.
Proof. unfold SHA1.be_bytes. now rewrite length_map, length_seq. Qed.

Lemma sha1_length (msg : list Z) : length (SHA1.sha1 msg) = 20%nat.
Proof.
  unfold SHA1.sha1.
  destruct (fold_left SHA1.compress _ SHA1.init) as [[[[h0 h1] h2] h3] h4].
  rewrite !length_app, !length_be_bytes. reflexivity.
Qed.

Lemma be_bytes_are_bytes (n : nat) (v : Z) : Forall is_byte (SHA1.be_bytes n v).
Proof.
  unfold SHA1.be_bytes. apply List.Forall_forall. intros b Hb.
  apply in_map_iff in Hb as (i & <- & _).
  unfold is_byte.
  change 255 with (Z.ones 8). rewrite Z.land_ones by lia.
  change (2 ^ 8) with 256. apply Z.mod_pos_bound. lia.
Qed.

Lemma sha1_bytes (msg : list Z) : Forall is_byte (SHA1.sha1 msg).
Proof.
  unfold SHA1.sha1.
  destruct (fold_left SHA1.compress _ SHA1.init) as [[[[h0 h1] h2] h3] h4].
  repeat (apply Forall_app; split); apply be_bytes_are_bytes.
Qed.

Lemma le_value_nonneg (bs : list Z) : Forall is_byte bs -> 0 <= le_value bs.
Proof.
  induction 1 as [| b r Hb _ IH]; cbn [le_value]; [lia |].
  apply Z.lor_nonneg. split; [unfold is_byte in Hb; lia |].
  apply Z.shiftl_nonneg. exact IH.
Qed.

(** *** The two passes of the interleaving *)

Lemma evens_cons (a : Z) (r : list Z) : SRP.evens (a :: r) = a :: SRP.odds r.
Proof. reflexivity. Qed.

Lemma odds_cons (a : Z) (r : list Z) : SRP.odds (a :: r) = SRP.evens r.
Proof. reflexivity. Qed.

(** [evens] and [odds] pick the bytes at the even and at the odd indices. *)
Lemma evens_odds_lookup (l : list Z) (i : nat) :
  SRP.evens l !! i = l !! (2 * i)%nat /\ SRP.odds l !! i = l !! (2 * i + 1)%nat.
Proof.
  revert i. induction l as [| a r IH]; intros i.
  - split; reflexivity.
  - split.
    + rewrite evens_cons. destruct i as [| j]; [reflexivity |].
      replace (2 * S j)%nat with (S (2 * j + 1)) by lia.
      cbn [lookup list_lookup]. exact (proj2 (IH j)).
    + rewrite odds_cons.
      replace (2 * i + 1)%nat with (S (2 * i)) by lia.
      cbn [lookup list_lookup]. exact (proj1 (IH i)).
Qed.

Lemma evens_odds_snoc (p : list Z) (x : Z) :
  SRP.evens (p ++ [x]) = (if Nat.even (length p) then SRP.evens p ++ [x] else SRP.evens p) /\
  SRP.odds (p ++ [x]) = (if Nat.even (length p) then SRP.odds p else SRP.odds p ++ [x]).
Proof.
  induction p as [| a p [IHe IHo]].
  - split; reflexivity.
  - change ((a :: p) ++ [x]) with (a :: (p ++ [x])).
    rewrite evens_cons, odds_cons, IHe, IHo, !evens_cons, !odds_cons.
    cbn [length]. rewrite Nat.even_succ, <- Nat.negb_even.
    destruct (Nat.even (length p)); split; reflexivity.
Qed.

Lemma take_snoc_nth (l : list Z) (n : nat) :
  (n < length l)%nat -> take (S n) l = take n l ++ [nth n l 0].
Proof.
  intros Hn. destruct (lookup_lt_is_Some_2 l n Hn) as [x Hx].
  rewrite (take_S_r l n x Hx). f_equal. f_equal.
  rewrite nth_lookup, Hx. reflexivity.
Qed.

Lemma split_pass (l : list Z) (n : nat) :
  (n <= length l)%nat ->
  fold_left (fun acc i =>
               let '(S1, S2) := acc in
               if Nat.even i then (S1 ++ [nth i l 0], S2)
               else (S1, S2 ++ [nth i l 0]))
            (seq 0 n) ([], [])
  = (SRP.evens (take n l), SRP.odds (take n l)).
Proof.
  induction n as [| n IH]; intros Hn.
  - reflexivity.
  - rewrite seq_S, fold_left_app, IH by lia. cbn [fold_left Nat.add].
    rewrite (take_snoc_nth l n) by lia.
    destruct (evens_odds_snoc (take n l) (nth n l 0)) as [-> ->].
    rewrite length_take, Nat.min_l by lia.
    destruct (Nat.even n); reflexivity.
Qed.

Lemma split_even_odd_evens_odds (l : list Z) :
  SRP.split_even_odd l = (SRP.evens l, SRP.odds l).
Proof.
  unfold SRP.split_even_odd. rewrite split_pass by lia.
  now rewrite firstn_all.
Qed.

Lemma interleave_snoc (p q : list Z) (a b : Z) :
  length p = length q ->
  SRP.interleave (p ++ [a]) (q ++ [b]) = SRP.interleave p q ++ [a; b].
Proof.
  revert q. induction p as [| x p IH]; intros [| y q] Hl; try discriminate.
  - reflexivity.
  - cbn [app SRP.interleave]. rewrite IH by (cbn in Hl; lia). reflexivity.
Qed.

Lemma length_interleave (p q : list Z) :
  length p = length q -> length (SRP.interleave p q) = (2 * length p)%nat.
Proof.
  revert q. induction p as [| x p IH]; intros [| y q] Hl; try discriminate.
  - reflexivity.
  - cbn [SRP.interleave length]. rewrite IH by (cbn in Hl; lia). lia.
Qed.

Lemma interleave_pass (h1 h2 : list Z) (n : nat) :
  (n <= length h1)%nat -> (n <= length h2)%nat ->
  fold_left (fun K i => K ++ [nth i h1 0; nth i h2 0]) (seq 0 n) []
  = SRP.interleave (take n h1) (take n h2).
Proof.
  induction n as [| n IH]; intros H1 H2.
  - reflexivity.
  - rewrite seq_S, fold_left_app, IH by lia. cbn [fold_left Nat.add].
    rewrite (take_snoc_nth h1 n), (take_snoc_nth h2 n) by lia.
    rewrite interleave_snoc; [reflexivity |].
    rewrite !length_take. lia.
Qed.

Lemma interleaveKey_interleave (S_bytes : list Z) :
  SRP.interleaveKey S_bytes
  = SRP.interleave (SRP.H (SRP.evens S_bytes)) (SRP.H (SRP.odds S_bytes)).
Proof.
  unfold SRP.interleaveKey. rewrite split_even_odd_evens_odds.
  rewrite interleave_pass by (unfold SRP.H; rewrite sha1_length; lia).
  rewrite !take_ge by (unfold SRP.H; rewrite sha1_length; lia).
  reflexivity.
Qed.

Lemma xor_bytes_zip_xor (a b : list Z) :
  length a = length b -> SRP.xor_bytes a b = SRP.zip_xor a b.
Proof.
  unfold SRP.xor_bytes. revert b.
  induction a as [| x a IH]; intros [| y b] Hl; try discriminate.
  - reflexivity.
  - cbn [length seq map nth SRP.zip_xor]. f_equal.
    rewrite <- seq_shift, map_map. cbn [nth].
    apply IH. cbn in Hl. lia.
Qed.

(** *** Modular arithmetic of the engine *)

Lemma rem_normalised (a n : Z) :
  0 < n -> (if Z.rem a n <? 0 then Z.rem a n + n else Z.rem a n) = a mod n.
Proof.
  intros Hn.
  pose proof (Z.quot_rem' a n) as Hq.
  pose proof (Z.rem_bound_abs a n ltac:(lia)) as Hb.
  destruct (Z.ltb_spec (Z.rem a n) 0) as [Hneg | Hpos].
  - apply (Z.mod_unique_pos _ _ (a ÷ n - 1)); lia.
  - apply (Z.mod_unique_pos _ _ (a ÷ n)); lia.
Qed.

Lemma modPow_pos_pow (b : Z) (e : positive) (m : Z) :
  BigNum.modPow_pos b e m = (b ^ Z.pos e) mod m.
Proof.
  induction e as [e IH | e IH |]; cbn [BigNum.modPow_pos].
  - rewrite IH, Pos2Z.inj_xI.
    rewrite Z.pow_add_r, Z.pow_1_r by lia.
    replace (2 * Z.pos e) with (Z.pos e + Z.pos e) by lia.
    rewrite Z.pow_add_r by lia.
    rewrite <- Zmult_mod, Zmult_mod_idemp_l. reflexivity.
  - rewrite IH, Pos2Z.inj_xO.
    replace (2 * Z.pos e) with (Z.pos e + Z.pos e) by lia.
    rewrite Z.pow_add_r by lia.
    rewrite <- Zmult_mod. reflexivity.
  - rewrite Z.pow_1_r. reflexivity.
Qed.

Lemma modPow_pow (b e m : Z) : 0 <= e -> BigNum.modPow b e m = (b ^ e) mod m.
Proof.
  intros He. destruct e as [| p | p]; cbn [BigNum.modPow].
  - reflexivity.
  - apply modPow_pos_pow.
  - lia.
Qed.

(** The shared secret as the engine computes it: the remainders of the
    truncated division, brought back into [0, N), and square-and-multiply
    give the power of the protocol. *)
Lemma engine_secret (a x u B g N : Z) :
  0 < N -> 0 <= x -> 0 <= a -> 0 <= u ->
  let kgx := BigNum.mod_ (BigNum.multiply 3 (BigNum.modPow g x N)) N in
  let base := BigNum.mod_ (BigNum.subtract B kgx) N in
  let base := if base <? 0 then BigNum.add base N else base in
  BigNum.modPow base (BigNum.add a (BigNum.multiply u x)) N
  = SRP.reference_S a x u B g N.
Proof.
  intros HN Hx Ha Hu. cbv zeta.
  unfold BigNum.mod_, BigNum.multiply, BigNum.subtract, BigNum.add, SRP.reference_S.
  rewrite rem_normalised by exact HN.
  rewrite (modPow_pow g x N Hx).
  rewrite (Z.rem_mod_nonneg (3 * (g ^ x mod N)) N)
    by (pose proof (Z.mod_pos_bound (g ^ x) N HN); lia).
  rewrite Zmult_mod_idemp_r, Zminus_mod_idemp_r.
  rewrite modPow_pow by nia.
  apply Z.mod_pow_l.
Qed.

Lemma computeClientEphemeral_accepts (draws : list (list Z)) (g N a pubA : Z) :
  SRP.computeClientEphemeral draws g N = Some (a, pubA) ->
  exists d, In d draws /\ a = BigNum.fromBytes d true /\
            pubA = BigNum.modPow g a N /\ Z.rem pubA N <> 0.
Proof.
  induction draws as [| d rest IH]; cbn [SRP.computeClientEphemeral]; [discriminate |].
  unfold BigNum.isZero, BigNum.mod_.
  destruct (Z.eqb_spec (Z.rem (BigNum.modPow g (BigNum.fromBytes d true) N) N) 0) as [E | E].
  - intros Hrest. destruct (IH Hrest) as (d' & Hin & Hd'). exists d'. split; [now right | exact Hd'].
  - intros [= <- <-]. exists d. repeat split; [now left | exact E].
Qed.

(** C1.  For every valid handshake input (byte strings, a salt of 32
    bytes, a generator and a modulus that are not zero, and a private
    ephemeral the engine accepts), [feed] succeeds and the session key it
    derives is exactly 40 bytes: the byte-by-byte interleaving of the
    20-byte digest of the even-indexed bytes of the shared secret [S]
    with the 20-byte digest of its odd-indexed bytes.  [S], the key [K]
    and the client proof [M1] are equal to the reference values, which
    are written with integer powers, the mathematical modulus and
    structural recursion on the byte strings. *)
Theorem feed_session_key_is_interleaved_digests
    (identity secret B_bytes g_bytes N_bytes salt : list Z)
    (draws : list (list Z)) (a pubA : Z) :
  let I := map toupper identity in
  let g := BigNum.fromBytes g_bytes true in
  let N := BigNum.fromBytes N_bytes true in
  let B := BigNum.fromBytes B_bytes true in
  let x := BigNum.fromBytes (SRP.H (salt ++ SRP.H (I ++ [58] ++ secret))) true in
  let A_bytes := BigNum.toArray pubA true 32 in
  let u := BigNum.fromBytes (SRP.H (A_bytes ++ B_bytes)) true in
  Forall is_byte N_bytes ->
  Forall (Forall is_byte) draws ->
  length salt = 32%nat ->
  g <> 0 -> N <> 0 ->
  SRP.computeClientEphemeral draws g N = Some (a, pubA) ->
  exists r,
    SRP.feed identity secret draws B_bytes g_bytes N_bytes salt = Some r /\
    SRP.getS r = SRP.reference_S a x u B g N /\
    length (SRP.getSessionKey r) = 40%nat /\
    (let S_bytes := BigNum.toArray (SRP.getS r) true 32 in
     length (SRP.H (SRP.evens S_bytes)) = 20%nat /\
     length (SRP.H (SRP.odds S_bytes)) = 20%nat /\
     SRP.getSessionKey r
     = SRP.interleave (SRP.H (SRP.evens S_bytes)) (SRP.H (SRP.odds S_bytes))) /\
    SRP.getSessionKey r = SRP.reference_K (SRP.reference_S a x u B g N) /\
    SRP.getM1 r
    = SRP.reference_M1 I salt A_bytes B_bytes g_bytes N_bytes
        (SRP.reference_K (SRP.reference_S a x u B g N)) /\
    length (SRP.getM1 r) = 20%nat.
Proof.
  intros I g N B x A_bytes u HNb Hdraws Hsalt Hg HN Hce.
  assert (HNpos : 0 < N).
  { pose proof (le_value_nonneg N_bytes HNb) as H0.
    unfold N, BigNum.fromBytes in *. lia. }
  assert (Hx : 0 <= x).
  { unfold x, BigNum.fromBytes. apply le_value_nonneg, sha1_bytes. }
  assert (Hu : 0 <= u).
  { unfold u, BigNum.fromBytes. apply le_value_nonneg, sha1_bytes. }
  assert (Ha : 0 <= a).
  { destruct (computeClientEphemeral_accepts _ _ _ _ _ Hce) as (d & Hin & -> & _).
    unfold BigNum.fromBytes. apply le_value_nonneg.
    exact (proj1 (List.Forall_forall _ _) Hdraws d Hin). }
  pose proof (engine_secret a x u B g N HNpos Hx Ha Hu) as HS. cbv zeta in HS.
  unfold SRP.feed.
  fold I g N B x. rewrite Hce. fold A_bytes u.
  replace (negb (length salt =? 32)%nat || BigNum.isZero g || BigNum.isZero N) with false.
  2:{ unfold BigNum.isZero. rewrite Hsalt.
      destruct (Z.eqb_spec g 0); [contradiction |].
      destruct (Z.eqb_spec N 0); [contradiction |]. reflexivity. }
  eexists. split; [reflexivity |].
  cbn [SRP.getS SRP.getSessionKey SRP.getM1].
  rewrite HS. unfold SRP.reference_M1, SRP.reference_K.
  rewrite interleaveKey_interleave.
  rewrite xor_bytes_zip_xor by (unfold SRP.H; now rewrite !sha1_length).
  unfold SRP.H at 1 2 3 4.
  repeat split; try reflexivity; try apply sha1_length.
  rewrite length_interleave; unfold SRP.H; rewrite !sha1_length; reflexivity.
Qed.

(** The known-answer vector: the engine accepts the draw, and its key and
    proof are the reference values, which are the bytes of the vector. *)
Lemma feed_session_key_is_interleaved_digests_witness :
  exists r,
    SRP.feed (bytes_of_string "test") (bytes_of_string "secret") [SRP.vector_a]
             SRP.vector_B SRP.vector_g SRP.vector_N SRP.vector_salt = Some r /\
    length (SRP.getSessionKey r) = 40%nat /\
    SRP.getSessionKey r = SRP.reference_K (SRP.getS r) /\
    SRP.getSessionKey r = SRP.vector_K /\
    SRP.getM1 r = SRP.vector_M1.
Proof.
  pose (g := BigNum.fromBytes SRP.vector_g true).
  pose (N := BigNum.fromBytes SRP.vector_N true).
  pose (a := BigNum.fromBytes SRP.vector_a true).
  destruct (feed_session_key_is_interleaved_digests
              (bytes_of_string "test") (bytes_of_string "secret")
              SRP.vector_B SRP.vector_g SRP.vector_N SRP.vector_salt
              [SRP.vector_a] a (BigNum.modPow g a N))
    as (r & Hfeed & HS & Hlen & _ & HK & _).
  - unfold SRP.vector_N. repeat constructor; unfold is_byte; lia.
  - unfold SRP.vector_a. repeat constructor; unfold is_byte; lia.
  - reflexivity.
  - vm_compute. discriminate.
  - vm_compute. discriminate.
  - vm_compute. reflexivity.
  - exists r. split; [exact Hfeed |]. split; [exact Hlen |].
    split; [rewrite HS; exact HK |].
    assert (E : option_map (fun p => (SRP.getSessionKey p, SRP.getM1 p))
                  (SRP.feed (bytes_of_string "test") (bytes_of_string "secret")
                     [SRP.vector_a] SRP.vector_B SRP.vector_g SRP.vector_N
                     SRP.vector_salt)
                = Some (SRP.vector_K, SRP.vector_M1))
      by (vm_compute; reflexivity).
    rewrite Hfeed in E. cbn [option_map] in E.
    injection E as -> ->. split; reflexivity.
Defined.

(** * Further properties *)

(** ** RC4: the generation loop as a stream *)

Lemma process_fold (c : RC4.t) (data : list Z) :
  RC4.process c data = fold_left RC4.prga_step data (c, []).
Proof. destruct data; reflexivity. Qed.

Lemma prga_step_out (c : RC4.t) (out : list Z) (d : Z) :
  RC4.prga_step (c, out) d
  = (fst (RC4.prga_step (c, []) d), out ++ snd (RC4.prga_step (c, []) d)).
Proof. reflexivity. Qed.

Lemma prga_fold_out (data : list Z) (c : RC4.t) (out : list Z) :
  fold_left RC4.prga_step data (c, out)
  = (fst (fold_left RC4.prga_step data (c, [])),
     out ++ snd (fold_left RC4.prga_step data (c, []))).
Proof.
  revert c out. induction data as [| d data IH]; intros c out.
  - cbn [fold_left fst snd]. now rewrite app_nil_r.
  - cbn [fold_left]. rewrite (prga_step_out c out d).
    destruct (RC4.prga_step (c, []) d) as [c1 o1]. cbn [fst snd].
    rewrite (IH c1 (out ++ o1)), (IH c1 o1). cbn [fst snd].
    now rewrite app_assoc.
Qed.

Lemma process_split (c : RC4.t) (d1 d2 : list Z) :
  RC4.process c (d1 ++ d2)
  = (fst (RC4.process (fst (RC4.process c d1)) d2),
     snd (RC4.process c d1) ++ snd (RC4.process (fst (RC4.process c d1)) d2)).
Proof.
  rewrite !process_fold, fold_left_app.
  destruct (fold_left RC4.prga_step d1 (c, [])) as [c1 o1]. cbn [fst snd].
  apply prga_fold_out.
Qed.

(** X1.  [process] is a stream operation: one call on [d1 ++ d2] leaves
    the cipher and the bytes that a call on [d1] followed by a call on
    [d2] leaves. *)
Theorem process_app :
  forall (c : RC4.t) (d1 d2 : list Z),
    let r1 := RC4.process c d1 in
    let r2 := RC4.process (fst r1) d2 in
    RC4.process c (d1 ++ d2) = (fst r2, snd r1 ++ snd r2).
Proof. intros c d1 d2. cbv zeta. apply process_split. Qed.

(** The keystream byte and the next cipher state do not depend on the
    data byte. *)
Lemma prga_step_data (c : RC4.t) (d : Z) :
  RC4.prga_step (c, []) d
  = (fst (RC4.prga_step (c, []) 0),
     [Z.lxor d (nth 0 (snd (RC4.prga_step (c, []) 0)) 0)]).
Proof. reflexivity. Qed.

Lemma prga_fold_keystream (data : list Z) (c : RC4.t) :
  exists (c' : RC4.t) (ks : list Z),
    length ks = length data
    /\ forall data' : list Z,
         length data' = length data ->
         fold_left RC4.prga_step data' (c, []) = (c', zip_with Z.lxor data' ks).
Proof.
  revert c. induction data as [| d data IH]; intros c.
  - exists c, []. split; [reflexivity |].
    intros [| d' data'] Hl; [reflexivity | discriminate].
  - destruct (IH (fst (RC4.prga_step (c, []) 0))) as (c' & ks & Hks & Hfold).
    exists c', (nth 0 (snd (RC4.prga_step (c, []) 0)) 0 :: ks).
    split; [cbn [length]; now rewrite Hks |].
    intros [| d' data'] Hl; [discriminate |].
    cbn [fold_left]. rewrite (prga_step_data c d'), prga_fold_out.
    rewrite (Hfold data') by (cbn in Hl; lia). reflexivity.
Qed.

Lemma zip_lxor_cancel (data ks : list Z) :
  length ks = length data ->
  zip_with Z.lxor (zip_with Z.lxor data ks) ks = data.
Proof.
  revert ks. induction data as [| d data IH]; intros [| k ks] Hl; try discriminate.
  - reflexivity.
  - cbn [zip_with]. rewrite IH by (cbn in Hl; lia).
    now rewrite Z.lxor_assoc, Z.lxor_nilpotent, Z.lxor_0_r.
Qed.

(** X2.  Decryption is encryption: a cipher in the state in which the
    data was processed gives the data back from the processed bytes, and
    ends in the same state as the cipher that produced them. *)
Theorem process_involution :
  forall (c : RC4.t) (data : list Z),
    let enc := RC4.process c data in
    RC4.process c (snd enc) = (fst enc, data).
Proof.
  intros c data. cbv zeta. rewrite !process_fold.
  destruct (prga_fold_keystream data c) as (c' & ks & Hks & Hfold).
  rewrite (Hfold data eq_refl). cbn [fst snd].
  rewrite Hfold by (rewrite length_zip_with; lia).
  now rewrite zip_lxor_cancel.
Qed.

(** ** RC4: the state stays a permutation of the byte values *)

Lemma perm_identity_length (s : list Z) : s ≡ₚ RC4.identity -> length s = 256%nat.
Proof. intros Hs. now rewrite Hs. Qed.

Lemma perm_identity_get (s : list Z) (i : Z) :
  s ≡ₚ RC4.identity -> 0 <= i < 256 ->
  s !! Z.to_nat i = Some (RC4.get s i) /\ 0 <= RC4.get s i < 256.
Proof.
  intros Hs Hi. pose proof (perm_identity_length s Hs) as Hl.
  destruct (lookup_lt_is_Some_2 s (Z.to_nat i)) as [v Hv]; [lia |].
  unfold RC4.get. rewrite nth_lookup, Hv. cbn [default]. split; [reflexivity |].
  assert (Hin : v ∈ RC4.identity).
  { rewrite <- Hs. eapply list_elem_of_lookup_2, Hv. }
  unfold RC4.identity in Hin. apply list_elem_of_fmap in Hin as (n & -> & Hn).
  apply elem_of_seq in Hn. unfold id. lia.
Qed.

Lemma u8_range (v : Z) : 0 <= u8 v < 256.
Proof. unfold u8. apply Z.mod_pos_bound. lia. Qed.

(** Exchanging two entries, as both loops do it. *)
Lemma swap_perm_identity (s : list Z) (i j : Z) :
  s ≡ₚ RC4.identity -> 0 <= i < 256 -> 0 <= j < 256 ->
  RC4.set (RC4.set s i (RC4.get s j)) j (RC4.get s i) ≡ₚ RC4.identity.
Proof.
  intros Hs Hi Hj. etransitivity; [| exact Hs]. unfold RC4.set.
  apply Permutation_insert_swap.
  - exact (proj1 (perm_identity_get s i Hs Hi)).
  - exact (proj1 (perm_identity_get s j Hs Hj)).
Qed.

Lemma ksa_fold_perm (key l : list Z) (s : list Z) (j : Z) :
  Forall (fun i => 0 <= i < 256) l ->
  s ≡ₚ RC4.identity ->
  fst (fold_left (RC4.ksa_step key) l (s, j)) ≡ₚ RC4.identity.
Proof.
  intros Hl. revert s j. induction Hl as [| i l Hi _ IH]; intros s j Hs.
  - exact Hs.
  - cbn [fold_left]. unfold RC4.ksa_step at 2. cbv zeta. apply IH.
    apply swap_perm_identity; [exact Hs | exact Hi | apply u8_range].
Qed.

(** X3.  [init] with a key that is not empty forgets the previous state of
    the cipher: both indices are zero, the table has its 256 entries and is
    a permutation of the byte values, and the result is the one a freshly
    constructed cipher gets. *)
Theorem init_key_schedule_permutation :
  forall (c : RC4.t) (k : Z) (key : list Z),
    let c' := fst (RC4.init c (k :: key)) in
    RC4.state c' ≡ₚ RC4.identity
    /\ length (RC4.state c') = 256%nat
    /\ RC4.x c' = 0 /\ RC4.y c' = 0
    /\ c' = fst (RC4.init RC4.new (k :: key)).
Proof.
  intros c k key. cbv zeta. unfold RC4.init.
  pose proof (ksa_fold_perm (k :: key) (map Z.of_nat (seq 0 256)) RC4.identity 0) as Hp.
  destruct (fold_left (RC4.ksa_step (k :: key)) (map Z.of_nat (seq 0 256)) (RC4.identity, 0))
    as [s j]. cbn [fst RC4.state RC4.x RC4.y] in *.
  assert (Hs : s ≡ₚ RC4.identity).
  { apply Hp; [| reflexivity].
    apply List.Forall_forall. intros i Hin.
    apply in_map_iff in Hin as (n & <- & Hn). apply in_seq in Hn. lia. }
  repeat split; [exact Hs | now apply perm_identity_length].
Qed.

Lemma lxor_byte (a b : Z) : is_byte a -> is_byte b -> is_byte (Z.lxor a b).
Proof.
  unfold is_byte. intros Ha Hb.
  assert (E : Z.lxor a b = Z.lxor a b mod 256).
  { change 256 with (2 ^ 8). rewrite <- Z.land_ones by lia.
    apply Z.bits_inj'. intros n Hn.
    rewrite Z.land_spec, Z.lxor_spec.
    destruct (Z.ltb_spec n 8) as [Hlt | Hge].
    - rewrite Z.ones_spec_low by lia. now rewrite andb_true_r.
    - rewrite Z.ones_spec_high by lia. rewrite andb_false_r.
      rewrite (Z.bits_above_log2 a n), (Z.bits_above_log2 b n); [reflexivity | lia | | lia |].
      + destruct (Z.eq_dec b 0) as [-> | Hb0]; [cbn; lia |].
        assert (Z.log2 b < 8) by (apply Z.log2_lt_pow2; lia). lia.
      + destruct (Z.eq_dec a 0) as [-> | Ha0]; [cbn; lia |].
        assert (Z.log2 a < 8) by (apply Z.log2_lt_pow2; lia). lia. }
  rewrite E. apply Z.mod_pos_bound. lia.
Qed.

Lemma land_255_range (v : Z) : 0 <= Z.land v 255 < 256.
Proof.
  change 255 with (Z.ones 8). rewrite Z.land_ones by lia.
  apply Z.mod_pos_bound. lia.
Qed.

Lemma prga_step_perm (c : RC4.t) :
  RC4.state c ≡ₚ RC4.identity ->
  RC4.state (fst (RC4.prga_step (c, []) 0)) ≡ₚ RC4.identity
  /\ is_byte (nth 0 (snd (RC4.prga_step (c, []) 0)) 0).
Proof.
  intros Hs. unfold RC4.prga_step. cbv zeta. cbn [fst snd app nth RC4.state].
  set (x1 := u8 (RC4.x c + 1)).
  set (y1 := u8 (RC4.y c + RC4.get (RC4.state c) x1)).
  set (s1 := RC4.set (RC4.set (RC4.state c) x1 (RC4.get (RC4.state c) y1)) y1
               (RC4.get (RC4.state c) x1)).
  assert (Hs1 : s1 ≡ₚ RC4.identity).
  { apply swap_perm_identity; [exact Hs | apply u8_range | apply u8_range]. }
  split; [exact Hs1 |].
  rewrite Z.lxor_0_l.
  exact (proj2 (perm_identity_get s1 _ Hs1 (land_255_range _))).
Qed.

Lemma prga_fold_perm (data : list Z) (c : RC4.t) :
  RC4.state c ≡ₚ RC4.identity ->
  let r := fold_left RC4.prga_step data (c, []) in
  RC4.state (fst r) ≡ₚ RC4.identity
  /\ length (snd r) = length data
  /\ (Forall is_byte data -> Forall is_byte (snd r)).
Proof.
  cbv zeta. revert c. induction data as [| d data IH]; intros c Hs.
  - cbn [fold_left fst snd length]. repeat split; [exact Hs | now intros _].
  - cbn [fold_left]. rewrite (prga_step_data c d), prga_fold_out. cbn [fst snd].
    destruct (prga_step_perm c Hs) as [Hs1 Hkb].
    destruct (IH _ Hs1) as (H1 & H2 & H3).
    repeat split; [exact H1 | cbn [length app]; now rewrite H2 |].
    intros Hall. inversion Hall as [| ? ? Hd Hrest]; subst.
    constructor; [now apply lxor_byte | now apply H3].
Qed.

(** X4.  While the table is a permutation of the byte values, [process]
    keeps it one, returns as many bytes as it was given, and returns bytes
    when it was given bytes. *)
Theorem process_keeps_permutation :
  forall (c : RC4.t) (data : list Z),
    RC4.state c ≡ₚ RC4.identity ->
    let r := RC4.process c data in
    RC4.state (fst r) ≡ₚ RC4.identity
    /\ length (snd r) = length data
    /\ (Forall is_byte data -> Forall is_byte (snd r)).
Proof.
  intros c data Hs. cbv zeta. rewrite process_fold. now apply prga_fold_perm.
Qed.

(** Example: a freshly constructed cipher processes three bytes. *)
Lemma process_keeps_permutation_witness :
  let r := RC4.process RC4.new [1; 2; 3] in
  RC4.state (fst r) ≡ₚ RC4.identity /\ length (snd r) = 3%nat.
Proof.
  cbv zeta.
  destruct (process_keeps_permutation RC4.new [1; 2; 3]) as (H1 & H2 & _).
  - reflexivity.
  - split; [exact H1 | exact H2].
Defined.

(** X5.  [drop] discards keystream: processing after [drop count] gives
    the bytes that processing [count] zero bytes followed by the data
    gives, without the first [count] of them, and leaves the same cipher. *)
Theorem drop_skips_keystream :
  forall (c : RC4.t) (count : nat) (data : list Z),
    let r := RC4.process c (repeat 0 count ++ data) in
    RC4.process (fst (RC4.drop c count)) data = (fst r, List.skipn count (snd r)).
Proof.
  intros c count data. cbv zeta. rewrite process_split.
  unfold RC4.drop. cbn [fst snd].
  destruct (prga_fold_keystream (repeat 0 count) c) as (c' & ks & Hks & Hfold).
  rewrite (process_fold c (repeat 0 count)), (Hfold _ eq_refl). cbn [fst snd].
  rewrite drop_app_length'; [now destruct (RC4.process c' data) |].
  rewrite length_zip_with, Hks, !repeat_length. lia.
Qed.

(** ** Frame conditions of the handler *)

Section Frame.
Context `{WorldEnv}.
Import GameHandler.
Context {X : Type} (proj : GameHandler.t -> X).

Lemma unchanged_ret {A : Type} (a : A) : unchanged proj (ret a).
Proof. intros g. reflexivity. Qed.

Lemma unchanged_gets {A : Type} (f : GameHandler.t -> A) : unchanged proj (gets f).
Proof. intros g. reflexivity. Qed.

Lemma unchanged_bind {A B : Type} (m : Handler A) (k : A -> Handler B) :
  unchanged proj m -> (forall a, unchanged proj (k a)) -> unchanged proj (bind m k).
Proof.
  intros Hm Hk g. unfold bind. specialize (Hm g).
  destruct (m g) as [[a |] g1]; cbn [snd] in *; [| exact Hm].
  now rewrite Hk.
Qed.

Lemma unchanged_modify (f : GameHandler.t -> GameHandler.t) :
  (forall g, proj (f g) = proj g) -> unchanged proj (modify f).
Proof. intros Hf g. apply Hf. Qed.

Lemma unchanged_foldM {A B : Type} (f : B -> A -> Handler B) (l : list A) :
  (forall b a, unchanged proj (f b a)) -> forall b, unchanged proj (foldM f l b).
Proof.
  intros Hf. induction l as [| a l IH]; intros b; cbn [foldM].
  - apply unchanged_ret.
  - apply unchanged_bind; [apply Hf | exact IH].
Qed.

Lemma unchanged_call_parser {A : Type} (m : Parser A) (packet : Packet.t) :
  (forall l g, proj (set_log l g) = proj g) -> unchanged proj (call_parser m packet).
Proof.
  intros Hl g. unfold call_parser.
  destruct (run_parser m packet (log g)) as [r ps]. apply Hl.
Qed.

Lemma unchanged_keeps {A : Type} (Q : X -> Prop) (m : Handler A) :
  unchanged proj m -> keeps (fun g => Q (proj g)) m.
Proof. intros Hm g Hg. now rewrite Hm. Qed.

End Frame.

(** Decompose a handler into the steps above; a step that writes the part
    in question is left over. *)
Ltac frame_step :=
  match goal with
  | |- unchanged _ (bind _ _) => apply unchanged_bind; [| intros ?]
  | |- unchanged _ (ret _) => apply unchanged_ret
  | |- unchanged _ (gets _) => apply unchanged_gets
  | |- unchanged _ (modify _) => apply unchanged_modify; intros ?; reflexivity
  | |- unchanged _ (foldM _ _ _) => apply unchanged_foldM; intros ? ?
  | |- unchanged _ (GameHandler.call_parser _ _) =>
      apply unchanged_call_parser; intros ? ?; reflexivity
  | |- unchanged _ (GameHandler.LOG _ _) => unfold GameHandler.LOG
  | |- unchanged _ (GameHandler.LOGS _) => unfold GameHandler.LOGS
  | |- unchanged _ (GameHandler.emit _) => unfold GameHandler.emit
  | |- unchanged _ (GameHandler.when _ _) => unfold GameHandler.when
  | |- unchanged _ (GameHandler.setState _) => unfold GameHandler.setState
  | |- unchanged _ (GameHandler.fail _) => unfold GameHandler.fail
  | |- unchanged _ (if ?b then _ else _) => destruct b
  | |- unchanged _ (match ?x with _ => _ end) => destruct x
  end.

Ltac frame := repeat frame_step.

Section FrameHandlers.
Context `{WorldEnv}.
Import GameHandler.

(** The handlers of inbound messages never touch the socket. *)
Lemma unchanged_socket_handlePacket packet : unchanged socket (handlePacket packet).
Proof.
  unfold handlePacket, handleAuthChallenge, sendAuthSession, handleAuthResponse,
    handleCharEnum, handleLoginVerifyWorld, handleAccountDataTimes, handleMotd,
    handlePong, handleUpdateObject, applyBlock, handleDestroyObject, handleMessageChat,
    push_chat.
  frame.
Qed.

End FrameHandlers.

Section SocketPresence.
Context `{WorldEnv}.
Import GameHandler.

Lemma unchanged_socket_update inbound pingDue : unchanged socket (update inbound pingDue).
Proof.
  unfold update, clearTarget, sendPing, PingPacket_build.
  repeat first [apply unchanged_socket_handlePacket | frame_step].
Qed.

Lemma unchanged_socket_requestCharacterList : unchanged socket requestCharacterList.
Proof. unfold requestCharacterList. frame. Qed.

Lemma unchanged_socket_selectCharacter guid : unchanged socket (selectCharacter guid).
Proof. unfold selectCharacter. frame. Qed.

Lemma unchanged_sendMovement {X : Type} (proj : GameHandler.t -> X) op :
  (forall v g, proj (set_log v g) = proj g) ->
  (forall v g, proj (set_trace v g) = proj g) ->
  (forall v g, proj (set_movementInfo v g) = proj g) ->
  (forall v g, proj (set_movementTime v g) = proj g) ->
  unchanged proj (sendMovement op).
Proof.
  intros Hl Ht Hm Hmt. unfold sendMovement.
  repeat first
    [ apply unchanged_modify; intros ?;
      rewrite ?Hl, ?Ht, ?Hm, ?Hmt; reflexivity
    | frame_step ].
Qed.

Lemma unchanged_sendChatMessage {X : Type} (proj : GameHandler.t -> X) type message target :
  (forall v g, proj (set_log v g) = proj g) ->
  (forall v g, proj (set_trace v g) = proj g) ->
  unchanged proj (sendChatMessage type message target).
Proof.
  intros Hl Ht. unfold sendChatMessage.
  repeat first
    [ apply unchanged_modify; intros ?; rewrite ?Hl, ?Ht; reflexivity
    | frame_step ].
Qed.

Lemma unchanged_setPosition {X : Type} (proj : GameHandler.t -> X) x y z :
  (forall v g, proj (set_movementInfo v g) = proj g) ->
  unchanged proj (setPosition x y z).
Proof. intros Hm. unfold setPosition. apply unchanged_modify. intros g. apply Hm. Qed.

Lemma unchanged_setOrientation {X : Type} (proj : GameHandler.t -> X) o :
  (forall v g, proj (set_movementInfo v g) = proj g) ->
  unchanged proj (setOrientation o).
Proof. intros Hm. unfold setOrientation. apply unchanged_modify. intros g. apply Hm. Qed.

Lemma unchanged_setTarget {X : Type} (proj : GameHandler.t -> X) guid :
  (forall v g, proj (set_log v g) = proj g) ->
  (forall v g, proj (set_targetGuid v g) = proj g) ->
  unchanged proj (setTarget guid).
Proof.
  intros Hl Ht. unfold setTarget.
  repeat first
    [ apply unchanged_modify; intros ?; rewrite ?Hl, ?Ht; reflexivity
    | frame_step ].
Qed.

Lemma unchanged_clearTarget {X : Type} (proj : GameHandler.t -> X) :
  (forall v g, proj (set_log v g) = proj g) ->
  (forall v g, proj (set_targetGuid v g) = proj g) ->
  (forall v g, proj (set_tabCycleIndex v g) = proj g) ->
  (forall v g, proj (set_tabCycleStale v g) = proj g) ->
  unchanged proj clearTarget.
Proof.
  intros Hl Ht Hi Hs. unfold clearTarget.
  repeat first
    [ apply unchanged_modify; intros ?; rewrite ?Hl, ?Ht, ?Hi, ?Hs; reflexivity
    | frame_step ].
Qed.

Lemma unchanged_tabTarget {X : Type} (proj : GameHandler.t -> X) sorted :
  (forall v g, proj (set_log v g) = proj g) ->
  (forall v g, proj (set_targetGuid v g) = proj g) ->
  (forall v g, proj (set_tabCycleIndex v g) = proj g) ->
  (forall v g, proj (set_tabCycleStale v g) = proj g) ->
  (forall v g, proj (set_tabCycleList v g) = proj g) ->
  unchanged proj (tabTarget sorted).
Proof.
  intros Hl Ht Hi Hs Hc. unfold tabTarget.
  repeat first
    [ apply unchanged_clearTarget; assumption
    | apply unchanged_setTarget; assumption
    | apply unchanged_modify; intros ?; rewrite ?Hl, ?Ht, ?Hi, ?Hs, ?Hc; reflexivity
    | frame_step ].
Qed.

Lemma unchanged_push_chat {X : Type} (proj : GameHandler.t -> X) msg :
  (forall v g, proj (set_chatHistory v g) = proj g) ->
  unchanged proj (push_chat msg).
Proof.
  intros Hc. unfold push_chat.
  repeat first
    [ apply unchanged_modify; intros ?; rewrite ?Hc; reflexivity
    | frame_step ].
Qed.

Lemma setState_state (X : WorldState) (g : GameHandler.t) :
  state (snd (setState X g)) = X.
Proof.
  unfold setState, bind, gets, LOG, modify. cbn.
  case_bool_decide as E; cbn; [reflexivity |].
  destruct (decide (state g = X)) as [-> | Hne]; [reflexivity | contradiction].
Qed.

Lemma disconnect_effect (g : GameHandler.t) :
  state (exec disconnect g) = DISCONNECTED
  /\ socket (exec disconnect g) = false
  /\ trace (exec disconnect g)
     = trace g ++ (if socket g then [EvDisconnect] else []).
Proof.
  unfold exec, disconnect, when, setState, bind, gets, emit, LOG, modify, ret.
  destruct g as [sock st ? ? ? ? ? ? ? ? ? ? ? ? ? ? ? ? ? tr]. cbn.
  destruct sock; cbn; case_bool_decide as E; cbn;
    rewrite ?app_nil_r; repeat split; try reflexivity;
    destruct (decide (st = DISCONNECTED)) as [-> | Hne]; try reflexivity; contradiction.
Qed.

Lemma update_without_socket inbound pingDue (g : GameHandler.t) :
  socket g = false -> exec (update inbound pingDue) g = g.
Proof.
  intros Hs. unfold exec, update, bind, gets. cbn. now rewrite Hs.
Qed.

(** Operations that return at once outside their states. *)
Lemma requestCharacterList_idle (g : GameHandler.t) :
  state g <> READY -> state g <> AUTHENTICATED ->
  exists l, exec requestCharacterList g = set_log (log g ++ l) g.
Proof.
  intros H1 H2. unfold exec, requestCharacterList, bind, gets. cbn.
  rewrite !bool_decide_eq_true_2 by assumption. cbn. eexists. reflexivity.
Qed.

Lemma selectCharacter_idle guid (g : GameHandler.t) :
  state g <> CHAR_LIST_RECEIVED ->
  exists l, exec (selectCharacter guid) g = set_log (log g ++ l) g.
Proof.
  intros H1. unfold exec, selectCharacter, bind, gets. cbn.
  rewrite !bool_decide_eq_true_2 by assumption. cbn. eexists. reflexivity.
Qed.

Lemma sendMovement_idle op (g : GameHandler.t) :
  state g <> IN_WORLD ->
  exists l, exec (sendMovement op) g = set_log (log g ++ l) g.
Proof.
  intros H1. unfold exec, sendMovement, bind, gets. cbn.
  rewrite !bool_decide_eq_true_2 by assumption. cbn. eexists. reflexivity.
Qed.

Lemma sendChatMessage_idle type message target (g : GameHandler.t) :
  state g <> IN_WORLD ->
  exists l, exec (sendChatMessage type message target) g = set_log (log g ++ l) g.
Proof.
  intros H1. unfold exec, sendChatMessage, bind, gets. cbn.
  rewrite !bool_decide_eq_true_2 by assumption. cbn. eexists. reflexivity.
Qed.

End SocketPresence.

Section SocketInvariant.
Context `{WorldEnv}.
Import GameHandler.

Lemma state_idle_cases (g : GameHandler.t) :
  (state g <> DISCONNECTED -> state g <> FAILED -> socket g = true) ->
  socket g = false ->
  state g = DISCONNECTED \/ state g = FAILED.
Proof.
  intros Hinv Hs.
  destruct (decide (state g = DISCONNECTED)) as [E | E]; [now left |].
  destruct (decide (state g = FAILED)) as [E' | E']; [now right |].
  rewrite (Hinv E E') in Hs. discriminate.
Qed.

(** Without a socket a call of the public interface uses no socket, and it
    keeps the handler outside the states that have one. *)
Lemma step_without_socket (g g' : GameHandler.t) :
  step g g' ->
  socket g = false ->
  state g = DISCONNECTED \/ state g = FAILED ->
  (exists evs, trace g' = trace g ++ evs /\ Forall (fun e => uses_socket e = false) evs)
  /\ (state g' <> DISCONNECTED -> state g' <> FAILED -> socket g' = true).
Proof.
  intros Hstep Hs Hst.
  assert (Hidle : forall l, let g1 := set_log (log g ++ l) g in
            (exists evs, trace g1 = trace g ++ evs
                         /\ Forall (fun e => uses_socket e = false) evs)
            /\ (state g1 <> DISCONNECTED -> state g1 <> FAILED -> socket g1 = true)).
  { intros l. cbn. split; [exists []; split; [now rewrite app_nil_r | constructor] |].
    intros H1 H2. exfalso. destruct Hst as [E | E]; [apply H1 | apply H2]; exact E. }
  assert (Hframe : forall g1, trace g1 = trace g -> state g1 = state g ->
            (exists evs, trace g1 = trace g ++ evs
                         /\ Forall (fun e => uses_socket e = false) evs)
            /\ (state g1 <> DISCONNECTED -> state g1 <> FAILED -> socket g1 = true)).
  { intros g1 Et Es. split; [exists []; split; [now rewrite app_nil_r | constructor] |].
    rewrite Es. intros H1 H2. destruct Hst; contradiction. }
  destruct Hstep.
  - pose proof (connect_effect g host port key account build0 seed connOk) as [Hbad Hok].
    cbv zeta in Hbad, Hok. unfold exec.
    destruct (decide (length key = 40%nat)) as [E | E].
    + destruct (Hok E) as (_ & _ & Hsock & _ & Htr). split; [| now intros _ _].
      eexists. split; [exact Htr |].
      constructor; [reflexivity |]. destruct connOk; repeat constructor.
    + destruct (Hbad E) as (_ & Hfailed & Htr & _ & _). split; [| intros _ Hf; contradiction].
      eexists. split; [exact Htr | repeat constructor].
  - destruct (disconnect_effect g) as (Hd & _ & Htr). rewrite Hs in Htr.
    split; [| intros Hne; contradiction].
    exists []. split; [exact Htr | constructor].
  - rewrite update_without_socket by exact Hs.
    apply Hframe; reflexivity.
  - destruct (requestCharacterList_idle g) as [l ->]; [destruct Hst; congruence .. |].
    apply Hidle.
  - destruct (selectCharacter_idle guid g) as [l ->]; [destruct Hst; congruence |].
    apply Hidle.
  - destruct (sendMovement_idle op g) as [l ->]; [destruct Hst; congruence |].
    apply Hidle.
  - destruct (sendChatMessage_idle type message target g) as [l ->];
      [destruct Hst; congruence |].
    apply Hidle.
  - apply Hframe; apply (unchanged_setPosition _ x y z); reflexivity.
  - apply Hframe; apply (unchanged_setOrientation _ o); reflexivity.
  - apply Hframe; apply (unchanged_setTarget _ guid); reflexivity.
  - apply Hframe; apply unchanged_clearTarget; reflexivity.
  - apply Hframe; apply (unchanged_tabTarget _ sorted); reflexivity.
  - apply Hframe; apply (unchanged_push_chat _ msg); reflexivity.
Qed.

Lemma step_keeps_socket (g g' : GameHandler.t) :
  step g g' ->
  (state g <> DISCONNECTED -> state g <> FAILED -> socket g = true) ->
  state g' <> DISCONNECTED -> state g' <> FAILED -> socket g' = true.
Proof.
  intros Hstep Hinv.
  destruct (socket g) eqn:Hs.
  - clear Hinv. intros Hnd Hnf.
    destruct Hstep; unfold exec in *.
    + pose proof (connect_effect g host port key account build0 seed connOk) as [Hbad Hok].
      cbv zeta in Hbad, Hok.
      destruct (decide (length key = 40%nat)) as [E | E].
      * now destruct (Hok E) as (_ & _ & Hsock & _).
      * destruct (Hbad E) as (_ & Hfailed & _). contradiction.
    + destruct (disconnect_effect g) as (Hd & _). unfold exec in Hd. contradiction.
    + now rewrite unchanged_socket_update.
    + now rewrite unchanged_socket_requestCharacterList.
    + now rewrite unchanged_socket_selectCharacter.
    + rewrite (unchanged_sendMovement socket); [exact Hs | reflexivity ..].
    + rewrite (unchanged_sendChatMessage socket); [exact Hs | reflexivity ..].
    + rewrite (unchanged_setPosition socket); [exact Hs | reflexivity ..].
    + rewrite (unchanged_setOrientation socket); [exact Hs | reflexivity ..].
    + rewrite (unchanged_setTarget socket); [exact Hs | reflexivity ..].
    + rewrite (unchanged_clearTarget socket); [exact Hs | reflexivity ..].
    + rewrite (unchanged_tabTarget socket); [exact Hs | reflexivity ..].
    + rewrite (unchanged_push_chat socket); [exact Hs | reflexivity ..].
  - refine (proj2 (step_without_socket g g' Hstep Hs _)).
    destruct (decide (state g = DISCONNECTED)) as [E | E]; [now left |].
    destruct (decide (state g = FAILED)) as [E' | E']; [now right |].
    discriminate (Hinv E E').
Qed.

Lemma reachable_socket (g : GameHandler.t) :
  reachable g -> state g <> DISCONNECTED -> state g <> FAILED -> socket g = true.
Proof.
  induction 1 as [| g g' _ IH Hstep].
  - intros Hne. now contradiction Hne.
  - now apply (step_keeps_socket g g').
Qed.

(** X6.  In every state that a freshly constructed handler reaches
    through its public interface, a session that is neither
    [DISCONNECTED] nor [FAILED] has its socket; and a call made while
    there is no socket neither sends nor initialises the cipher.  So
    [socket->send] and [socket->initEncryption] are never reached with a
    null socket. *)
Theorem reachable_session_has_socket :
  forall g : GameHandler.t,
    reachable g ->
    (state g <> DISCONNECTED -> state g <> FAILED -> socket g = true)
    /\ (forall g', step g g' -> socket g = false ->
          exists evs, trace g' = trace g ++ evs
                      /\ Forall (fun e => uses_socket e = false) evs).
Proof.
  intros g Hr. split; [now apply reachable_socket |].
  intros g' Hstep Hs.
  refine (proj1 (step_without_socket g g' Hstep Hs _)).
  apply state_idle_cases; [now apply reachable_socket | exact Hs].
Qed.

End SocketInvariant.

(** Example: after a successful [connect] the handler is [CONNECTED] and
    has its socket. *)
Lemma reachable_session_has_socket_witness :
  let g := GameHandler.exec
             (GameHandler.connect "realm" 8085 (repeat 7 40) [116; 101; 115; 116]
                12340 1 true)
             (@GameHandler.new wotlk_env) in
  GameHandler.state g = CONNECTED /\ GameHandler.socket g = true.
Proof.
  cbv zeta. split; [reflexivity |].
  refine (proj1 (@reachable_session_has_socket wotlk_env _ _) _ _).
  - eapply GameHandler.reachable_step;
      [apply GameHandler.reachable_new | apply GameHandler.step_connect].
  - discriminate.
  - discriminate.
Defined.

(** ** The chat history *)

Section ChatHistoryBound.
Context `{WorldEnv}.
Import GameHandler.

Lemma push_chat_history msg (g : GameHandler.t) :
  chatHistory (snd (push_chat msg g))
  = (if (maxChatHistory <? length (chatHistory g ++ [msg]))%nat
     then tail (chatHistory g ++ [msg]) else chatHistory g ++ [msg]).
Proof.
  unfold push_chat, bind, modify, gets, when. cbn [fst snd chatHistory set_chatHistory].
  destruct (maxChatHistory <? length (chatHistory g ++ [msg]))%nat; reflexivity.
Qed.

Lemma push_chat_drops_oldest msg (g : GameHandler.t) :
  chat_bounded g ->
  chatHistory (snd (push_chat msg g))
  = List.skipn (S (length (chatHistory g)) - maxChatHistory) (chatHistory g ++ [msg]).
Proof.
  unfold chat_bounded. intros Hb. rewrite push_chat_history.
  rewrite length_app. cbn [length]. rewrite Nat.add_1_r.
  destruct (Nat.ltb_spec maxChatHistory (S (length (chatHistory g)))) as [Hlt | Hge].
  - replace (S (length (chatHistory g)) - maxChatHistory)%nat with 1%nat by lia.
    reflexivity.
  - replace (S (length (chatHistory g)) - maxChatHistory)%nat with 0%nat by lia.
    reflexivity.
Qed.

Lemma keeps_bound_push_chat msg : keeps chat_bounded (push_chat msg).
Proof.
  intros g Hb. unfold chat_bounded in *. rewrite push_chat_history.
  rewrite length_app. cbn [length]. rewrite Nat.add_1_r.
  destruct (Nat.ltb_spec maxChatHistory (S (length (chatHistory g)))) as [Hlt | Hge].
  - destruct (chatHistory g ++ [msg]) as [| a r] eqn:E.
    + cbn. lia.
    + cbn [tail]. apply (f_equal (@length _)) in E.
      rewrite length_app in E. cbn in E. lia.
  - rewrite length_app. cbn. lia.
Qed.

Lemma keeps_bound_unchanged {A : Type} (m : Handler A) :
  unchanged chatHistory m -> keeps chat_bounded m.
Proof.
  intros Hm.
  exact (unchanged_keeps chatHistory (fun h => (length h <= maxChatHistory)%nat) m Hm).
Qed.

Lemma keeps_bound_handleMessageChat packet : keeps chat_bounded (handleMessageChat packet).
Proof.
  unfold handleMessageChat.
  repeat first
    [ apply keeps_bound_push_chat
    | match goal with
      | |- keeps _ (bind _ _) => apply keeps_bind; [| intros ?]
      | |- keeps _ (if ?b then _ else _) => destruct b
      | |- keeps _ (match ?x with _ => _ end) => destruct x
      end
    | apply keeps_bound_unchanged; frame ].
Qed.

Lemma keeps_bound_handlePacket packet : keeps chat_bounded (handlePacket packet).
Proof.
  unfold handlePacket.
  repeat first
    [ apply keeps_bound_handleMessageChat
    | match goal with
      | |- keeps _ (bind _ _) => apply keeps_bind; [| intros ?]
      | |- keeps _ (if ?b then _ else _) => destruct b
      | |- keeps _ (match ?x with _ => _ end) => destruct x
      end
    | apply keeps_bound_unchanged;
      unfold handleAuthChallenge, sendAuthSession, handleAuthResponse,
        handleCharEnum, handleLoginVerifyWorld, handleAccountDataTimes, handleMotd,
        handlePong, handleUpdateObject, applyBlock, handleDestroyObject;
      frame ].
Qed.

Lemma keeps_bound_update inbound pingDue : keeps chat_bounded (update inbound pingDue).
Proof.
  unfold update.
  repeat first
    [ apply keeps_bound_handlePacket
    | match goal with
      | |- keeps _ (bind _ _) => apply keeps_bind; [| intros ?]
      | |- keeps _ (foldM _ _ _) => apply keeps_foldM; intros ? ?
      | |- keeps _ (if ?b then _ else _) => destruct b
      end
    | apply keeps_bound_unchanged;
      unfold clearTarget, sendPing, PingPacket_build; frame ].
Qed.

Lemma step_keeps_bound (g g' : GameHandler.t) :
  step g g' -> chat_bounded g -> chat_bounded g'.
Proof.
  intros Hstep Hb. destruct Hstep; unfold exec.
  - revert Hb. apply keeps_bound_unchanged. unfold connect. frame.
  - revert Hb. apply keeps_bound_unchanged. unfold disconnect. frame.
  - revert Hb. apply keeps_bound_update.
  - revert Hb. apply keeps_bound_unchanged. unfold requestCharacterList. frame.
  - revert Hb. apply keeps_bound_unchanged. unfold selectCharacter. frame.
  - revert Hb. apply keeps_bound_unchanged, unchanged_sendMovement; reflexivity.
  - revert Hb. apply keeps_bound_unchanged, unchanged_sendChatMessage; reflexivity.
  - revert Hb. apply keeps_bound_unchanged, unchanged_setPosition; reflexivity.
  - revert Hb. apply keeps_bound_unchanged, unchanged_setOrientation; reflexivity.
  - revert Hb. apply keeps_bound_unchanged, unchanged_setTarget; reflexivity.
  - revert Hb. apply keeps_bound_unchanged, unchanged_clearTarget; reflexivity.
  - revert Hb. apply keeps_bound_unchanged, unchanged_tabTarget; reflexivity.
  - revert Hb. apply keeps_bound_push_chat.
Qed.

Lemma reachable_bound (g : GameHandler.t) : reachable g -> chat_bounded g.
Proof.
  induction 1 as [| g g' _ IH Hstep].
  - unfold chat_bounded, maxChatHistory. cbn. lia.
  - now apply (step_keeps_bound g g').
Qed.

(** X7.  The chat history never holds more than [maxChatHistory] (100)
    messages, in any state that a freshly constructed handler reaches; a
    message that is added goes to the end, and when the history is full
    the oldest message is the one that is dropped. *)
Theorem chat_history_is_bounded_fifo :
  forall g : GameHandler.t,
    reachable g ->
    (length (chatHistory g) <= maxChatHistory)%nat
    /\ forall msg,
         chatHistory (exec (addLocalChatMessage msg) g)
         = List.skipn (S (length (chatHistory g)) - maxChatHistory) (chatHistory g ++ [msg]).
Proof.
  intros g Hr. pose proof (reachable_bound g Hr) as Hb. split; [exact Hb |].
  intros msg. unfold exec, addLocalChatMessage. now apply push_chat_drops_oldest.
Qed.

End ChatHistoryBound.

(** Example: one local message added to a new handler. *)
Lemma chat_history_is_bounded_fifo_witness :
  GameHandler.chatHistory
    (GameHandler.exec (@GameHandler.addLocalChatMessage wotlk_env [104; 105])
       (@GameHandler.new wotlk_env))
  = [[104; 105]].
Proof.
  exact (proj2 (@chat_history_is_bounded_fifo wotlk_env _ GameHandler.reachable_new)
               ([104; 105] : @MessageChatData wotlk_env)).
Defined.

(** ** Messages that are only logged *)

Lemma quiet_appends {A : Type} (e : LogEntry) (m : Parser A) : quiet e m -> appends m.
Proof. intros Hq s. destruct (Hq s) as [d [E _]]. now exists d. Qed.

Lemma quiet_readString_from (e : LogEntry) (fuel : nat) (acc : list Z) :
  quiet e (readString_from fuel acc).
Proof.
  revert acc. induction fuel as [| fuel IH]; intros acc; cbn [readString_from].
  - intros s. exists []. cbn. now rewrite app_nil_r.
  - apply quiet_bind; [apply quiet_lift_read | intros c].
    destruct (c =? 0); [apply quiet_ret | apply IH].
Qed.

Lemma quiet_readString (e : LogEntry) : quiet e readString.
Proof.
  unfold readString. apply quiet_bind; [apply quiet_gets | intros size].
  apply quiet_readString_from.
Qed.

Lemma appends_AccountDataTimesParser : appends AccountDataTimesParser_parse.
Proof.
  apply (quiet_appends (FATAL, EmptyString)).
  unfold AccountDataTimesParser_parse. repeat quiet_step.
Qed.

Lemma appends_PongParser : appends PongParser_parse.
Proof.
  apply (quiet_appends (FATAL, EmptyString)).
  unfold PongParser_parse. repeat quiet_step.
Qed.

Lemma appends_MotdParser : appends MotdParser_parse.
Proof.
  apply (quiet_appends (FATAL, EmptyString)).
  unfold MotdParser_parse.
  repeat first [apply quiet_readString | quiet_step].
Qed.

Section LogOnly.
Context `{WorldEnv}.
Import GameHandler.

Lemma set_log_set_log (l1 l2 : Log) (g : GameHandler.t) :
  set_log l2 (set_log l1 g) = set_log l2 g.
Proof. reflexivity. Qed.

Lemma set_log_same (g : GameHandler.t) : set_log (log g) g = g.
Proof. now destruct g. Qed.

Lemma log_only_ret {A : Type} (a : A) : log_only (ret a).
Proof. intros g. exists []. cbn. now rewrite app_nil_r, set_log_same. Qed.

Lemma log_only_gets {A : Type} (f : GameHandler.t -> A) : log_only (gets f).
Proof. intros g. exists []. cbn. now rewrite app_nil_r, set_log_same. Qed.

Lemma log_only_bind {A B : Type} (m : Handler A) (k : A -> Handler B) :
  log_only m -> (forall a, log_only (k a)) -> log_only (bind m k).
Proof.
  intros Hm Hk g. unfold bind. destruct (Hm g) as [l1 E1].
  destruct (m g) as [[a |] g1]; cbn [snd] in *; [| now exists l1].
  destruct (Hk a g1) as [l2 E2]. exists (l1 ++ l2).
  rewrite E2, E1. cbn [log set_log]. now rewrite set_log_set_log, app_assoc.
Qed.

Lemma log_only_LOG (lvl : LogLevel) (msg : string) : log_only (LOG lvl msg).
Proof. intros g. now exists [(lvl, msg)]. Qed.

Lemma log_only_LOGS (l : Log) : log_only (LOGS l).
Proof. intros g. now exists l. Qed.

Lemma log_only_foldM {A B : Type} (f : B -> A -> Handler B) (l : list A) :
  (forall b a, log_only (f b a)) -> forall b, log_only (foldM f l b).
Proof.
  intros Hf. induction l as [| a l IH]; intros b; cbn [foldM].
  - apply log_only_ret.
  - apply log_only_bind; [apply Hf | exact IH].
Qed.

Lemma log_only_call_parser {A : Type} (m : Parser A) (packet : Packet.t) :
  appends m -> log_only (call_parser m packet).
Proof.
  intros Hm g. unfold call_parser, run_parser.
  destruct (Hm (mkPState packet (log g))) as [d E].
  destruct (m (mkPState packet (log g))) as [r ps]. cbn [snd plog] in *.
  exists d. now rewrite E.
Qed.

Lemma log_only_handleAccountDataTimes packet : log_only (handleAccountDataTimes packet).
Proof.
  unfold handleAccountDataTimes.
  apply log_only_bind; [apply log_only_LOG | intros _].
  apply log_only_bind; [apply log_only_call_parser, appends_AccountDataTimesParser |].
  intros [ok data]. destruct (negb ok); apply log_only_LOG.
Qed.

Lemma log_only_handlePong packet : log_only (handlePong packet).
Proof.
  unfold handlePong.
  apply log_only_bind; [apply log_only_LOG | intros _].
  apply log_only_bind; [apply log_only_call_parser, appends_PongParser |].
  intros [ok data]. destruct (negb ok); [apply log_only_LOG |].
  apply log_only_bind; [apply log_only_gets | intros seqno].
  destruct (negb (sequence data =? seqno)); apply log_only_LOG.
Qed.

Lemma log_only_handleMotd packet : log_only (handleMotd packet).
Proof.
  unfold handleMotd.
  apply log_only_bind; [apply log_only_LOG | intros _].
  apply log_only_bind; [apply log_only_call_parser, appends_MotdParser |].
  intros [ok data]. destruct (negb ok); [apply log_only_LOG |].
  destruct (lines data) as [| line rest]; [apply log_only_ret |].
  apply log_only_bind; [apply log_only_LOGS | intros _].
  apply log_only_bind; [| intros _; apply log_only_LOG].
  apply log_only_foldM. intros _ _. apply log_only_LOG.
Qed.

(** X9.  The informational messages (account data times, message of the
    day, pong) never change the session, in any state and whatever they
    hold: only the log grows, also when they are too short, when a string
    runs past the end of the message, or when the pong does not answer the
    last ping. *)
Theorem handlePacket_informational_only_logs :
  forall (g : GameHandler.t) (packet : Packet.t),
    In (Packet.opcode packet) [SMSG_ACCOUNT_DATA_TIMES; SMSG_MOTD; SMSG_PONG] ->
    exists l : Log, exec (handlePacket packet) g = set_log (log g ++ l) g.
Proof.
  intros g packet Hop.
  assert (Hlo : log_only (handlePacket packet)).
  { unfold handlePacket, Packet.getOpcode.
    destruct (Packet.getSize packet <? 1)%nat; [apply log_only_LOG |].
    apply log_only_bind; [apply log_only_LOG | intros _].
    apply log_only_bind; [apply log_only_gets | intros st].
    destruct Hop as [<- | [<- | [<- | []]]].
    - apply log_only_handleAccountDataTimes.
    - apply log_only_handleMotd.
    - apply log_only_handlePong. }
  exact (Hlo g).
Qed.

End LogOnly.

(** Example: a message of the day that announces two lines and holds one
    without its terminator, received before the handler is connected. *)
Lemma handlePacket_informational_only_logs_witness :
  let g := @GameHandler.new wotlk_env in
  exists l : Log,
    GameHandler.exec (GameHandler.handlePacket (Packet.mk SMSG_MOTD [2; 0; 0; 0; 72; 105] 0)) g
    = GameHandler.set_log (GameHandler.log g ++ l) g.
Proof.
  cbv zeta.
  apply (@handlePacket_informational_only_logs wotlk_env).
  right. left. reflexivity.
Defined.

(** ** Messages that are not valid in the state *)

Section SessionDispatch.
Context `{WorldEnv}.
Import GameHandler.

Lemma log_only_handlePacket_informational (packet : Packet.t) :
  informational (Packet.opcode packet) = true -> log_only (handlePacket packet).
Proof.
  intros Hinf. unfold handlePacket, Packet.getOpcode.
  destruct (Packet.getSize packet <? 1)%nat; [apply log_only_LOG |].
  apply log_only_bind; [apply log_only_LOG | intros _].
  apply log_only_bind; [apply log_only_gets | intros st].
  destruct (Packet.opcode packet); try discriminate Hinf.
  - apply log_only_handleAccountDataTimes.
  - apply log_only_handleMotd.
  - apply log_only_handlePong.
Qed.

(** A message that [handlePacket] gives to no handler. *)
Lemma handlePacket_not_dispatched (g : GameHandler.t) (packet : Packet.t) :
  valid_in_state (Packet.opcode packet) (state g) = false ->
  informational (Packet.opcode packet) = false ->
  exists l' : Log,
    handlePacket packet g = (Done tt, set_log (log g ++ l') g)
    /\ Forall (fun e => fst e = DEBUG \/ fst e = WARNING) l'.
Proof.
  intros Hinv Hinf. unfold handlePacket.
  destruct (Packet.getSize packet <? 1)%nat.
  - exists [(WARNING, "Received empty packet")]. split; [reflexivity |].
    log_levels.
  - unfold Packet.getOpcode, bind, LOG, modify, gets, ret. cbn.
    destruct (Packet.opcode packet); cbn in Hinv, Hinf; try discriminate;
      try (apply bool_decide_eq_false in Hinv; rewrite bool_decide_eq_false_2 by exact Hinv);
      cbn;
      first
        [ (eexists [(DEBUG, _); (WARNING, _)]; split;
           [rewrite <- app_assoc; reflexivity | log_levels])
        | (eexists [(DEBUG, _)]; split;
           [reflexivity | log_levels]) ].
Qed.

(** C5: a message whose type is unknown, or is not valid in the current
    state, leaves every member of the handler but the log as it was: the
    state is the same (so the handler does not become [FAILED]), no event
    happens and the entity table is untouched.  This holds also for the
    informational messages that arrive before the session is past
    [AUTHENTICATED] or in [FAILED], which [handlePacket] gives to their
    handlers in every state.  For every other such message [handlePacket]
    returns normally and only adds calls at the debug and warning levels
    to the log; an informational message is decoded and logged, and the
    error of the cursor leaves [handlePacket] when it is truncated. *)
Theorem handlePacket_discards_invalid_message :
  forall (g : GameHandler.t) (packet : Packet.t),
    valid_in_state (Packet.opcode packet) (state g) = false ->
    exists l' : Log,
      exec (handlePacket packet) g = set_log (log g ++ l') g
      /\ state (exec (handlePacket packet) g) = state g
      /\ trace (exec (handlePacket packet) g) = trace g
      /\ entityManager (exec (handlePacket packet) g) = entityManager g
      /\ (state g <> FAILED -> state (exec (handlePacket packet) g) <> FAILED)
      /\ (informational (Packet.opcode packet) = false ->
            fst (handlePacket packet g) = Done tt
            /\ Forall (fun e => fst e = DEBUG \/ fst e = WARNING) l').
Proof.
  intros g packet Hinv.
  assert (Hmain : exists l' : Log,
            exec (handlePacket packet) g = set_log (log g ++ l') g
            /\ (informational (Packet.opcode packet) = false ->
                  fst (handlePacket packet g) = Done tt
                  /\ Forall (fun e => fst e = DEBUG \/ fst e = WARNING) l')).
  { destruct (informational (Packet.opcode packet)) eqn:Hinf.
    - destruct (log_only_handlePacket_informational packet Hinf g) as [l' E].
      exists l'. split; [exact E | discriminate].
    - destruct (handlePacket_not_dispatched g packet Hinv Hinf) as [l' [E Hl]].
      exists l'. unfold exec. rewrite E. split; [reflexivity |].
      intros _. split; [reflexivity | exact Hl]. }
  destruct Hmain as [l' [E Hl]]. exists l'. rewrite E. cbn.
  repeat split; auto; apply Hl; assumption.
Qed.

End SessionDispatch.

(** Example: an unknown message type in [IN_WORLD], a character list that
    arrives in [IN_WORLD], and a message of the day without the terminator
    of its line that arrives in [CONNECTED], change nothing but the log. *)
Lemma handlePacket_discards_invalid_message_witness :
  GameHandler.state
    (GameHandler.exec (GameHandler.handlePacket (Packet.mk (OtherOpcode 0x3C) [1; 2; 3] 0))
       (GameHandler.set_state IN_WORLD (@GameHandler.new wotlk_env)))
  = IN_WORLD
  /\ GameHandler.state
       (GameHandler.exec (GameHandler.handlePacket (Packet.mk SMSG_CHAR_ENUM [0] 0))
          (GameHandler.set_state IN_WORLD (@GameHandler.new wotlk_env)))
     = IN_WORLD
  /\ GameHandler.state
       (GameHandler.exec
          (GameHandler.handlePacket (Packet.mk SMSG_MOTD [2; 0; 0; 0; 72; 105] 0))
          (GameHandler.set_state CONNECTED (@GameHandler.new wotlk_env)))
     = CONNECTED.
Proof.
  split; [| split].
  - destruct (@handlePacket_discards_invalid_message wotlk_env
                (GameHandler.set_state IN_WORLD (@GameHandler.new wotlk_env))
                (Packet.mk (OtherOpcode 0x3C) [1; 2; 3] 0) eq_refl)
      as [l' [_ [Hs _]]].
    exact Hs.
  - destruct (@handlePacket_discards_invalid_message wotlk_env
                (GameHandler.set_state IN_WORLD (@GameHandler.new wotlk_env))
                (Packet.mk SMSG_CHAR_ENUM [0] 0) eq_refl)
      as [l' [_ [Hs _]]].
    exact Hs.
  - destruct (@handlePacket_discards_invalid_message wotlk_env
                (GameHandler.set_state CONNECTED (@GameHandler.new wotlk_env))
                (Packet.mk SMSG_MOTD [2; 0; 0; 0; 72; 105] 0) eq_refl)
      as [l' [_ [Hs _]]].
    exact Hs.
Defined.

(** ** How a failed decode of SMSG_UPDATE_OBJECT is reported *)


(** ** The session state machine *)

Section StateMachine.
Context `{WorldEnv}.
Import GameHandler.

Lemma returns_modify (f : GameHandler.t -> GameHandler.t) : returns (modify f).
Proof. intros g. now exists tt. Qed.

Lemma returns_LOG lvl msg : returns (LOG lvl msg).
Proof. intros g. now exists tt. Qed.

Lemma returns_LOGS l : returns (LOGS l).
Proof. intros g. now exists tt. Qed.

Lemma returns_setState X : returns (setState X).
Proof.
  intros g. exists tt. unfold setState, bind, gets, LOG, modify. cbn.
  now case_bool_decide.
Qed.

Lemma ends_in_setState X : ends_in X (setState X).
Proof. intros g. apply setState_state. Qed.

Lemma ends_in_fail reason : ends_in FAILED (fail reason).
Proof. intros g. apply fail_effect. Qed.

Lemma ends_in_after {A B : Type} X (m : Handler A) (k : A -> Handler B) :
  returns m -> (forall a, ends_in X (k a)) -> ends_in X (bind m k).
Proof.
  intros Hm Hk g. unfold bind. destruct (Hm g) as [a Ea].
  destruct (m g) as [[a' |] g1]; cbn [fst snd] in *; [apply Hk | discriminate].
Qed.

Lemma ends_in_then {A B : Type} X (m : Handler A) (k : A -> Handler B) :
  ends_in X m -> (forall a, unchanged state (k a)) -> ends_in X (bind m k).
Proof.
  intros Hm Hk g. unfold bind. specialize (Hm g).
  destruct (m g) as [[a |] g1]; cbn [snd] in *; [| exact Hm].
  now rewrite Hk.
Qed.

Lemma settles_unchanged {A : Type} T (m : Handler A) : unchanged state m -> settles T m.
Proof. intros Hm g. left. apply Hm. Qed.

Lemma settles_ends_in {A : Type} (T : WorldState -> Prop) X (m : Handler A) :
  T X -> ends_in X m -> settles T m.
Proof. intros HX Hm g. right. now rewrite Hm. Qed.

Lemma settles_bind {A B : Type} T (m : Handler A) (k : A -> Handler B) :
  unchanged state m -> (forall a, settles T (k a)) -> settles T (bind m k).
Proof.
  intros Hm Hk g. unfold bind. specialize (Hm g).
  destruct (m g) as [[a |] g1]; cbn [snd] in *; [| now left].
  rewrite <- Hm. apply Hk.
Qed.

Lemma unchanged_state_LOG lvl msg : unchanged state (LOG lvl msg).
Proof. unfold LOG. frame. Qed.

Lemma unchanged_state_call_parser {A : Type} (m : Parser A) packet :
  unchanged state (call_parser m packet).
Proof. frame. Qed.

Lemma ends_in_sendAuthSession : ends_in AUTH_SENT sendAuthSession.
Proof. intros g. exact (proj2 (proj2 (sendAuthSession_effect g))). Qed.

Lemma settles_handleAuthChallenge packet :
  settles (fun st => st = FAILED \/ st = AUTH_SENT) (handleAuthChallenge packet).
Proof.
  unfold handleAuthChallenge.
  apply settles_bind; [apply unchanged_state_LOG | intros _].
  apply settles_bind; [apply unchanged_state_call_parser | intros [ok challenge]].
  destruct (negb ok);
    [apply (settles_ends_in _ FAILED); [now left | apply ends_in_fail] |].
  destruct (negb (AuthChallengeData_isValid challenge));
    [apply (settles_ends_in _ FAILED); [now left | apply ends_in_fail] |].
  apply (settles_ends_in _ AUTH_SENT); [now right |].
  apply ends_in_after; [apply returns_modify | intros _].
  apply ends_in_after; [apply returns_LOG | intros _].
  apply ends_in_after; [apply returns_setState | intros _].
  apply ends_in_sendAuthSession.
Qed.

Lemma settles_handleAuthResponse packet :
  settles (fun st => st = FAILED \/ st = READY) (handleAuthResponse packet).
Proof.
  unfold handleAuthResponse.
  apply settles_bind; [apply unchanged_state_LOG | intros _].
  apply settles_bind; [apply unchanged_state_call_parser | intros [ok response]].
  destruct (negb ok);
    [apply (settles_ends_in _ FAILED); [now left | apply ends_in_fail] |].
  destruct (negb (AuthResponseData_isSuccess response));
    [apply (settles_ends_in _ FAILED); [now left | apply ends_in_fail] |].
  apply (settles_ends_in _ READY); [now right |].
  apply ends_in_after; [apply returns_setState | intros _].
  apply ends_in_after; [apply returns_LOGS | intros _].
  apply ends_in_then; [apply ends_in_setState | intros _]. frame.
Qed.

Lemma settles_handleCharEnum packet :
  settles (fun st => st = FAILED \/ st = CHAR_LIST_RECEIVED) (handleCharEnum packet).
Proof.
  unfold handleCharEnum.
  apply settles_bind; [apply unchanged_state_LOG | intros _].
  apply settles_bind; [apply unchanged_state_call_parser | intros [ok chars]].
  destruct (negb ok);
    [apply (settles_ends_in _ FAILED); [now left | apply ends_in_fail] |].
  apply (settles_ends_in _ CHAR_LIST_RECEIVED); [now right |].
  apply ends_in_after; [apply returns_modify | intros _].
  apply ends_in_then; [apply ends_in_setState | intros _]. frame.
Qed.

Lemma settles_handleLoginVerifyWorld packet :
  settles (fun st => st = FAILED \/ st = IN_WORLD) (handleLoginVerifyWorld packet).
Proof.
  unfold handleLoginVerifyWorld.
  apply settles_bind; [apply unchanged_state_LOG | intros _].
  apply settles_bind; [apply unchanged_state_call_parser | intros [ok data]].
  destruct (negb ok);
    [apply (settles_ends_in _ FAILED); [now left | apply ends_in_fail] |].
  destruct (negb (LoginVerifyWorldData_isValid data));
    [apply (settles_ends_in _ FAILED); [now left | apply ends_in_fail] |].
  apply (settles_ends_in _ IN_WORLD); [now right |].
  apply ends_in_then; [apply ends_in_setState | intros _]. frame.
Qed.

Lemma unchanged_state_handleUpdateObject packet : unchanged state (handleUpdateObject packet).
Proof. unfold handleUpdateObject, applyBlock. frame. Qed.

Lemma unchanged_state_handleDestroyObject packet :
  unchanged state (handleDestroyObject packet).
Proof. unfold handleDestroyObject. frame. Qed.

Lemma unchanged_state_handleMessageChat packet : unchanged state (handleMessageChat packet).
Proof. unfold handleMessageChat, push_chat. frame. Qed.

Lemma unchanged_state_informational packet :
  unchanged state (handleAccountDataTimes packet)
  /\ unchanged state (handleMotd packet)
  /\ unchanged state (handlePong packet).
Proof.
  unfold handleAccountDataTimes, handleMotd, handlePong. repeat split; frame.
Qed.

Lemma handlePacket_state packet (g : GameHandler.t) :
  let st' := state (exec (handlePacket packet) g) in
  st' = state g \/ st' = FAILED \/ inbound_transition (state g) st' = true.
Proof.
  cbv zeta. unfold exec, handlePacket, Packet.getOpcode.
  destruct (Packet.getSize packet <? 1)%nat; [now left |].
  change (bind (LOG DEBUG "Received world packet: opcode=0x") ?k g)
    with (k tt (set_log (log g ++ [(DEBUG, "Received world packet: opcode=0x")]) g)).
  cbv beta.
  set (g1 := set_log (log g ++ [(DEBUG, "Received world packet: opcode=0x")]) g).
  change (bind (gets state) ?k g1) with (k (state g) g1). cbv beta.
  assert (Hunch : forall m : Handler unit, unchanged state m ->
            state (snd (m g1)) = state g
            \/ state (snd (m g1)) = FAILED
            \/ inbound_transition (state g) (state (snd (m g1))) = true).
  { intros m Hm. left. now rewrite Hm. }
  assert (Hset : forall (m : Handler unit) X,
            inbound_transition (state g) X = true ->
            settles (fun st => st = FAILED \/ st = X) m ->
            state (snd (m g1)) = state g
            \/ state (snd (m g1)) = FAILED
            \/ inbound_transition (state g) (state (snd (m g1))) = true).
  { intros m X HX Hm. destruct (Hm g1) as [E | [E | E]]; rewrite E; auto. }
  destruct (unchanged_state_informational packet) as (Ha & Hm & Hp).
  destruct (Packet.opcode packet);
    try (apply Hunch; first [exact Ha | exact Hm | exact Hp | apply unchanged_state_LOG]);
    case_bool_decide as E;
    try (apply Hunch;
         first [ apply unchanged_state_LOG | apply unchanged_ret
               | apply unchanged_state_handleUpdateObject
               | apply unchanged_state_handleDestroyObject
               | apply unchanged_state_handleMessageChat ]).
  - apply (Hset _ AUTH_SENT); [now rewrite E | apply settles_handleAuthChallenge].
  - apply (Hset _ READY); [now rewrite E | apply settles_handleAuthResponse].
  - apply (Hset _ CHAR_LIST_RECEIVED); [now rewrite E | apply settles_handleCharEnum].
  - apply (Hset _ IN_WORLD); [now rewrite E | apply settles_handleLoginVerifyWorld].
Qed.

Lemma requestCharacterList_state (g : GameHandler.t) :
  state (exec requestCharacterList g)
  = (if bool_decide (state g = READY \/ state g = AUTHENTICATED)
     then CHAR_LIST_REQUESTED else state g).
Proof.
  case_bool_decide as E.
  - assert (Hb : bool_decide (state g <> READY) && bool_decide (state g <> AUTHENTICATED)
                 = false).
    { destruct E as [E | E]; rewrite E; reflexivity. }
    unfold exec, requestCharacterList.
    change (bind (gets state) ?k g) with (k (state g) g). cbv beta. rewrite Hb.
    unfold CharEnumPacket_build.
    assert (He : ends_in CHAR_LIST_REQUESTED
              (LOG INFO "Requesting character list from server..." ;;;
               LOGS [(DEBUG, "Built CMSG_CHAR_ENUM packet (no body)")] ;;;
               emit (EvSend (Packet_new CMSG_CHAR_ENUM)) ;;;
               setState CHAR_LIST_REQUESTED ;;;
               LOG INFO "CMSG_CHAR_ENUM sent, waiting for character list...")).
    { apply ends_in_after; [apply returns_LOG | intros _].
      apply ends_in_after; [apply returns_LOGS | intros _].
      apply ends_in_after; [apply returns_modify | intros _].
      apply ends_in_then; [apply ends_in_setState | intros _]. frame. }
    apply He.
  - destruct (requestCharacterList_idle g) as [l ->]; [tauto | tauto | reflexivity].
Qed.

Lemma selectCharacter_state guid (g : GameHandler.t) :
  state (exec (selectCharacter guid) g)
  = (if bool_decide (state g = CHAR_LIST_RECEIVED) then ENTERING_WORLD else state g).
Proof.
  case_bool_decide as E.
  - unfold exec, selectCharacter.
    change (bind (gets state) ?k g) with (k (state g) g). cbv beta.
    change (bind (gets characters) ?k g) with (k (characters g) g). cbv beta.
    rewrite E. rewrite bool_decide_eq_false_2 by (intros Hne; now apply Hne).
    unfold PlayerLoginPacket_build.
    match goal with
    | |- state (snd (?m g)) = _ => assert (He : ends_in ENTERING_WORLD m)
    end.
    { apply ends_in_after; [apply returns_LOGS | intros _].
      apply ends_in_after;
        [unfold when; destruct (existsb _ _); [apply returns_LOGS | now exists tt]
        | intros _].
      apply ends_in_after; [apply returns_LOGS | intros _].
      apply ends_in_after; [apply returns_modify | intros _].
      apply ends_in_then; [apply ends_in_setState | intros _]. frame. }
    apply He.
  - destruct (selectCharacter_idle guid g) as [l ->]; [exact E | reflexivity].
Qed.

(** X10.  The session state machine.  Handling one inbound message leaves
    the state as it was, or makes it [FAILED], or makes one of four
    transitions: [CONNECTED] to [AUTH_SENT], [AUTH_SENT] to [READY],
    [CHAR_LIST_REQUESTED] to [CHAR_LIST_RECEIVED], [ENTERING_WORLD] to
    [IN_WORLD] (the states [CHALLENGE_RECEIVED] and [AUTHENTICATED] are
    passed through within one message).  [requestCharacterList] moves
    [READY] and [AUTHENTICATED] to [CHAR_LIST_REQUESTED] and
    [selectCharacter] moves [CHAR_LIST_RECEIVED] to [ENTERING_WORLD]; in
    every other state they change nothing of the state. *)
Theorem session_state_transitions :
  forall (g : GameHandler.t) (packet : Packet.t) (guid : Z),
    (let st' := state (exec (handlePacket packet) g) in
     st' = state g \/ st' = FAILED \/ inbound_transition (state g) st' = true)
    /\ state (exec requestCharacterList g)
       = (if bool_decide (state g = READY \/ state g = AUTHENTICATED)
          then CHAR_LIST_REQUESTED else state g)
    /\ state (exec (selectCharacter guid) g)
       = (if bool_decide (state g = CHAR_LIST_RECEIVED) then ENTERING_WORLD else state g).
Proof.
  intros g packet guid. split; [apply handlePacket_state |].
  split; [apply requestCharacterList_state | apply selectCharacter_state].
Qed.

End StateMachine.

(** ** Targeting *)

Section Targeting.
Context `{WorldEnv}.
Import GameHandler.

Lemma bind_eq {A B : Type} (m : Handler A) (k : A -> Handler B) (g : GameHandler.t) :
  bind m k g
  = match m g with
    | (Done a, g1) => k a g1
    | (Raised, g1) => (Raised, g1)
    end.
Proof. reflexivity. Qed.

Lemma clearTarget_effect (g : GameHandler.t) :
  fst (clearTarget g) = Done tt
  /\ targetGuid (snd (clearTarget g)) = 0
  /\ tabCycleIndex (snd (clearTarget g)) = -1
  /\ tabCycleStale (snd (clearTarget g)) = true
  /\ entityManager (snd (clearTarget g)) = entityManager g.
Proof.
  unfold clearTarget, when, bind, gets, LOG, modify, ret. cbn.
  destruct (negb (targetGuid g =? 0)); cbn; repeat split.
Qed.

Lemma unchanged_sendPing {X : Type} (proj : GameHandler.t -> X) :
  (forall v g, proj (set_log v g) = proj g) ->
  (forall v g, proj (set_trace v g) = proj g) ->
  (forall v g, proj (set_pingSequence v g) = proj g) ->
  unchanged proj sendPing.
Proof.
  intros Hl Ht Hp. unfold sendPing, PingPacket_build.
  repeat first
    [ apply unchanged_modify; intros ?; rewrite ?Hl, ?Ht, ?Hp; reflexivity
    | frame_step ].
Qed.

(** X11.  When [update] returns, the target is none or an entity of the
    table: a target whose entity has gone is cleared before the heartbeat
    is sent. *)
Theorem update_validates_target :
  forall (g : GameHandler.t) (inbound : list Packet.t) (pingDue : bool),
    socket g = true ->
    fst (update inbound pingDue g) = Done tt ->
    let g' := exec (update inbound pingDue) g in
    targetGuid g' = 0
    \/ EntityManager.hasEntity (entityManager g') (targetGuid g') = true.
Proof.
  intros g inbound pingDue Hs Hdone. cbv zeta. unfold exec.
  unfold update in *. rewrite bind_eq in *. cbn [gets] in *. rewrite Hs in *.
  cbn [negb] in *. rewrite bind_eq in *.
  destruct (foldM _ inbound tt g) as [[u |] g1]; [| discriminate Hdone].
  clear Hdone. rewrite bind_eq. cbn [gets]. rewrite bind_eq.
  set (stale := negb (targetGuid g1 =? 0)
                && negb (EntityManager.hasEntity (entityManager g1) (targetGuid g1))).
  assert (Hmid : exists g2,
            when stale clearTarget g1 = (Done tt, g2)
            /\ (targetGuid g2 = 0
                \/ EntityManager.hasEntity (entityManager g2) (targetGuid g2) = true)).
  { destruct stale eqn:Est; cbn [when].
    - destruct (clearTarget_effect g1) as (Hd & Ht & _ & _ & _).
      destruct (clearTarget g1) as [r g2]. cbn [fst snd] in *. subst r.
      exists g2. split; [reflexivity | now left].
    - exists g1. split; [reflexivity |].
      unfold stale in Est. apply andb_false_iff in Est as [Est | Est].
      + left. apply negb_false_iff, Z.eqb_eq in Est. exact Est.
      + right. now apply negb_false_iff in Est. }
  destruct Hmid as (g2 & -> & Hg2).
  rewrite bind_eq. cbn [gets].
  destruct (bool_decide (state g2 = IN_WORLD) && pingDue); cbn [when ret snd]; [| exact Hg2].
  rewrite (unchanged_sendPing targetGuid), (unchanged_sendPing entityManager);
    [exact Hg2 | reflexivity ..].
Qed.

Lemma setTarget_effect guid (g : GameHandler.t) :
  targetGuid (snd (setTarget guid g)) = guid
  /\ tabCycleStale (snd (setTarget guid g)) = tabCycleStale g
  /\ tabCycleList (snd (setTarget guid g)) = tabCycleList g
  /\ tabCycleIndex (snd (setTarget guid g)) = tabCycleIndex g.
Proof.
  unfold setTarget, when, bind, gets, LOG, modify, ret. cbn.
  destruct (Z.eqb_spec guid (targetGuid g)) as [-> | Hne]; cbn; [repeat split |].
  destruct (negb (guid =? 0)); cbn; repeat split.
Qed.

(** One press while the cycle list is up to date. *)
Lemma tabTarget_next (sorted : list Z) (g : GameHandler.t) :
  tabCycleStale g = false ->
  tabCycleList g <> [] ->
  let g' := exec (tabTarget sorted) g in
  tabCycleStale g' = false
  /\ tabCycleList g' = tabCycleList g
  /\ tabCycleIndex g' = Z.rem (tabCycleIndex g + 1) (Z.of_nat (length (tabCycleList g)))
  /\ targetGuid g' = nth (Z.to_nat (tabCycleIndex g')) (tabCycleList g) 0.
Proof.
  intros Hst Hl. cbv zeta. unfold exec, tabTarget.
  rewrite bind_eq. cbn [gets]. rewrite Hst. cbn [when].
  rewrite bind_eq. cbn [ret]. rewrite bind_eq. cbn [gets].
  destruct (tabCycleList g) as [| a l] eqn:El; [contradiction |].
  rewrite bind_eq. cbn [modify]. rewrite bind_eq. cbn [gets].
  set (g1 := set_tabCycleIndex _ g).
  destruct (setTarget_effect (nth (Z.to_nat (tabCycleIndex g1)) (a :: l) 0) g1)
    as (Ht & Hs & Hc & Hi).
  rewrite Ht, Hs, Hc, Hi. subst g1. cbn [tabCycleStale tabCycleList tabCycleIndex
    set_tabCycleIndex]. rewrite Hst, El. repeat split.
Qed.

(** The first press after the entities changed. *)
Lemma tabTarget_first (sorted : list Z) (g : GameHandler.t) :
  tabCycleStale g = true ->
  sorted <> [] ->
  let g' := exec (tabTarget sorted) g in
  tabCycleStale g' = false
  /\ tabCycleList g' = sorted
  /\ tabCycleIndex g' = 0
  /\ targetGuid g' = nth 0 sorted 0.
Proof.
  intros Hst Hl. cbv zeta. unfold exec, tabTarget.
  rewrite bind_eq. cbn [gets]. rewrite Hst. cbn [when].
  rewrite bind_eq. rewrite bind_eq. cbn [modify]. rewrite bind_eq. cbn [modify].
  rewrite bind_eq. cbn [gets set_tabCycleStale set_tabCycleIndex set_tabCycleList tabCycleList].
  destruct sorted as [| a l]; [contradiction |].
  rewrite bind_eq. cbn [modify]. rewrite bind_eq. cbn [gets].
  match goal with
  | |- context [setTarget ?guid ?g1] =>
      destruct (setTarget_effect guid g1) as (Ht & Hs & Hc & Hi)
  end.
  rewrite Ht, Hs, Hc, Hi. cbn. repeat split.
Qed.

Lemma tabTarget_presses (sorted : list Z) (presses : list (list Z)) :
  sorted <> [] ->
  forall (g : GameHandler.t) (j : nat),
    tabCycleStale g = false ->
    tabCycleList g = sorted ->
    tabCycleIndex g = Z.of_nat (j mod length sorted) ->
    targetGuid g = nth (j mod length sorted) sorted 0 ->
    let g' := fold_left (fun g s => exec (tabTarget s) g) presses g in
    tabCycleList g' = sorted
    /\ targetGuid g' = nth ((j + length presses) mod length sorted) sorted 0.
Proof.
  intros Hne. assert (Hlen : length sorted <> 0%nat) by now destruct sorted.
  induction presses as [| s presses IH]; intros g j Hst Hl Hi Ht; cbv zeta.
  - cbn [fold_left length]. rewrite Nat.add_0_r. now split.
  - cbn [fold_left length].
    destruct (tabTarget_next s g Hst) as (Hst' & Hl' & Hi' & Ht'); [now rewrite Hl |].
    rewrite Hl in Hl', Hi', Ht'.
    assert (Hidx : tabCycleIndex (exec (tabTarget s) g)
                   = Z.of_nat (S j mod length sorted)).
    { rewrite Hi', Hi.
      rewrite Z.rem_mod_nonneg by lia.
      replace (Z.of_nat (j mod length sorted) + 1)
        with (Z.of_nat (j mod length sorted + 1)) by lia.
      rewrite <- Nat2Z.inj_mod. f_equal.
      rewrite Nat.Div0.add_mod_idemp_l. now rewrite Nat.add_1_r. }
    replace (j + S (length presses))%nat with (S j + length presses)%nat by lia.
    apply (IH _ (S j) Hst' Hl' Hidx).
    rewrite Ht', Hidx. now rewrite Nat2Z.id.
Qed.

(** X12.  Tab targeting cycles through the candidates in the order of
    their distance and wraps around: after the entities changed, the first
    press takes the list of candidates and targets the nearest, and each
    further press targets the next of that list, whatever list it is
    given, starting again at the nearest after the farthest. *)
Theorem tabTarget_cycles_in_order :
  forall (g : GameHandler.t) (sorted : list Z) (presses : list (list Z)),
    tabCycleStale g = true ->
    sorted <> [] ->
    let g' := fold_left (fun g s => exec (tabTarget s) g) presses
                        (exec (tabTarget sorted) g) in
    tabCycleList g' = sorted
    /\ targetGuid g' = nth (length presses mod length sorted) sorted 0.
Proof.
  intros g sorted presses Hst Hne. cbv zeta.
  destruct (tabTarget_first sorted g Hst Hne) as (Hst' & Hl' & Hi' & Ht').
  assert (Hlen : length sorted <> 0%nat) by now destruct sorted.
  apply (tabTarget_presses sorted presses Hne _ 0%nat Hst' Hl').
  - now rewrite Nat.Div0.mod_0_l.
  - now rewrite Nat.Div0.mod_0_l.
Qed.

End Targeting.

(** Example: with the entity of the target gone and nothing received, the
    target is cleared. *)
Lemma update_validates_target_witness :
  let g := GameHandler.set_socket true
             (GameHandler.set_targetGuid 5 (@GameHandler.new wotlk_env)) in
  let g' := GameHandler.exec (GameHandler.update [] false) g in
  GameHandler.targetGuid g' = 0
  \/ EntityManager.hasEntity (GameHandler.entityManager g') (GameHandler.targetGuid g') = true.
Proof.
  cbv zeta.
  apply (@update_validates_target wotlk_env); reflexivity.
Defined.

(** Example: three candidates and four presses end on the second. *)
Lemma tabTarget_cycles_in_order_witness :
  let g := GameHandler.exec (GameHandler.tabTarget [30; 10; 20]) (@GameHandler.new wotlk_env) in
  let g' := fold_left (fun g s => GameHandler.exec (GameHandler.tabTarget s) g)
                      [[]; [1]; [2; 3]; []] g in
  GameHandler.targetGuid g' = 10.
Proof.
  cbv zeta.
  exact (proj2 (@tabTarget_cycles_in_order wotlk_env (@GameHandler.new wotlk_env)
                  [30; 10; 20] [[]; [1]; [2; 3]; []] eq_refl ltac:(discriminate))).
Defined.

(** ** The entity table *)

Section EntityTableUpdate.
Context `{WorldEnv}.
Import GameHandler.

(** Setting the fields of a block one by one merges them into the fields
    of the entity. *)
Lemma setFields_union (e : Entity.t) (fs : gmap Z Z) :
  setFields e fs
  = Entity.mk (Entity.guid e) (Entity.type e) (Entity.position e) (fs ∪ Entity.fields e).
Proof.
  unfold setFields.
  apply (map_fold_weak_ind
           (fun r m => r = Entity.mk (Entity.guid e) (Entity.type e) (Entity.position e)
                              (m ∪ Entity.fields e))).
  - rewrite (left_id_L ∅ (∪)). now destruct e.
  - intros i x m r Hi ->. unfold Entity.setField. cbn.
    now rewrite insert_union_l.
Qed.

Lemma applyBlock_effect (block : UpdateBlock.t) (g : GameHandler.t) :
  fst (applyBlock block g) = Done tt
  /\ entityManager (snd (applyBlock block g)) = updated_table block (entityManager g)
  /\ tabCycleStale (snd (applyBlock block g)) = tabCycleStale g.
Proof.
  unfold applyBlock, updated_table. cbv zeta.
  destruct ((UpdateBlock.updateType block =? UpdateType_CREATE_OBJECT)
            || (UpdateBlock.updateType block =? UpdateType_CREATE_OBJECT2)).
  - unfold bind, LOG, modify, ret, EntityManager.addEntity,
      Player_new, Unit_new, GameObject_new, Entity_new.
    destruct (Z.eqb_spec (UpdateBlock.objectType block) ObjectType_PLAYER) as [E1 | E1];
      [| destruct (Z.eqb_spec (UpdateBlock.objectType block) ObjectType_UNIT) as [E2 | E2];
         [| destruct (Z.eqb_spec (UpdateBlock.objectType block) ObjectType_GAMEOBJECT)
              as [E3 | E3]]];
      cbn [fst snd]; destruct (UpdateBlock.hasMovement block); cbn [fst snd];
      rewrite setFields_union; cbn; rewrite (right_id_L ∅ (∪));
      rewrite <- ?E1, <- ?E2, <- ?E3; repeat split.
  - destruct (UpdateBlock.updateType block =? UpdateType_VALUES).
    + unfold bind, gets, LOG, modify, EntityManager.getEntity.
      destruct (entityManager g !! UpdateBlock.guid block) as [e |]; cbn;
        rewrite ?setFields_union; repeat split.
    + destruct (UpdateBlock.updateType block =? UpdateType_MOVEMENT).
      * unfold bind, gets, LOG, modify, EntityManager.getEntity.
        destruct (entityManager g !! UpdateBlock.guid block) as [e |]; cbn; repeat split.
      * repeat split.
Qed.

Lemma foldM_applyBlock (bs : list UpdateBlock.t) (g : GameHandler.t) :
  let r := foldM (fun (_ : unit) block => applyBlock block) bs tt g in
  fst r = Done tt
  /\ entityManager (snd r)
     = fold_left (fun em block => updated_table block em) bs (entityManager g)
  /\ tabCycleStale (snd r) = tabCycleStale g.
Proof.
  cbv zeta. revert g. induction bs as [| b bs IH]; intros g; cbn [foldM fold_left].
  - repeat split.
  - rewrite bind_eq. destruct (applyBlock_effect b g) as (Hd & He & Ht).
    destruct (applyBlock b g) as [r g1]. cbn [fst snd] in *. subst r.
    destruct (IH g1) as (Hd' & He' & Ht'). rewrite He', He, Ht', Ht. auto.
Qed.

Lemma foldM_out_of_range (guids : list Z) (g : GameHandler.t) :
  let r := foldM (fun (_ : unit) guid =>
                    em <- gets entityManager ;;
                    if EntityManager.hasEntity em guid then
                      LOG INFO "Entity went out of range: 0x" ;;;
                      modify (set_entityManager (EntityManager.removeEntity em guid))
                    else ret tt) guids tt g in
  fst r = Done tt
  /\ entityManager (snd r) = fold_left (fun em guid => delete guid em) guids (entityManager g)
  /\ tabCycleStale (snd r) = tabCycleStale g.
Proof.
  cbv zeta. revert g. induction guids as [| a guids IH]; intros g; cbn [foldM fold_left].
  - repeat split.
  - rewrite bind_eq, bind_eq. cbn [gets].
    destruct (EntityManager.hasEntity (entityManager g) a) eqn:E.
    + rewrite bind_eq. cbn [LOG modify].
      match goal with
      | |- context [foldM ?f guids tt ?g1] => destruct (IH g1) as (Hd & He & Ht)
      end.
      rewrite He, Ht. cbn. auto.
    + cbn [ret]. destruct (IH g) as (Hd & He & Ht). rewrite He, Ht.
      rewrite (delete_id (entityManager g) a); [auto |].
      unfold EntityManager.hasEntity in E. apply bool_decide_eq_false in E.
      destruct (entityManager g !! a) eqn:El; [| reflexivity].
      exfalso. apply E. now eexists.
Qed.

(** X13.  When the decode of SMSG_UPDATE_OBJECT succeeds, the entity table
    after the message is a function of the table before and of the decoded
    message: the out-of-range identifiers are removed first, then the
    blocks are applied in the order of the message.  A create block
    replaces the record under its identifier by a new one of the type of
    the block; a values block overwrites the fields it names and keeps the
    others, and is ignored for an unknown identifier.  The handler returns
    normally and marks the tab cycle list as stale. *)
Theorem handleUpdateObject_entity_table :
  forall (g : GameHandler.t) (packet : Packet.t) (data : UpdateObjectData) (ps : PState),
    run_parser (UpdateObjectParser.parse (mkUpdateObjectData 0 [] [])) packet
               (log g ++ [(INFO, "Handling SMSG_UPDATE_OBJECT")])
    = (Done (true, data), ps) ->
    let g' := exec (handleUpdateObject packet) g in
    fst (handleUpdateObject packet g) = Done tt
    /\ entityManager g'
       = fold_left (fun em block => updated_table block em) (blocks data)
           (fold_left (fun em guid => delete guid em) (outOfRangeGuids data)
                      (entityManager g))
    /\ tabCycleStale g' = true
    /\ state g' = state g.
Proof.
  intros g packet data ps Hparse. cbv zeta.
  assert (Hst : state (exec (handleUpdateObject packet) g) = state g)
    by apply unchanged_state_handleUpdateObject.
  unfold exec in *. unfold handleUpdateObject in *.
  rewrite bind_eq in *. cbn [LOG modify] in *. rewrite bind_eq in *.
  unfold call_parser in *. cbn [log set_log] in *. rewrite Hparse in *.
  cbn [negb] in *. rewrite bind_eq in *.
  match goal with
  | |- context [foldM ?f (outOfRangeGuids data) tt ?g1] =>
      destruct (foldM_out_of_range (outOfRangeGuids data) g1) as (Hd1 & He1 & Ht1);
      destruct (foldM f (outOfRangeGuids data) tt g1) as [r1 g2]
  end.
  cbn [fst snd] in *. subst r1. rewrite bind_eq in *.
  destruct (foldM_applyBlock (blocks data) g2) as (Hd2 & He2 & Ht2).
  destruct (foldM _ (blocks data) tt g2) as [r2 g3].
  cbn [fst snd] in *. subst r2.
  rewrite bind_eq in *.
  cbn [modify LOG fst snd entityManager tabCycleStale state set_log set_tabCycleStale] in *.
  rewrite He2, He1. repeat split. exact Hst.
Qed.

End EntityTableUpdate.

(** ** The fixed-layout decoders *)

Lemma remaining_length (p : Packet.t) :
  (length (Packet.remaining p) <= Packet.getSize p)%nat.
Proof. unfold Packet.remaining, Packet.getSize. rewrite length_skipn. lia. Qed.

(** A decoder behind its size check, on enough input. *)
Lemma reads_guard {A : Type} (N : nat) (short m : Parser A) (bytes : list Z) (a : A) :
  (N <= length bytes)%nat ->
  reads m bytes a ->
  reads (size <- getSize ;; if (size <? N)%nat then short else m) bytes a.
Proof.
  intros HN Hm p l rest Hr. unfold bind, getSize, gets. cbn [fst snd pkt].
  pose proof (remaining_length p) as Hlen. rewrite Hr, length_app in Hlen.
  replace (Packet.getSize p <? N)%nat with false by (symmetry; apply Nat.ltb_ge; lia).
  exact (Hm p l rest Hr).
Qed.

(** The same decoder on a packet that is too small: one error, nothing
    read. *)
Lemma short_guard {A : Type} (N : nat) (msg : string) (a : A) (m : Parser (bool * A))
    (p : Packet.t) (l : Log) :
  (Packet.getSize p < N)%nat ->
  (size <- getSize ;;
   if (size <? N)%nat then plog_call ERROR msg ;;; ret (false, a) else m) (mkPState p l)
  = (Done (false, a), mkPState p (l ++ [(ERROR, msg)])).
Proof.
  intros HN. unfold bind, getSize, gets, plog_call, modify, ret. cbn [fst snd pkt plog].
  now replace (Packet.getSize p <? N)%nat with true by (symmetry; apply Nat.ltb_lt; lia).
Qed.

Ltac reads_step :=
  match goal with
  | |- reads (bind (plog_call _ _) _) _ _ =>
      eapply reads_bind_nil; [apply reads_plog |]
  | |- reads (bind (if ?b then plog_call _ _ else ret tt) _) _ _ =>
      eapply reads_bind_nil;
      [instantiate (1 := tt); destruct b; [apply reads_plog | apply reads_ret] |]
  | |- reads (ret _) [] _ => apply reads_ret
  | |- reads (bind readUInt8 _) (?b :: _) _ =>
      change (b :: ?r) with ([b] ++ r); eapply reads_bind; [apply reads_readUInt8 |]
  | |- reads (bind _ _) (?b1 ++ _) _ =>
      eapply reads_bind;
      [first [ apply (reads_readLE 4 b1); assumption
             | apply (reads_readLE 8 b1); assumption
             | apply (reads_readLE 2 b1); assumption ] |]
  end.

Lemma reads_account_slot (s acc : list Z) :
  length s = 4%nat ->
  reads (v <- readUInt32 ;;
         (if negb (v =? 0) then plog_call DEBUG "  Data slot " else ret tt) ;;;
         ret (acc ++ [v]))
        s (acc ++ [le_value s]).
Proof.
  intros Hs. rewrite <- (app_nil_r s) at 1.
  apply (reads_bind _ _ s [] (le_value s)); [apply (reads_readLE 4 s); exact Hs |].
  apply (reads_bind_nil _ _ [] tt); [| apply reads_ret].
  destruct (negb (le_value s =? 0)); [apply reads_plog | apply reads_ret].
Qed.

Lemma reads_account_slots (slots : list (list Z)) :
  Forall (fun s => length s = 4%nat) slots ->
  forall (k : nat) (acc : list Z),
    reads (foldM (fun acc (_ : nat) =>
                    v <- readUInt32 ;;
                    (if negb (v =? 0) then plog_call DEBUG "  Data slot " else ret tt) ;;;
                    ret (acc ++ [v]))
                 (seq k (length slots)) acc)
          (concat slots) (acc ++ map le_value slots).
Proof.
  induction 1 as [| s slots Hs _ IH]; intros k acc.
  - cbn. rewrite app_nil_r. apply reads_ret.
  - cbn [length seq foldM map concat].
    apply (reads_bind _ _ s (concat slots) (acc ++ [le_value s]));
      [now apply reads_account_slot |].
    replace (acc ++ le_value s :: map le_value slots)
      with ((acc ++ [le_value s]) ++ map le_value slots) by now rewrite <- app_assoc.
    apply IH.
Qed.

Lemma reads_AuthChallengeParser (u seed : list Z) :
  length u = 4%nat -> length seed = 4%nat ->
  reads AuthChallengeParser_parse (u ++ seed)
        (true, mkAuthChallengeData (le_value u) (le_value seed)).
Proof.
  intros Hu Hseed. unfold AuthChallengeParser_parse.
  apply reads_guard; [rewrite length_app; lia |].
  replace (u ++ seed) with (u ++ seed ++ []) by now rewrite app_nil_r.
  repeat reads_step.
Qed.

Lemma reads_AuthResponseParser (code : Z) :
  reads AuthResponseParser_parse [code] (true, mkAuthResponseData code).
Proof.
  unfold AuthResponseParser_parse.
  apply reads_guard; [cbn; lia |]. repeat reads_step.
Qed.

Lemma reads_LoginVerifyWorldParser (m x y z o : list Z) :
  length m = 4%nat -> length x = 4%nat -> length y = 4%nat ->
  length z = 4%nat -> length o = 4%nat ->
  reads LoginVerifyWorldParser_parse (m ++ x ++ y ++ z ++ o)
        (true, mkLoginVerifyWorldData (le_value m) (le_value x) (le_value y)
                 (le_value z) (le_value o)).
Proof.
  intros Hm Hx Hy Hz Ho. unfold LoginVerifyWorldParser_parse.
  apply reads_guard; [rewrite !length_app; lia |].
  replace (m ++ x ++ y ++ z ++ o) with (m ++ x ++ y ++ z ++ o ++ [])
    by now rewrite app_nil_r.
  unfold readFloat. repeat reads_step.
Qed.

Lemma length_concat_slots (slots : list (list Z)) :
  Forall (fun s => length s = 4%nat) slots ->
  length (concat slots) = (4 * length slots)%nat.
Proof.
  induction 1 as [| s slots Hs _ IH]; [reflexivity |].
  cbn [concat length]. rewrite length_app, IH, Hs. lia.
Qed.

Lemma reads_AccountDataTimesParser (t : list Z) (u : Z) (slots : list (list Z)) :
  length t = 4%nat -> length slots = 8%nat ->
  Forall (fun s => length s = 4%nat) slots ->
  reads AccountDataTimesParser_parse (t ++ u :: concat slots)
        (true, mkAccountDataTimesData (le_value t) u (map le_value slots)).
Proof.
  intros Ht Hn Hslots. unfold AccountDataTimesParser_parse.
  apply reads_guard.
  { rewrite length_app. cbn [length]. rewrite (length_concat_slots slots Hslots). lia. }
  eapply reads_bind; [apply (reads_readLE 4 t); exact Ht |].
  change (u :: concat slots) with ([u] ++ concat slots).
  eapply reads_bind; [apply reads_readUInt8 |].
  repeat reads_step.
  rewrite <- (app_nil_r (concat slots)).
  apply (reads_bind _ _ (concat slots) [] (map le_value slots)); [| apply reads_ret].
  rewrite <- Hn.
  exact (reads_account_slots slots Hslots 0 []).
Qed.

Lemma reads_PongParser (s : list Z) :
  length s = 4%nat -> reads PongParser_parse s (true, mkPongData (le_value s)).
Proof.
  intros Hs. unfold PongParser_parse.
  apply reads_guard; [lia |].
  rewrite <- (app_nil_r s) at 1. repeat reads_step.
Qed.

Lemma reads_DestroyObjectParser (guid : list Z) (d : Z) :
  length guid = 8%nat ->
  reads DestroyObjectParser_parse (guid ++ [d])
        (true, mkDestroyObjectData (le_value guid) (negb (d =? 0))).
Proof.
  intros Hg. unfold DestroyObjectParser_parse.
  apply reads_guard; [rewrite length_app; cbn; lia |].
  eapply reads_bind; [apply (reads_readLE 8 guid); exact Hg |].
  repeat reads_step.
Qed.

(** X14.  The decoders of the fixed-layout messages.  On any packet whose
    unread bytes start with the fields, each decoder returns [true] with
    the fields read as little-endian integers in the order of the layout,
    and consumes exactly the fields (8, 1, 20, 37, 4 and 9 bytes); on a
    packet smaller than its layout it returns [false], logs one error and
    reads nothing. *)
Theorem fixed_layout_decoders :
  (forall u seed, length u = 4%nat -> length seed = 4%nat ->
     reads AuthChallengeParser_parse (u ++ seed)
           (true, mkAuthChallengeData (le_value u) (le_value seed)))
  /\ (forall code,
        reads AuthResponseParser_parse [code] (true, mkAuthResponseData code))
  /\ (forall m x y z o,
        length m = 4%nat -> length x = 4%nat -> length y = 4%nat ->
        length z = 4%nat -> length o = 4%nat ->
        reads LoginVerifyWorldParser_parse (m ++ x ++ y ++ z ++ o)
              (true, mkLoginVerifyWorldData (le_value m) (le_value x) (le_value y)
                       (le_value z) (le_value o)))
  /\ (forall t u slots,
        length t = 4%nat -> length slots = 8%nat ->
        Forall (fun s => length s = 4%nat) slots ->
        reads AccountDataTimesParser_parse (t ++ u :: concat slots)
              (true, mkAccountDataTimesData (le_value t) u (map le_value slots)))
  /\ (forall s, length s = 4%nat ->
        reads PongParser_parse s (true, mkPongData (le_value s)))
  /\ (forall guid d, length guid = 8%nat ->
        reads DestroyObjectParser_parse (guid ++ [d])
              (true, mkDestroyObjectData (le_value guid) (negb (d =? 0))))
  /\ (forall p l,
        ((Packet.getSize p < 8)%nat ->
           exists a e, AuthChallengeParser_parse (mkPState p l)
                       = (Done (false, a), mkPState p (l ++ [(ERROR, e)])))
        /\ ((Packet.getSize p < 1)%nat ->
           exists a e, AuthResponseParser_parse (mkPState p l)
                       = (Done (false, a), mkPState p (l ++ [(ERROR, e)])))
        /\ ((Packet.getSize p < 20)%nat ->
           exists a e, LoginVerifyWorldParser_parse (mkPState p l)
                       = (Done (false, a), mkPState p (l ++ [(ERROR, e)])))
        /\ ((Packet.getSize p < 37)%nat ->
           exists a e, AccountDataTimesParser_parse (mkPState p l)
                       = (Done (false, a), mkPState p (l ++ [(ERROR, e)])))
        /\ ((Packet.getSize p < 4)%nat ->
           exists a e, PongParser_parse (mkPState p l)
                       = (Done (false, a), mkPState p (l ++ [(ERROR, e)])))
        /\ ((Packet.getSize p < 9)%nat ->
           exists a e, DestroyObjectParser_parse (mkPState p l)
                       = (Done (false, a), mkPState p (l ++ [(ERROR, e)])))).
Proof.
  split; [exact reads_AuthChallengeParser |].
  split; [exact reads_AuthResponseParser |].
  split; [exact reads_LoginVerifyWorldParser |].
  split; [exact reads_AccountDataTimesParser |].
  split; [exact reads_PongParser |].
  split; [exact reads_DestroyObjectParser |].
  intros p l.
  repeat split; intros Hsz; do 2 eexists; apply short_guard; exact Hsz.
Qed.

(** Example: a pong that carries the sequence number 7. *)
Lemma fixed_layout_decoders_witness :
  reads PongParser_parse [7; 0; 0; 0] (true, mkPongData 7).
Proof.
  exact (proj1 (proj2 (proj2 (proj2 (proj2 fixed_layout_decoders)))) [7; 0; 0; 0] eq_refl).
Defined.

(** ** Heartbeat *)

Section Heartbeat.
Context `{WorldEnv}.
Import GameHandler.

Lemma sendPing_effect (g : GameHandler.t) :
  state g = IN_WORLD ->
  let seqno := u32 (pingSequence g + 1) in
  exists l,
    sendPing g
    = (Done tt,
       set_trace (trace g ++ [EvSend (Packet.mk CMSG_PING
                                        (le_bytes 4 seqno ++ le_bytes 4 (lastLatency g)) 0)])
         (set_log (log g ++ l) (set_pingSequence seqno g))).
Proof.
  intros Hst. cbv zeta. unfold sendPing. rewrite bind_eq. cbn [gets]. rewrite Hst.
  rewrite bool_decide_eq_false_2 by (intros Hne; now apply Hne).
  unfold PingPacket_build, bind, modify, gets, LOG, LOGS, emit. cbn.
  eexists. rewrite <- !app_assoc. reflexivity.
Qed.

Lemma handlePong_effect (packet : Packet.t) (s rest : list Z) (g : GameHandler.t) :
  length s = 4%nat ->
  Packet.remaining packet = s ++ rest ->
  exists l,
    handlePong packet g
    = (Done tt,
       set_log (log g ++ l ++
                [if le_value s =? pingSequence g
                 then (DEBUG, "Heartbeat acknowledged (sequence: ")
                 else (WARNING, "SMSG_PONG sequence mismatch: expected ")]) g).
Proof.
  intros Hs Hr. unfold handlePong. rewrite bind_eq. cbn [LOG modify].
  rewrite bind_eq. unfold call_parser, run_parser. cbn [log set_log].
  destruct (reads_PongParser s Hs packet (log g ++ [(DEBUG, "Handling SMSG_PONG")]) rest Hr)
    as [l' E].
  rewrite E. cbn [negb plog sequence]. rewrite bind_eq. cbn [gets pingSequence set_log].
  exists ((DEBUG, "Handling SMSG_PONG") :: l').
  destruct (le_value s =? pingSequence g); unfold LOG, modify; cbn [negb log set_log];
    now rewrite <- !app_assoc.
Qed.

(** X15.  The heartbeat.  In [IN_WORLD], [sendPing] increments the
    sequence number modulo 2^32 and sends one CMSG_PING that carries the
    new number and the last latency; a following SMSG_PONG that starts
    with the first four bytes of that ping is acknowledged, and a pong
    with another number is reported as a mismatch; neither changes
    anything but the log. *)
Theorem ping_sequence_round_trip :
  forall (g : GameHandler.t),
    state g = IN_WORLD ->
    let g1 := exec sendPing g in
    exists ping,
      trace g1 = trace g ++ [EvSend ping]
      /\ Packet.opcode ping = CMSG_PING
      /\ Packet.data ping = le_bytes 4 (pingSequence g1) ++ le_bytes 4 (lastLatency g)
      /\ pingSequence g1 = u32 (pingSequence g + 1)
      /\ (forall rest, exists l,
            exec (handlePong (Packet.mk SMSG_PONG (take 4 (Packet.data ping) ++ rest) 0)) g1
            = set_log (log g1 ++ l ++ [(DEBUG, "Heartbeat acknowledged (sequence: ")]) g1)
      /\ (forall s rest, length s = 4%nat -> le_value s <> pingSequence g1 ->
            exists l,
              exec (handlePong (Packet.mk SMSG_PONG (s ++ rest) 0)) g1
              = set_log (log g1 ++ l
                         ++ [(WARNING, "SMSG_PONG sequence mismatch: expected ")]) g1).
Proof.
  intros g Hst. cbv zeta. unfold exec.
  destruct (sendPing_effect g Hst) as [l0 E0]. cbv zeta in E0. rewrite E0. cbn [snd].
  set (seqno := u32 (pingSequence g + 1)).
  set (g1 := set_trace _ _).
  assert (Hseq : pingSequence g1 = seqno) by reflexivity.
  eexists. split; [reflexivity |]. split; [reflexivity |].
  cbn [Packet.data]. rewrite Hseq. split; [reflexivity |]. split; [reflexivity |]. split.
  - intros rest.
    assert (Htake : take 4 (le_bytes 4 seqno ++ le_bytes 4 (lastLatency g)) = le_bytes 4 seqno).
    { apply take_app_length'. symmetry. apply length_le_bytes. }
    rewrite Htake.
    destruct (handlePong_effect (Packet.mk SMSG_PONG (le_bytes 4 seqno ++ rest) 0)
                (le_bytes 4 seqno) rest g1 (length_le_bytes 4 seqno) eq_refl) as [l E].
    rewrite E. cbn [snd]. exists l.
    rewrite le_value_le_bytes, Hseq, Z.eqb_refl; [reflexivity |].
    unfold seqno, u32. change (2 ^ (8 * Z.of_nat 4)) with 4294967296.
    apply Z.mod_pos_bound. lia.
  - intros s rest Hs Hne.
    destruct (handlePong_effect (Packet.mk SMSG_PONG (s ++ rest) 0) s rest g1 Hs eq_refl)
      as [l E].
    rewrite E. cbn [snd]. exists l.
    rewrite Hseq. apply Z.eqb_neq in Hne. now rewrite Hne.
Qed.

End Heartbeat.

(** Example: the first heartbeat of a session in the world. *)
Lemma ping_sequence_round_trip_witness :
  let g := GameHandler.set_state IN_WORLD (@GameHandler.new wotlk_env) in
  GameHandler.pingSequence (GameHandler.exec GameHandler.sendPing g) = 1.
Proof.
  cbv zeta.
  destruct (@ping_sequence_round_trip wotlk_env
              (GameHandler.set_state IN_WORLD (@GameHandler.new wotlk_env)) eq_refl)
    as (ping & _ & _ & _ & Hseq & _).
  exact Hseq.
Defined.

(** ** Destroying an entity *)

Section DestroyObject.
Context `{WorldEnv}.
Import GameHandler.

Lemma handleDestroyObject_effect (packet : Packet.t) (guid rest : list Z) (d : Z)
    (g : GameHandler.t) :
  length guid = 8%nat ->
  Packet.remaining packet = (guid ++ [d]) ++ rest ->
  fst (handleDestroyObject packet g) = Done tt
  /\ entityManager (snd (handleDestroyObject packet g))
     = delete (le_value guid) (entityManager g)
  /\ tabCycleStale (snd (handleDestroyObject packet g)) = true.
Proof.
  intros Hg Hr. unfold handleDestroyObject. rewrite bind_eq. cbn [LOG modify].
  rewrite bind_eq. unfold call_parser, run_parser. cbn [log set_log].
  destruct (reads_DestroyObjectParser guid d Hg packet
              (log g ++ [(INFO, "Handling SMSG_DESTROY_OBJECT")]) rest Hr) as [l' E].
  rewrite E. cbn [negb plog destroy_guid]. rewrite bind_eq. cbn [gets].
  rewrite bind_eq.
  cbn [entityManager set_log].
  destruct (EntityManager.hasEntity (entityManager g) (le_value guid)) eqn:Eh.
  - unfold bind, LOG, modify, EntityManager.removeEntity. cbn. repeat split.
  - unfold bind, LOG, modify. cbn.
    unfold EntityManager.hasEntity in Eh. apply bool_decide_eq_false in Eh.
    rewrite delete_id; [repeat split |].
    destruct (entityManager g !! le_value guid) eqn:El; [| reflexivity].
    exfalso. apply Eh. now eexists.
Qed.

Lemma handlePacket_destroy_object_eq (g : GameHandler.t) (packet : Packet.t) :
  state g = IN_WORLD ->
  Packet.opcode packet = SMSG_DESTROY_OBJECT ->
  (1 <= Packet.getSize packet)%nat ->
  handlePacket packet g
  = handleDestroyObject packet
      (set_log (log g ++ [(DEBUG, "Received world packet: opcode=0x")]) g).
Proof.
  intros Hst Hop Hsz. unfold handlePacket.
  replace (Packet.getSize packet <? 1)%nat with false
    by (symmetry; apply Nat.ltb_ge; exact Hsz).
  unfold Packet.getOpcode. rewrite Hop.
  rewrite bind_eq. cbn [LOG modify]. rewrite bind_eq. cbn [gets state set_log].
  rewrite Hst. now rewrite bool_decide_eq_true_2.
Qed.

(** X16.  An SMSG_DESTROY_OBJECT that arrives in [IN_WORLD] and holds an
    identifier and the death flag removes the entity of that identifier
    from the table and leaves every other entity; for an identifier that
    is not in the table nothing is removed.  The tab cycle list is marked
    stale and the state stays [IN_WORLD]. *)
Theorem handlePacket_destroy_object :
  forall (g : GameHandler.t) (guid : Z) (d : Z) (rest : list Z),
    state g = IN_WORLD ->
    0 <= guid < 2 ^ 64 ->
    let packet := Packet.mk SMSG_DESTROY_OBJECT (le_bytes 8 guid ++ [d] ++ rest) 0 in
    let g' := exec (handlePacket packet) g in
    fst (handlePacket packet g) = Done tt
    /\ entityManager g' = delete guid (entityManager g)
    /\ entityManager g' !! guid = None
    /\ (forall other, other <> guid -> entityManager g' !! other = entityManager g !! other)
    /\ tabCycleStale g' = true
    /\ state g' = IN_WORLD.
Proof.
  intros g guid d rest Hst Hguid. cbv zeta. unfold exec.
  rewrite handlePacket_destroy_object_eq;
    [| exact Hst | reflexivity
     | unfold Packet.getSize; cbn [Packet.data];
       rewrite length_app, length_le_bytes; lia].
  match goal with
  | |- context [handleDestroyObject ?p ?g1] =>
      pose proof (unchanged_state_handleDestroyObject p g1) as Hstate;
      destruct (handleDestroyObject_effect p (le_bytes 8 guid) rest d g1
                  (length_le_bytes 8 guid)) as (Hd & He & Ht)
  end.
  { unfold Packet.remaining. cbn [Packet.data Packet.readPos List.skipn].
    apply app_assoc. }
  rewrite le_value_le_bytes in He by (cbn; lia).
  cbn [entityManager set_log state] in He, Hstate.
  rewrite Hd, He, Ht, Hstate.
  split; [reflexivity |]. split; [reflexivity |].
  split; [apply lookup_delete_eq |].
  split; [intros other Hne; now apply lookup_delete_ne |].
  split; [reflexivity | exact Hst].
Qed.

End DestroyObject.

(** Example: entity 7 is destroyed while entity 8 stays. *)
Lemma handlePacket_destroy_object_witness :
  let g := GameHandler.set_entityManager
             {[7 := Entity.mk 7 3 None ∅; 8 := Entity.mk 8 4 None ∅]}
             (GameHandler.set_state IN_WORLD (@GameHandler.new wotlk_env)) in
  let g' := GameHandler.exec
              (GameHandler.handlePacket
                 (Packet.mk SMSG_DESTROY_OBJECT (le_bytes 8 7 ++ [1] ++ []) 0)) g in
  GameHandler.entityManager g' !! 7 = None
  /\ GameHandler.entityManager g' !! 8 = Some (Entity.mk 8 4 None ∅).
Proof.
  cbv zeta.
  destruct (@handlePacket_destroy_object wotlk_env
              (GameHandler.set_entityManager
                 {[7 := Entity.mk 7 3 None ∅; 8 := Entity.mk 8 4 None ∅]}
                 (GameHandler.set_state IN_WORLD (@GameHandler.new wotlk_env)))
              7 1 [] eq_refl ltac:(lia))
    as (_ & _ & H7 & Hother & _).
  split; [exact H7 |].
  rewrite (Hother 8) by discriminate. reflexivity.
Defined.

(** Example: a values block for entity 7 overwrites field 0 and keeps
    field 5. *)
Lemma handleUpdateObject_entity_table_witness :
  let g := GameHandler.set_entityManager
             {[7 := Entity.mk 7 3 None {[5 := 1]}]}
             (GameHandler.set_state IN_WORLD (@GameHandler.new wotlk_env)) in
  let packet := Packet.mk SMSG_UPDATE_OBJECT
                  [1; 0; 0; 0;  0;  1; 7;  1;  1; 0; 0; 0;  9; 0; 0; 0] 0 in
  let g' := GameHandler.exec (GameHandler.handleUpdateObject packet) g in
  GameHandler.entityManager g' !! 7 = Some (Entity.mk 7 3 None (<[0 := 9]> {[5 := 1]})).
Proof.
  cbv zeta.
  edestruct (@handleUpdateObject_entity_table wotlk_env
              (GameHandler.set_entityManager
                 {[7 := Entity.mk 7 3 None {[5 := 1]}]}
                 (GameHandler.set_state IN_WORLD (@GameHandler.new wotlk_env)))
              (Packet.mk SMSG_UPDATE_OBJECT
                 [1; 0; 0; 0;  0;  1; 7;  1;  1; 0; 0; 0;  9; 0; 0; 0] 0))
    as (_ & He & _).
  - vm_compute. reflexivity.
  - rewrite He. vm_compute. reflexivity.
Defined.

(** ** The block count of SMSG_UPDATE_OBJECT *)

Lemma yields_ret {A : Type} (Q : A -> Prop) (a : A) : Q a -> yields Q (ret a).
Proof. intros Ha s a' s' E. injection E as <- _. exact Ha. Qed.

Lemma yields_bind {A B : Type} (R : A -> Prop) (Q : B -> Prop)
    (m : Parser A) (k : A -> Parser B) :
  yields R m -> (forall a, R a -> yields Q (k a)) -> yields Q (bind m k).
Proof.
  intros Hm Hk s b s' E. unfold bind in E.
  destruct (m s) as [[a |] s1] eqn:Em; [| discriminate].
  exact (Hk a (Hm s a s1 Em) s1 b s' E).
Qed.

Lemma yields_any {A : Type} (m : Parser A) : yields (fun _ => True) m.
Proof. now intros s a s' _. Qed.

Lemma yields_skip {A B : Type} (Q : B -> Prop) (m : Parser A) (k : A -> Parser B) :
  (forall a, yields Q (k a)) -> yields Q (bind m k).
Proof. intros Hk. apply (yields_bind (fun _ => True)); [apply yields_any | auto]. Qed.

Lemma yields_foldM {A B : Type} (I : B -> Prop) (f : B -> A -> Parser B) (l : list A) :
  (forall b a, I b -> yields I (f b a)) -> forall b, I b -> yields I (foldM f l b).
Proof.
  intros Hf. induction l as [| a l IH]; intros b Hb; cbn [foldM].
  - now apply yields_ret.
  - apply (yields_bind I); [now apply Hf | exact IH].
Qed.

Section BlockCount.
Context `{WorldEnv}.

Lemma parse_blocks_count (n : nat) :
  forall data : UpdateObjectData,
    yields (fun r : bool * UpdateObjectData => blockCount (snd r) = blockCount data
                     /\ outOfRangeGuids (snd r) = outOfRangeGuids data
                     /\ (if fst r then length (blocks (snd r)) = (length (blocks data) + n)%nat
                         else (length (blocks (snd r)) < length (blocks data) + n)%nat))
           (UpdateObjectParser.parse_blocks n data).
Proof.
  induction n as [| n IH]; intros data; cbn [UpdateObjectParser.parse_blocks].
  - apply yields_ret. cbn. repeat split. lia.
  - apply yields_skip. intros _.
    apply yields_skip. intros [ok block].
    destruct ok; cbn [negb].
    + intros s r s' E. destruct (IH _ s r s' E) as (Hc & Ho & Hl).
      cbn [blockCount outOfRangeGuids blocks] in *.
      split; [exact Hc |]. split; [exact Ho |].
      rewrite length_app in Hl. cbn [length] in Hl.
      destruct (fst r); lia.
    + apply yields_skip. intros _. apply yields_ret. cbn. repeat split. lia.
Qed.

Lemma parse_count (data0 : UpdateObjectData) :
  blocks data0 = [] ->
  yields (fun r : bool * UpdateObjectData =>
            if fst r then length (blocks (snd r)) = Z.to_nat (blockCount (snd r))
            else (length (blocks (snd r)) < Z.to_nat (blockCount (snd r)))%nat)
         (UpdateObjectParser.parse data0).
Proof.
  intros H0. unfold UpdateObjectParser.parse.
  apply yields_skip. intros _. apply yields_skip. intros count.
  apply yields_skip. intros _. apply yields_skip. intros pos.
  apply yields_skip. intros size.
  apply (yields_bind (fun d => blockCount d = count /\ blocks d = [])).
  - destruct (pos + 1 <=? size)%nat; [| now apply yields_ret].
    apply yields_skip. intros firstByte.
    destruct (firstByte =? UpdateType_OUT_OF_RANGE_OBJECTS).
    + apply yields_skip. intros n. apply yields_skip. intros _.
      apply yields_foldM; [| now split].
      intros d _ [Hc Hb]. apply yields_skip. intros g. apply yields_skip. intros _.
      now apply yields_ret.
    + apply yields_skip. intros pos'. apply yields_skip. intros _.
      now apply yields_ret.
  - intros d [Hc Hb].
    apply (yields_bind _ _ _ _ (parse_blocks_count (Z.to_nat (blockCount d)) d)).
    intros [ok' d'] (Hc' & _ & Hl). cbn [fst snd] in *.
    rewrite Hb in Hl. cbn [length Nat.add] in Hl. rewrite <- Hc' in Hl.
    destruct ok'.
    + apply yields_skip. intros _. now apply yields_ret.
    + now apply yields_ret.
Qed.

(** X17.  When [UpdateObjectParser::parse] returns [true], it has decoded
    as many update blocks as the block count of the message says; when it
    returns [false], fewer.  The identifiers of an out-of-range list that
    starts the message are not among the blocks and are not counted. *)
Theorem parse_decodes_the_announced_blocks :
  forall (p : Packet.t) (l : Log) (ok : bool) (data : UpdateObjectData) (s' : PState),
    run_parser (UpdateObjectParser.parse (mkUpdateObjectData 0 [] [])) p l
    = (Done (ok, data), s') ->
    if ok then length (blocks data) = Z.to_nat (blockCount data)
    else (length (blocks data) < Z.to_nat (blockCount data))%nat.
Proof.
  intros p l ok data s' E.
  exact (parse_count (mkUpdateObjectData 0 [] []) eq_refl _ _ _ E).
Qed.

End BlockCount.

(** Example: a message that announces one block and holds a values block
    without fields. *)
Lemma parse_decodes_the_announced_blocks_witness :
  exists data s',
    run_parser (@UpdateObjectParser.parse wotlk_env (mkUpdateObjectData 0 [] []))
               (Packet.mk SMSG_UPDATE_OBJECT [1; 0; 0; 0; 0; 0; 0] 0) []
    = (Done (true, data), s')
    /\ length (blocks data) = 1%nat.
Proof.
  eexists. eexists. split; [vm_compute; reflexivity |].
  refine (@parse_decodes_the_announced_blocks wotlk_env
            (Packet.mk SMSG_UPDATE_OBJECT [1; 0; 0; 0; 0; 0; 0] 0) [] true _ _ _).
  vm_compute. reflexivity.
Defined.

(** ** Strings and the message of the day *)

Lemma reads_readString_from (str : list Z) :
  Forall (fun c => c <> 0) str ->
  forall (fuel : nat) (acc : list Z),
    (length str < fuel)%nat ->
    reads (readString_from fuel acc) (str ++ [0]) (acc ++ str).
Proof.
  induction 1 as [| c str Hc _ IH]; intros fuel acc Hfuel.
  - destruct fuel as [| fuel]; [cbn in Hfuel; lia |].
    cbn [readString_from app]. rewrite app_nil_r.
    rewrite <- (app_nil_r [0]).
    apply (reads_bind _ _ [0] [] 0); [apply reads_readUInt8 |].
    cbn. apply reads_ret.
  - destruct fuel as [| fuel]; [cbn in Hfuel; lia |].
    cbn [readString_from]. change ((c :: str) ++ [0]) with ([c] ++ (str ++ [0])).
    apply (reads_bind _ _ [c] (str ++ [0]) c); [apply reads_readUInt8 |].
    apply Z.eqb_neq in Hc. rewrite Hc.
    replace (acc ++ c :: str) with ((acc ++ [c]) ++ str) by now rewrite <- app_assoc.
    apply IH. cbn in Hfuel. lia.
Qed.

(** A string without a zero byte, followed by its terminator. *)
Lemma reads_readString (str : list Z) :
  Forall (fun c => c <> 0) str -> reads readString (str ++ [0]) str.
Proof.
  intros Hstr p l rest Hr. unfold readString, bind, getSize, gets. cbn [fst snd pkt].
  assert (Hfuel : (length str < S (Packet.getSize p))%nat).
  { pose proof (remaining_length p) as Hlen. rewrite Hr, !length_app in Hlen. lia. }
  exact (reads_readString_from str Hstr (S (Packet.getSize p)) [] Hfuel p l rest Hr).
Qed.

Lemma reads_motd_lines (ls : list (list Z)) :
  Forall (Forall (fun c => c <> 0)) ls ->
  forall (k : nat) (acc : list (list Z)),
    reads (foldM (fun acc (_ : nat) =>
                    line <- readString ;;
                    plog_call INFO "  [" ;;;
                    ret (acc ++ [line]))
                 (seq k (length ls)) acc)
          (concat (map (fun line => line ++ [0]) ls)) (acc ++ ls).
Proof.
  induction 1 as [| line ls Hline _ IH]; intros k acc.
  - cbn. rewrite app_nil_r. apply reads_ret.
  - cbn [length seq foldM map concat].
    apply (reads_bind _ _ (line ++ [0]) _ (acc ++ [line])).
    + rewrite <- (app_nil_r (line ++ [0])).
      apply (reads_bind _ _ (line ++ [0]) [] line); [now apply reads_readString |].
      apply (reads_bind_nil _ _ [] tt); [apply reads_plog | apply reads_ret].
    + replace (acc ++ line :: ls) with ((acc ++ [line]) ++ ls) by now rewrite <- app_assoc.
      apply IH.
Qed.

(** X18.  [MotdParser::parse] gives back the lines of a message of the
    day: on a packet whose unread bytes are the line count on four bytes
    followed by that many strings, each ended by a zero byte, it returns
    [true] with the lines in their order and consumes exactly these
    bytes. *)
Theorem MotdParser_decodes_lines :
  forall ls : list (list Z),
    Forall (Forall (fun c => c <> 0)) ls ->
    Z.of_nat (length ls) < 2 ^ 32 ->
    reads MotdParser_parse
          (le_bytes 4 (Z.of_nat (length ls)) ++ concat (map (fun line => line ++ [0]) ls))
          (true, mkMotdData ls).
Proof.
  intros ls Hls Hn. unfold MotdParser_parse.
  apply reads_guard; [rewrite length_app, length_le_bytes; lia |].
  apply (reads_bind _ _ _ _ (Z.of_nat (length ls)));
    [apply reads_readUInt32; lia |].
  apply (reads_bind_nil _ _ _ tt); [apply reads_plog |].
  apply (reads_bind_nil _ _ _ tt); [apply reads_plog |].
  rewrite <- (app_nil_r (concat _)).
  apply (reads_bind _ _ _ [] ls); [| apply reads_ret].
  rewrite Nat2Z.id.
  exact (reads_motd_lines ls Hls 0 []).
Qed.

(** Example: a message of the day of two lines, followed by another
    byte. *)
Lemma MotdParser_decodes_lines_witness :
  let p := Packet.mk SMSG_MOTD ([2; 0; 0; 0] ++ [72; 105; 0] ++ [33; 0] ++ [9]) 0 in
  fst (run_parser MotdParser_parse p []) = Done (true, mkMotdData [[72; 105]; [33]])
  /\ Packet.readPos (pkt (snd (run_parser MotdParser_parse p []))) = 9%nat.
Proof.
  cbv zeta.
  destruct (MotdParser_decodes_lines [[72; 105]; [33]]
              ltac:(repeat constructor; discriminate) ltac:(cbn; lia)
              (Packet.mk SMSG_MOTD ([2; 0; 0; 0] ++ [72; 105; 0] ++ [33; 0] ++ [9]) 0)
              [] [9] eq_refl) as [l' E].
  unfold run_parser. rewrite E. split; reflexivity.
Defined.

(** ** The character list *)

Lemma reads_readUInt64 (v : Z) :
  0 <= v < 2 ^ 64 -> reads readUInt64 (le_bytes 8 v) v.
Proof.
  intros Hv. unfold readUInt64.
  rewrite <- (le_value_le_bytes 8 v) at 2 by (cbn; lia).
  apply reads_readLE. apply length_le_bytes.
Qed.

(** A field that is read and then the rest. *)
Ltac reads_field :=
  match goal with
  | |- reads (bind (plog_call _ _) _) _ _ =>
      eapply reads_bind_nil; [apply reads_plog |]
  | |- reads (bind (if ?b then plog_call _ _ else ret tt) _) _ _ =>
      apply (reads_bind_nil _ _ _ tt);
      [destruct b; [apply reads_plog | apply reads_ret] |]
  | |- reads (bind readUInt8 _) ([?b] ++ _) _ =>
      apply (reads_bind _ _ [b] _ b); [apply reads_readUInt8 |]
  | |- reads (bind readUInt32 _) (le_bytes 4 ?v ++ _) _ =>
      apply (reads_bind _ _ (le_bytes 4 v) _ v);
      [apply reads_readUInt32; assumption |]
  | |- reads (bind readFloat _) (le_bytes 4 ?v ++ _) _ =>
      apply (reads_bind _ _ (le_bytes 4 v) _ v);
      [apply reads_readUInt32; assumption |]
  | |- reads (bind readUInt64 _) (le_bytes 8 ?v ++ _) _ =>
      apply (reads_bind _ _ (le_bytes 8 v) _ v);
      [apply reads_readUInt64; assumption |]
  | |- reads (bind readString _) ((?s ++ [0]) ++ _) _ =>
      apply (reads_bind _ _ (s ++ [0]) _ s);
      [apply reads_readString; assumption |]
  end.

Lemma reads_equipment_loop (items : list CharacterData.EquipmentItem) :
  Forall CharEnumParser.wire_item items ->
  forall (k : nat) (acc : list CharacterData.EquipmentItem),
    reads (foldM (fun equipment (_ : nat) =>
                    displayModel <- readUInt32 ;;
                    inventoryType <- readUInt8 ;;
                    enchantment <- readUInt32 ;;
                    ret (equipment
                         ++ [CharacterData.mkItem displayModel inventoryType enchantment]))
                 (seq k (length items)) acc)
          (concat (map CharEnumParser.encode_item items)) (acc ++ items).
Proof.
  induction 1 as [| i items Hi _ IH]; intros k acc.
  - cbn. rewrite app_nil_r. apply reads_ret.
  - cbn [length seq foldM map concat].
    apply (reads_bind _ _ (CharEnumParser.encode_item i) _ (acc ++ [i])).
    + destruct i as [dm it en]. destruct Hi as [Hdm Hen]. cbn in Hdm, Hen.
      unfold CharEnumParser.encode_item. cbn [CharacterData.displayModel
        CharacterData.inventoryType CharacterData.enchantment].
      replace (le_bytes 4 dm ++ [it] ++ le_bytes 4 en)
        with (le_bytes 4 dm ++ [it] ++ le_bytes 4 en ++ []) by now rewrite app_nil_r.
      repeat reads_field. apply reads_ret.
    + replace (acc ++ i :: items) with ((acc ++ [i]) ++ items) by now rewrite <- app_assoc.
      apply IH.
Qed.

Lemma reads_readEquipment (items : list CharacterData.EquipmentItem) :
  length items = 23%nat ->
  Forall CharEnumParser.wire_item items ->
  reads CharEnumParser.readEquipment (concat (map CharEnumParser.encode_item items)) items.
Proof.
  intros Hlen Hitems. unfold CharEnumParser.readEquipment. rewrite <- Hlen.
  exact (reads_equipment_loop items Hitems 0 []).
Qed.

Lemma reads_readCharacter (hasGuild hasPet : CharacterData.t -> bool)
    (customization unknown : Z) (c : CharacterData.t) :
  word32 customization ->
  CharEnumParser.wire_character c ->
  reads (CharEnumParser.readCharacter hasGuild hasPet)
        (CharEnumParser.encode_character customization unknown c) c.
Proof.
  intros Hcust Hc. destruct c. unfold CharEnumParser.wire_character in Hc.
  cbn [CharacterData.guid CharacterData.name CharacterData.appearanceBytes
       CharacterData.zoneId CharacterData.mapId CharacterData.x CharacterData.y
       CharacterData.z CharacterData.guildId CharacterData.flags
       CharacterData.pet_displayModel CharacterData.pet_level CharacterData.pet_family
       CharacterData.equipment] in Hc.
  destruct Hc as (Hguid & Hname & Happ & Hzone & Hmap & Hx & Hy & Hz & Hguild & Hflags
                  & Hpd & Hpl & Hpf & Hlen & Hitems).
  unfold word32 in *.
  unfold CharEnumParser.readCharacter, CharEnumParser.encode_character.
  cbn [CharacterData.guid CharacterData.name CharacterData.race
       CharacterData.characterClass CharacterData.gender CharacterData.appearanceBytes
       CharacterData.facialFeatures CharacterData.level
       CharacterData.zoneId CharacterData.mapId CharacterData.x CharacterData.y
       CharacterData.z CharacterData.guildId CharacterData.flags
       CharacterData.pet_displayModel CharacterData.pet_level CharacterData.pet_family
       CharacterData.equipment].
  repeat reads_field.
  rewrite <- (app_nil_r (concat _)).
  apply (reads_bind _ _ _ [] equipment); [now apply reads_readEquipment |].
  repeat reads_field. apply reads_ret.
Qed.

Lemma reads_character_loop (hasGuild hasPet : CharacterData.t -> bool)
    (customization unknown : Z) (cs : list CharacterData.t) :
  word32 customization ->
  Forall CharEnumParser.wire_character cs ->
  forall (k : nat) (acc : list CharacterData.t),
    reads (foldM (fun characters (_ : nat) =>
                    character <- CharEnumParser.readCharacter hasGuild hasPet ;;
                    ret (characters ++ [character]))
                 (seq k (length cs)) acc)
          (concat (map (CharEnumParser.encode_character customization unknown) cs))
          (acc ++ cs).
Proof.
  intros Hcust. induction 1 as [| c cs Hc _ IH]; intros k acc.
  - cbn. rewrite app_nil_r. apply reads_ret.
  - cbn [length seq foldM map concat].
    apply (reads_bind _ _ (CharEnumParser.encode_character customization unknown c) _
             (acc ++ [c])).
    + rewrite <- (app_nil_r (CharEnumParser.encode_character customization unknown c)).
      apply (reads_bind _ _ _ [] c); [now apply reads_readCharacter | apply reads_ret].
    + replace (acc ++ c :: cs) with ((acc ++ [c]) ++ cs) by now rewrite <- app_assoc.
      apply IH.
Qed.

(** X19.  [CharEnumParser::parse] gives back a character list from its
    wire form: the count on one byte, then for each character the
    identifier, the name ended by a zero byte, race, class, gender,
    appearance, level, zone, map, position, guild, flags, two skipped
    fields, the pet and 23 equipment items of nine bytes.  It returns
    [true] with the characters in their order and consumes exactly these
    bytes. *)
Theorem CharEnumParser_decodes_characters :
  forall (hasGuild hasPet : CharacterData.t -> bool) (customization unknown : Z)
         (cs : list CharacterData.t),
    word32 customization ->
    (length cs < 256)%nat ->
    Forall CharEnumParser.wire_character cs ->
    reads (CharEnumParser.parse hasGuild hasPet)
          ([Z.of_nat (length cs)]
           ++ concat (map (CharEnumParser.encode_character customization unknown) cs))
          (true, cs).
Proof.
  intros hasGuild hasPet customization unknown cs Hcust Hn Hcs.
  unfold CharEnumParser.parse.
  apply (reads_bind _ _ [Z.of_nat (length cs)] _ (Z.of_nat (length cs)));
    [apply reads_readUInt8 |].
  apply (reads_bind_nil _ _ _ tt); [apply reads_plog |].
  rewrite <- (app_nil_r (concat _)).
  apply (reads_bind _ _ _ [] cs).
  - rewrite Nat2Z.id. exact (reads_character_loop _ _ _ _ cs Hcust Hcs 0 []).
  - apply (reads_bind_nil _ _ _ tt); [apply reads_plog | apply reads_ret].
Qed.

(** Example: a list of one level 80 character. *)
Lemma CharEnumParser_decodes_characters_witness :
  reads (CharEnumParser.parse (fun _ => false) (fun _ => false))
        ([Z.of_nat 1]
         ++ concat (map (CharEnumParser.encode_character 0 0)
                        [(CharacterData.mk 5 [65; 98] 1 2 0 7 3 80 12 0 0 0 0 0 0 0 0 0
             (repeat (CharacterData.mkItem 0 0 0) 23))]))
        (true, [(CharacterData.mk 5 [65; 98] 1 2 0 7 3 80 12 0 0 0 0 0 0 0 0 0
             (repeat (CharacterData.mkItem 0 0 0) 23))]).
Proof.
  apply (CharEnumParser_decodes_characters (fun _ => false) (fun _ => false) 0 0
           [(CharacterData.mk 5 [65; 98] 1 2 0 7 3 80 12 0 0 0 0 0 0 0 0 0
             (repeat (CharacterData.mkItem 0 0 0) 23))]).
  - unfold word32. lia.
  - cbn. lia.
  - apply List.Forall_cons; [| apply List.Forall_nil].
    unfold CharEnumParser.wire_character, word32. cbn.
    repeat split; try lia.
    + apply List.Forall_cons; [lia |]. apply List.Forall_cons; [lia |]. apply List.Forall_nil.
    + repeat (apply List.Forall_cons;
              [unfold CharEnumParser.wire_item, word32; cbn; lia |]).
      apply List.Forall_nil.
Defined.

(** ** Chat messages *)

Lemma reads_readChars_loop (cs : list Z) :
  forall (k : nat) (acc : list Z),
    reads (foldM (fun buffer (_ : nat) => c <- readUInt8 ;; ret (buffer ++ [c]))
                 (seq k (length cs)) acc)
          cs (acc ++ cs).
Proof.
  induction cs as [| c cs IH]; intros k acc.
  - cbn. rewrite app_nil_r. apply reads_ret.
  - cbn [length seq foldM]. change (c :: cs) with ([c] ++ cs).
    apply (reads_bind _ _ [c] cs (acc ++ [c])).
    + change [c] with ([c] ++ []) at 1.
      apply (reads_bind _ _ [c] [] c); [apply reads_readUInt8 | apply reads_ret].
    + replace (acc ++ [c] ++ cs) with ((acc ++ [c]) ++ cs) by now rewrite <- app_assoc.
      apply IH.
Qed.

Lemma reads_readChars (cs : list Z) :
  reads (MessageChatParser.readChars (length cs)) cs cs.
Proof. exact (reads_readChars_loop cs 0 []). Qed.

Section ChatDecoder.
Context `{WorldEnv}.
Variables (MONSTER_SAY MONSTER_YELL MONSTER_EMOTE WHISPER_INFORM ACHIEVEMENT
           GUILD_ACHIEVEMENT : Z).

(** The end of the decoder: the chat tag and the log calls. *)
Lemma reads_chat_tail (data : MessageChatData.t) (tag : Z) :
  reads (chatTag <- readUInt8 ;;
         let data := MessageChatData.set_chatTag chatTag data in
         plog_call DEBUG "Parsed SMSG_MESSAGECHAT:" ;;;
         plog_call DEBUG "  Type: " ;;;
         plog_call DEBUG "  Language: " ;;;
         plog_call DEBUG "  Sender GUID: 0x" ;;;
         (match MessageChatData.senderName data with
          | [] => ret tt
          | _ :: _ => plog_call DEBUG "  Sender name: "
          end) ;;;
         (match MessageChatData.channelName data with
          | [] => ret tt
          | _ :: _ => plog_call DEBUG "  Channel: "
          end) ;;;
         plog_call DEBUG "  Message: " ;;;
         plog_call DEBUG "  Chat tag: 0x" ;;;
         ret (true, data))
        [tag] (true, MessageChatData.set_chatTag tag data).
Proof.
  change [tag] with ([tag] ++ []).
  apply (reads_bind _ _ [tag] [] tag); [apply reads_readUInt8 |].
  cbv zeta.
  do 4 (apply (reads_bind_nil _ _ _ tt); [apply reads_plog |]).
  apply (reads_bind_nil _ _ _ tt);
    [destruct (MessageChatData.senderName _); [apply reads_ret | apply reads_plog] |].
  apply (reads_bind_nil _ _ _ tt);
    [destruct (MessageChatData.channelName _); [apply reads_ret | apply reads_plog] |].
  do 2 (apply (reads_bind_nil _ _ _ tt); [apply reads_plog |]).
  apply reads_ret.
Qed.

Lemma reads_chat_plain (data : MessageChatData.t) (ty lang sender len : Z)
    (unk text : list Z) (tag : Z) (data' : MessageChatData.t) :
  MessageChatParser.plain_type MONSTER_SAY MONSTER_YELL MONSTER_EMOTE WHISPER_INFORM
           ACHIEVEMENT GUILD_ACHIEVEMENT ty = true ->
  word32 lang -> 0 <= sender < 2 ^ 64 -> length unk = 4%nat -> word32 len ->
  let header := MessageChatData.set_senderGuid sender
                  (MessageChatData.set_language lang (MessageChatData.set_type ty data)) in
  reads (if (0 <? len) && (len <? 8192) then
           msgBuffer <- MessageChatParser.readChars (Z.to_nat len) ;;
           ret (MessageChatData.set_message msgBuffer header)
         else ret header) text data' ->
  reads (MessageChatParser.parse MONSTER_SAY MONSTER_YELL MONSTER_EMOTE WHISPER_INFORM
           ACHIEVEMENT GUILD_ACHIEVEMENT data)
        ([ty] ++ le_bytes 4 lang ++ le_bytes 8 sender ++ unk ++ le_bytes 4 len
         ++ text ++ [tag])
        (true, MessageChatData.set_chatTag tag data').
Proof.
  intros Hplain Hlang Hsender Hunk Hlen header Htext.
  unfold MessageChatParser.plain_type in Hplain.
  apply andb_true_iff in Hplain as [Hplain Hach].
  apply andb_true_iff in Hplain as [Hplain Hchan].
  apply andb_true_iff in Hplain as [Hmon Hwhisper].
  apply negb_true_iff in Hmon, Hwhisper, Hchan, Hach.
  unfold MessageChatParser.parse.
  apply reads_guard.
  { rewrite !length_app, !length_le_bytes, Hunk. cbn [length]. lia. }
  apply (reads_bind _ _ [ty] _ ty); [apply reads_readUInt8 |].
  apply (reads_bind _ _ (le_bytes 4 lang) _ lang); [now apply reads_readUInt32 |].
  apply (reads_bind _ _ (le_bytes 8 sender) _ sender); [now apply reads_readUInt64 |].
  apply (reads_bind _ _ unk _ (le_value unk)); [now apply (reads_readLE 4 unk) |].
  rewrite Hmon, Hwhisper, Hchan, Hach.
  apply (reads_bind_nil _ _ _ header); [apply reads_ret |].
  apply (reads_bind _ _ (le_bytes 4 len) _ len); [now apply reads_readUInt32 |].
  apply (reads_bind _ _ text [tag] data'); [exact Htext |].
  apply reads_chat_tail.
Qed.

(** X20.  [MessageChatParser::parse] on a message of a chat type without
    data of its own: the type, the language, the sender and the text are
    decoded from their fields and the chat tag from the byte after the
    text, for a text of 1 to 8191 bytes; exactly the message is
    consumed. *)
Theorem MessageChatParser_decodes_plain_message :
  forall (data : MessageChatData.t) (ty lang sender : Z) (unk text : list Z) (tag : Z),
    MessageChatParser.plain_type MONSTER_SAY MONSTER_YELL MONSTER_EMOTE WHISPER_INFORM
           ACHIEVEMENT GUILD_ACHIEVEMENT ty = true ->
    word32 lang -> 0 <= sender < 2 ^ 64 -> length unk = 4%nat ->
    0 < Z.of_nat (length text) < 8192 ->
    reads (MessageChatParser.parse MONSTER_SAY MONSTER_YELL MONSTER_EMOTE WHISPER_INFORM
           ACHIEVEMENT GUILD_ACHIEVEMENT data)
          ([ty] ++ le_bytes 4 lang ++ le_bytes 8 sender ++ unk
           ++ le_bytes 4 (Z.of_nat (length text)) ++ text ++ [tag])
          (true,
           MessageChatData.mk ty lang sender (MessageChatData.senderName data)
             (MessageChatData.receiverGuid data) (MessageChatData.receiverName data)
             (MessageChatData.channelName data) text tag).
Proof.
  intros data ty lang sender unk text tag Hplain Hlang Hsender Hunk Htext.
  apply (reads_chat_plain data ty lang sender (Z.of_nat (length text)) unk text tag
           (MessageChatData.set_message text
              (MessageChatData.set_senderGuid sender
                 (MessageChatData.set_language lang (MessageChatData.set_type ty data)))));
    try assumption.
  { unfold word32. lia. }
  replace ((0 <? Z.of_nat (length text)) && (Z.of_nat (length text) <? 8192)) with true
    by (symmetry; apply andb_true_iff; split; [apply Z.ltb_lt | apply Z.ltb_lt]; lia).
  rewrite Nat2Z.id. rewrite <- (app_nil_r text) at 2.
  apply (reads_bind _ _ text [] text); [apply reads_readChars | apply reads_ret].
Qed.

(** X21.  [MessageChatParser::parse] does not skip a text whose length
    field is 0 or 8192 and more: no text is read, the text of the record is
    left as it was, and the chat tag is the byte that follows the length
    field. *)
Theorem MessageChatParser_text_length_bounds :
  forall (data : MessageChatData.t) (ty lang sender len : Z) (unk : list Z) (tag : Z),
    MessageChatParser.plain_type MONSTER_SAY MONSTER_YELL MONSTER_EMOTE WHISPER_INFORM
           ACHIEVEMENT GUILD_ACHIEVEMENT ty = true ->
    word32 lang -> 0 <= sender < 2 ^ 64 -> length unk = 4%nat -> word32 len ->
    len = 0 \/ 8192 <= len ->
    reads (MessageChatParser.parse MONSTER_SAY MONSTER_YELL MONSTER_EMOTE WHISPER_INFORM
           ACHIEVEMENT GUILD_ACHIEVEMENT data)
          ([ty] ++ le_bytes 4 lang ++ le_bytes 8 sender ++ unk ++ le_bytes 4 len ++ [tag])
          (true,
           MessageChatData.mk ty lang sender (MessageChatData.senderName data)
             (MessageChatData.receiverGuid data) (MessageChatData.receiverName data)
             (MessageChatData.channelName data) (MessageChatData.message data) tag).
Proof.
  intros data ty lang sender len unk tag Hplain Hlang Hsender Hunk Hlen Hbound.
  change (le_bytes 4 len ++ [tag]) with (le_bytes 4 len ++ [] ++ [tag]).
  apply (reads_chat_plain data ty lang sender len unk [] tag
           (MessageChatData.set_senderGuid sender
              (MessageChatData.set_language lang (MessageChatData.set_type ty data))));
    try assumption.
  replace ((0 <? len) && (len <? 8192)) with false; [apply reads_ret |].
  symmetry. apply andb_false_iff.
  destruct Hbound as [-> | Hbig]; [now left | right; apply Z.ltb_ge; lia].
Qed.

End ChatDecoder.

(** Example: a SAY message of two bytes. *)
Lemma MessageChatParser_decodes_plain_message_witness :
  reads (@MessageChatParser.parse wotlk_env 12 14 16 9 48 49
           (MessageChatData.mk 0 0 0 [] 0 [] [] [] 0))
        ([1] ++ le_bytes 4 7 ++ le_bytes 8 5 ++ [0; 0; 0; 0]
         ++ le_bytes 4 (Z.of_nat (length [104; 105])) ++ [104; 105] ++ [3])
        (true, MessageChatData.mk 1 7 5 [] 0 [] [] [104; 105] 3).
Proof.
  apply (@MessageChatParser_decodes_plain_message wotlk_env 12 14 16 9 48 49
           (MessageChatData.mk 0 0 0 [] 0 [] [] [] 0) 1 7 5 [0; 0; 0; 0] [104; 105] 3).
  - reflexivity.
  - unfold word32. lia.
  - lia.
  - reflexivity.
  - cbn. lia.
Defined.

(** Example: a SAY message that announces 8192 bytes of text. *)
Lemma MessageChatParser_text_length_bounds_witness :
  reads (@MessageChatParser.parse wotlk_env 12 14 16 9 48 49
           (MessageChatData.mk 0 0 0 [] 0 [] [] [111; 108; 100] 0))
        ([1] ++ le_bytes 4 7 ++ le_bytes 8 5 ++ [0; 0; 0; 0] ++ le_bytes 4 8192 ++ [3])
        (true, MessageChatData.mk 1 7 5 [] 0 [] [] [111; 108; 100] 3).
Proof.
  apply (@MessageChatParser_text_length_bounds wotlk_env 12 14 16 9 48 49
           (MessageChatData.mk 0 0 0 [] 0 [] [] [111; 108; 100] 0) 1 7 5 8192
           [0; 0; 0; 0] 3).
  - reflexivity.
  - unfold word32. lia.
  - lia.
  - reflexivity.
  - unfold word32. lia.
  - right. lia.
Defined.

(** ** Reading the chat history *)

Section ChatHistoryQuery.
Context `{WorldEnv}.
Import GameHandler.

Lemma push_chat_last msg (g : GameHandler.t) :
  exists older, chatHistory (snd (push_chat msg g)) = older ++ [msg].
Proof.
  rewrite push_chat_history.
  destruct (Nat.ltb_spec maxChatHistory (length (chatHistory g ++ [msg]))) as [Hlt | Hge].
  - destruct (chatHistory g) as [| a r].
    + cbn in Hlt. unfold maxChatHistory in Hlt. lia.
    + exists r. reflexivity.
  - now exists (chatHistory g).
Qed.

(** X8.  [GameHandler::getChatHistory] returns the newest messages: what
    it returns is the end of the history, all of it for a limit of zero and
    otherwise as many messages as the limit allows; and a limit of one
    gives the message that was added last. *)
Theorem getChatHistory_returns_newest :
  forall (g : GameHandler.t) (maxMessages : nat),
    (exists older, chatHistory g = older ++ getChatHistory g maxMessages)
    /\ length (getChatHistory g maxMessages)
       = (if (maxMessages =? 0)%nat then length (chatHistory g)
          else Nat.min maxMessages (length (chatHistory g)))
    /\ forall msg, getChatHistory (exec (addLocalChatMessage msg) g) 1 = [msg].
Proof.
  intros g maxMessages. unfold getChatHistory. cbv zeta. repeat split.
  - destruct ((maxMessages =? 0)%nat || (length (chatHistory g) <=? maxMessages)%nat).
    + now exists [].
    + exists (List.firstn (length (chatHistory g) - maxMessages) (chatHistory g)).
      now rewrite List.firstn_skipn.
  - destruct (Nat.eqb_spec maxMessages 0) as [-> | Hne]; [reflexivity |].
    cbn [orb].
    destruct (Nat.leb_spec (length (chatHistory g)) maxMessages) as [Hle | Hgt].
    + lia.
    + rewrite List.length_skipn. lia.
  - intros msg. unfold exec, addLocalChatMessage.
    destruct (push_chat_last msg g) as [older ->].
    cbn [Nat.eqb orb]. rewrite length_app. cbn [length].
    destruct (Nat.leb_spec (length older + 1) 1) as [Hle | Hgt].
    + destruct older; [reflexivity | cbn in Hle; lia].
    + replace (length older + 1 - 1)%nat with (length older) by lia.
      change (List.skipn (length older) (older ++ [msg])) with (drop (length older) (older ++ [msg])).
      now rewrite drop_app_length.
Qed.

End ChatHistoryQuery.

(** ** Movement flags *)

Lemma testbit_u32 (v i : Z) :
  Z.testbit (u32 v) i = Z.testbit v i && (i <? 32).
Proof.
  unfold u32. change 4294967296 with (2 ^ 32).
  destruct (Z.ltb_spec i 32) as [Hlt | Hge].
  - destruct (Z.ltb_spec i 0) as [Hneg | Hpos].
    + rewrite !Z.testbit_neg_r by lia. reflexivity.
    + rewrite Z.mod_pow2_bits_low by lia. now rewrite andb_true_r.
  - rewrite Z.mod_pow2_bits_high by lia. now rewrite andb_false_r.
Qed.

Section MovementFlags.
Context `{WorldEnv}.
Import GameHandler.

Lemma clear_after_set (f a m : Z) :
  (forall i, Z.testbit a i = true -> Z.testbit m i = true) ->
  Z.land (Z.lor f a) (u32 (Z.lnot m)) = Z.land f (u32 (Z.lnot m)).
Proof.
  intros Hsub. apply Z.bits_inj'. intros i Hi.
  rewrite !Z.land_spec, Z.lor_spec, testbit_u32, Z.lnot_spec by exact Hi.
  destruct (Z.testbit a i) eqn:Ea; [| now rewrite orb_false_r].
  rewrite (Hsub i Ea). cbn. now rewrite !andb_false_r.
Qed.

Lemma testbit_lor_l (a b i : Z) :
  Z.testbit a i = true -> Z.testbit (Z.lor a b) i = true.
Proof. intros E. now rewrite Z.lor_spec, E. Qed.

Lemma testbit_lor_r (a b i : Z) :
  Z.testbit b i = true -> Z.testbit (Z.lor a b) i = true.
Proof. intros E. rewrite Z.lor_spec, E. apply orb_true_r. Qed.

Lemma movement_flags_stop (start stop : Opcode) (f : Z) :
  stop_of start = Some stop ->
  movement_flags stop (movement_flags start f) = movement_flags stop f.
Proof.
  destruct start; cbn [stop_of]; intros E; try discriminate;
    injection E as <-; cbn [movement_flags]; apply clear_after_set; intros i;
    first [ exact (fun E => E) | apply testbit_lor_l | apply testbit_lor_r ].
Qed.

Lemma movement_flags_idempotent (opcode : Opcode) (f : Z) :
  movement_flags opcode (movement_flags opcode f) = movement_flags opcode f.
Proof.
  destruct opcode; cbn [movement_flags]; try reflexivity;
    first [ now rewrite <- Z.lor_assoc, Z.lor_diag
          | now rewrite <- Z.land_assoc, Z.land_diag ].
Qed.

Lemma sendMovement_effect (opcode : Opcode) (g : GameHandler.t) :
  state g = IN_WORLD ->
  state (exec (sendMovement opcode) g) = IN_WORLD
  /\ movementTime (exec (sendMovement opcode) g) = u32 (movementTime g + 1)
  /\ time (movementInfo (exec (sendMovement opcode) g)) = u32 (movementTime g + 1)
  /\ flags (movementInfo (exec (sendMovement opcode) g))
     = movement_flags opcode (flags (movementInfo g)).
Proof.
  intros Hst. unfold exec, sendMovement. rewrite bind_eq. cbn [gets]. rewrite Hst.
  rewrite bool_decide_eq_false_2 by (intros Hne; now apply Hne).
  unfold MovementPacket_build, bind, modify, gets, LOG, LOGS, emit. cbn.
  repeat split; exact Hst.
Qed.

(** X22.  The movement flags of [sendMovement] in the world:
    the opcode that ends a movement undoes the opcode that starts it
    (sending the start and then the stop leaves the flags that the stop
    alone leaves), sending an opcode twice leaves the flags of sending it
    once, and every send advances the movement time by one, modulo 2^32,
    and stamps it on the movement data. *)
Theorem sendMovement_start_then_stop :
  forall (g : GameHandler.t) (start stop opcode : Opcode),
    state g = IN_WORLD ->
    stop_of start = Some stop ->
    flags (movementInfo (exec (sendMovement stop) (exec (sendMovement start) g)))
    = flags (movementInfo (exec (sendMovement stop) g))
    /\ flags (movementInfo (exec (sendMovement opcode) (exec (sendMovement opcode) g)))
       = flags (movementInfo (exec (sendMovement opcode) g))
    /\ movementTime (exec (sendMovement opcode) g) = u32 (movementTime g + 1)
    /\ time (movementInfo (exec (sendMovement opcode) g)) = u32 (movementTime g + 1).
Proof.
  intros g start stop opcode Hst Hstop.
  destruct (sendMovement_effect start g Hst) as (Hs1 & _ & _ & Hf1).
  destruct (sendMovement_effect stop _ Hs1) as (_ & _ & _ & Hf2).
  destruct (sendMovement_effect stop g Hst) as (_ & _ & _ & Hf3).
  destruct (sendMovement_effect opcode g Hst) as (Ho1 & Ht & Hti & Hf4).
  destruct (sendMovement_effect opcode _ Ho1) as (_ & _ & _ & Hf5).
  repeat split.
  - rewrite Hf2, Hf1, Hf3. now apply movement_flags_stop.
  - rewrite Hf5, Hf4. apply movement_flags_idempotent.
  - exact Ht.
  - exact Hti.
Qed.

End MovementFlags.

(** Example: running forward and stopping, against stopping at once. *)
Lemma sendMovement_start_then_stop_witness :
  flags
    (GameHandler.movementInfo
       (GameHandler.exec (GameHandler.sendMovement CMSG_MOVE_STOP)
          (GameHandler.exec (GameHandler.sendMovement CMSG_MOVE_START_FORWARD)
             (GameHandler.set_state IN_WORLD (@GameHandler.new wotlk_env)))))
  = flags
      (GameHandler.movementInfo
         (GameHandler.exec (GameHandler.sendMovement CMSG_MOVE_STOP)
            (GameHandler.set_state IN_WORLD (@GameHandler.new wotlk_env)))).
Proof.
  exact (proj1 (@sendMovement_start_then_stop wotlk_env
                  (GameHandler.set_state IN_WORLD (@GameHandler.new wotlk_env))
                  CMSG_MOVE_START_FORWARD CMSG_MOVE_STOP CMSG_MOVE_HEARTBEAT
                  eq_refl eq_refl)).
Defined.
